(** * GreenGraphConnected: the connection and merge engine

    A shallow embedding of
      - [connections/pt_to_pt.py]   (class PTWalkingConnectionBuilder),
      - [connections/car_to_pt.py]  (class CarToPTConnector),
      - [graph_integration/merge_graphs.py] (create_combined_graph),
    together with the part of networkx's [DiGraph] these functions use.

    Conventions.
      - Python floats are idealised as rationals [Q]; [x / y] is exact.
      - A Python [dict] is an association list in insertion order: lookup
        finds the first entry of a key, assignment overwrites in place or
        appends, deletion removes the key.
      - Exceptions are values of [exn]; a function that may raise returns
        a [result].
      - geopy's geodesic distance, numpy's cosine and scipy's KD-tree query
        are not part of the repository: they are the fields of a
        [Geometry], over which every definition that uses them is
        parametrised.
      - Logging has no effect on any value and is left out. *)

From Stdlib Require Import List String Bool Arith ZArith QArith Qabs Qround Qminmax Lia Lqa.
Import ListNotations.

Set Implicit Arguments.

Open Scope string_scope.
Open Scope list_scope.
Open Scope Q_scope.

(* ===================================================================== *)
(** * Part I. Definitions                                                 *)
(* ===================================================================== *)

(** ** Exceptions *)

Inductive exn : Type :=
| KeyError
| IndexError
| ValueError
| NetworkXError.

Inductive result (A : Type) : Type :=
| Ok (a : A)
| Raise (e : exn).

Arguments Ok {A} a.
Arguments Raise {A} e.

Definition bind {A B : Type} (r : result A) (k : A -> result B) : result B :=
  match r with
  | Ok a => k a
  | Raise e => Raise e
  end.

Notation "x <- r ;; k" := (bind r (fun x => k))
  (at level 61, r at next level, right associativity).
Notation "' p <- r ;; k" := (bind r (fun x => let p := x in k))
  (at level 61, p pattern, r at next level, right associativity).

(** A [for] loop whose body may raise: the first exception ends the loop. *)
Fixpoint for_each {A S : Type} (body : S -> A -> result S) (xs : list A) (s : S)
  : result S :=
  match xs with
  | [] => Ok s
  | x :: xs' => s' <- body s x ;; for_each body xs' s'
  end.

Definition from_option {A : Type} (e : exn) (o : option A) : result A :=
  match o with
  | Some a => Ok a
  | None => Raise e
  end.

(** ** Python values held in attribute dictionaries *)

Inductive value : Type :=
| VNone
| VNum (q : Q)
| VStr (s : string).

(** Truth value of [d.get(k)] in a condition: a missing key gives [None]. *)
Definition truthy (v : option value) : bool :=
  match v with
  | None => false
  | Some VNone => false
  | Some (VNum q) => negb (Qeq_bool q 0)
  | Some (VStr s) => negb (s =? "")%string
  end.

(** [d.get(k) == 'text'] *)
Definition is_str (v : option value) (s : string) : bool :=
  match v with
  | Some (VStr t) => (t =? s)%string
  | _ => false
  end.

(** ** Dictionaries *)

Module Dict.
Section Dict.
Variable V : Type.

Definition t := list (string * V).

Fixpoint get (k : string) (d : t) : option V :=
  match d with
  | [] => None
  | (k', v) :: r => if (k =? k')%string then Some v else get k r
  end.

Definition mem (k : string) (d : t) : bool :=
  match get k d with
  | Some _ => true
  | None => false
  end.

(** [d[k] = v] *)
Fixpoint set (k : string) (v : V) (d : t) : t :=
  match d with
  | [] => [(k, v)]
  | (k', v') :: r =>
      if (k =? k')%string then (k, v) :: r else (k', v') :: set k v r
  end.

(** [del d[k]] *)
Definition del (k : string) (d : t) : t :=
  filter (fun e => negb (k =? fst e)%string) d.

(** [d.update(new)] *)
Definition update (d new : t) : t :=
  fold_left (fun acc e => set (fst e) (snd e) acc) new d.

Definition keys (d : t) : list string := map fst d.

Fixpoint nodup_keys (d : t) : bool :=
  match d with
  | [] => true
  | (k, _) :: r => negb (mem k r) && nodup_keys r
  end.
End Dict.
Arguments get {V} k d.
Arguments mem {V} k d.
Arguments set {V} k v d.
Arguments del {V} k d.
Arguments update {V} d new.
Arguments keys {V} d.
Arguments nodup_keys {V} d.
End Dict.

Definition attrs := Dict.t value.
Definition node := string.

(** ** networkx.DiGraph

    [node_] is [G._node] (node -> attribute dict) and [adj] is [G._adj]
    (node -> neighbour -> attribute dict).  networkx also keeps the
    predecessor map [G._pred], a mirror of [_adj] sharing the same
    attribute dicts; none of the modelled code reads it. *)

Record DiGraph : Type := mkDiGraph {
  node_ : Dict.t attrs;
  adj : Dict.t (Dict.t attrs)
}.

Definition empty_graph : DiGraph := mkDiGraph [] [].

(** [G.nodes(data=True)] *)
Definition nodes (G : DiGraph) : list (node * attrs) := node_ G.

(** [G.edges(data=True)] *)
Definition edges (G : DiGraph) : list (node * node * attrs) :=
  flat_map (fun un => map (fun vd => (fst un, fst vd, snd vd)) (snd un)) (adj G).

(** [G._adj[u]], empty when [u] is not a node *)
Definition succ (G : DiGraph) (u : node) : Dict.t attrs :=
  match Dict.get u (adj G) with
  | Some nbrs => nbrs
  | None => []
  end.

(** [G.has_edge(u, v)] *)
Definition has_edge (G : DiGraph) (u v : node) : bool :=
  match Dict.get u (adj G) with
  | Some nbrs => Dict.mem v nbrs
  | None => false
  end.

(** [G[u][v]] when the edge exists *)
Definition edge_data (G : DiGraph) (u v : node) : option attrs :=
  match Dict.get u (adj G) with
  | Some nbrs => Dict.get v nbrs
  | None => None
  end.

(** The first half of [add_edge], once for each endpoint:
    [if n not in self._succ: self._succ[n] = {}; self._node[n] = {}]. *)
Definition touch_node (G : DiGraph) (n : node) : DiGraph :=
  if Dict.mem n (adj G) then G
  else mkDiGraph (Dict.set n [] (node_ G)) (Dict.set n [] (adj G)).

(** One step of [G.add_nodes_from([(n, data)])]:
    [if n not in self._node: self._succ[n] = {}; self._node[n] = {}],
    then [self._node[n].update(data)]. *)
Definition add_node (G : DiGraph) (n : node) (data : attrs) : DiGraph :=
  let G1 := if Dict.mem n (node_ G) then G
            else mkDiGraph (Dict.set n [] (node_ G)) (Dict.set n [] (adj G)) in
  let old := match Dict.get n (node_ G1) with Some a => a | None => [] end in
  mkDiGraph (Dict.set n (Dict.update old data) (node_ G1)) (adj G1).

(** [G.add_edge(u, v, **data)]: the endpoints become nodes, and [data] is
    merged into the attribute dict of the edge, a fresh one only when the
    edge did not exist. *)
Definition add_edge (G : DiGraph) (u v : node) (data : attrs) : DiGraph :=
  let G1 := touch_node (touch_node G u) v in
  let old := match edge_data G1 u v with Some d => d | None => [] end in
  mkDiGraph (node_ G1)
            (Dict.set u (Dict.set v (Dict.update old data) (succ G1 u)) (adj G1)).

(** [G.remove_edge(u, v)]: raises [NetworkXError] when the edge is absent. *)
Definition remove_edge (G : DiGraph) (u v : node) : result DiGraph :=
  if has_edge G u v
  then Ok (mkDiGraph (node_ G) (Dict.set u (Dict.del v (succ G u)) (adj G)))
  else Raise NetworkXError.

Definition add_nodes_from (G : DiGraph) (ns : list (node * attrs)) : DiGraph :=
  fold_left (fun g nd => add_node g (fst nd) (snd nd)) ns G.

Definition add_edges_from (G : DiGraph) (es : list (node * node * attrs)) : DiGraph :=
  fold_left (fun g e => add_edge g (fst (fst e)) (snd (fst e)) (snd e)) es G.

(** Representation invariant of a [DiGraph] built by networkx: no key
    occurs twice in any of its dictionaries, the two node maps have the same
    keys, and both endpoints of every edge are nodes. *)
Definition wf_graph (G : DiGraph) : bool :=
  Dict.nodup_keys (node_ G)
  && forallb (fun na => Dict.nodup_keys (snd na)) (node_ G)
  && Dict.nodup_keys (adj G)
  && forallb (fun un =>
       Dict.nodup_keys (snd un)
       && forallb (fun vd => Dict.nodup_keys (snd vd) && Dict.mem (fst vd) (adj G))
                  (snd un)) (adj G)
  && forallb (fun na => Dict.mem (fst na) (adj G)) (node_ G)
  && forallb (fun un => Dict.mem (fst un) (node_ G)) (adj G).

(** ** config_integration.py *)

Definition MAX_WALKING_DISTANCE_M : Q := 300.
Definition WALKING_SPEED : Q := 1.4.

(** ** External numeric libraries *)

Definition coord : Type := (Q * Q)%type.

Record Geometry : Type := mkGeometry {
  (** [geopy.distance.geodesic(a, b).meters]; geopy raises [ValueError] on a
      latitude outside [-90, 90]. *)
  geodesic_m : coord -> coord -> result Q;
  (** [np.cos(np.radians(x))] *)
  cos_radians : Q -> Q;
  (** [KDTree(pts).query_ball_point(x, r)]: indices into [pts], in the
      order scipy reports them. *)
  query_ball_point : list coord -> coord -> Q -> list nat
}.

Definition as_float (v : value) : option Q :=
  match v with
  | VNum q => Some q
  | _ => None
  end.

Fixpoint as_float_rows (rows : list (value * value)) : option (list coord) :=
  match rows with
  | [] => Some []
  | (a, b) :: r =>
      match as_float a, as_float b, as_float_rows r with
      | Some x, Some y, Some pts => Some ((x, y) :: pts)
      | _, _, _ => None
      end
  end.

(** [KDTree(np.array(rows))]: scipy wants an n-by-2 array of finite
    floats.  An empty list of rows makes a one-dimensional array, refused
    with [ValueError] ("data must be 2 dimensions"); a row holding [None]
    (which numpy turns into NaN) or text (taken not to spell a number) is
    refused with [ValueError] as well. *)
Definition KDTree (rows : list (value * value)) : result (list coord) :=
  match rows with
  | [] => Raise ValueError
  | _ => from_option ValueError (as_float_rows rows)
  end.

(** [round(x, 1)], ties to even. *)
Definition round1 (x : Q) : Q :=
  let y := x * 10 in
  let n := Qfloor y in
  let frac := y - inject_Z n in
  let up :=
    if Qle_bool frac (1 # 2)
    then (if Qeq_bool frac (1 # 2) then Z.odd n else false)
    else true in
  inject_Z (if up then n + 1 else n)%Z / 10.

Definition Qgtb (x y : Q) : bool := negb (Qle_bool x y).
Definition Qltb (x y : Q) : bool := negb (Qle_bool y x).

Definition mean (xs : list Q) : Q :=
  fold_left Qplus xs 0 / inject_Z (Z.of_nat (List.length xs)).

Definition enumerate {A : Type} (xs : list A) : list (nat * A) :=
  combine (seq 0 (List.length xs)) xs.

(** ** connections/pt_to_pt.py *)

Record Stats : Type := mkStats {
  edges_added : nat;
  unique_pairs : nat;
  nodes_checked : nat;
  skipped_existing : nat;
  skipped_too_far : nat
}.

(** What [add_walking_edges] returns: [{"error": "no_pt_nodes"}] or the
    statistics dictionary. *)
Inductive report : Type :=
| ErrorNoPtNodes
| StatsReport (s : Stats).

(** [data.get('mode') == 'walk' and data.get('edge_type') == 'pt_transfer'] *)
Definition is_pt_walk (data : attrs) : bool :=
  is_str (Dict.get "mode" data) "walk"
  && is_str (Dict.get "edge_type" data) "pt_transfer".

(** [tuple(sorted([a, b]))] *)
Definition sorted_pair (a b : node) : node * node :=
  if String.ltb b a then (b, a) else (a, b).

Definition pair_eqb (p q : node * node) : bool :=
  (fst p =? fst q)%string && (snd p =? snd q)%string.

(** [pairs_added.add(p)] on a set kept as a duplicate-free list *)
Definition set_add (p : node * node) (s : list (node * node)) : list (node * node) :=
  if existsb (pair_eqb p) s then s else s ++ [p].

Module PtToPt.
Section PTWalkingConnectionBuilder.
Variable geo : Geometry.
(** [self.max_walk_distance]; [self.walking_speed] is [WALKING_SPEED]. *)
Variable max_walk_distance : Q.

(** The loop state of [add_connections]: [self.graph], [stats] and
    [pairs_added]. *)
Record loop_state : Type := mkLoop {
  ls_graph : DiGraph;
  ls_stats : Stats;
  ls_pairs : list (node * node)
}.

Definition walking_edge_attrs (distance : Q) : attrs :=
  let travel_time := distance / WALKING_SPEED in
  let emissions := 0 in
  [ ("mode", VStr "walk");
    ("distance", VNum distance);
    ("time", VNum travel_time);
    ("emissions", VNum emissions);
    ("edge_type", VStr "pt_transfer");
    ("walk_distance_m", VNum (round1 distance));
    ("walk_time_min", VNum (round1 (travel_time / 60))) ].

Definition _add_walking_edge (G : DiGraph) (source target : node) (distance : Q)
  : DiGraph :=
  add_edge G source target (walking_edge_attrs distance).

Definition extract_pt_nodes (G : DiGraph) : list (node * attrs) :=
  filter (fun nd => Dict.mem "lat" (snd nd) && Dict.mem "lon" (snd nd)) (nodes G).

(** The loop of [build_spatial_index]: [node_data['lat']] raises
    [KeyError] on a node without the key. *)
Fixpoint index_rows (pt_nodes : list (node * attrs))
  : result (list node * list (value * value)) :=
  match pt_nodes with
  | [] => Ok ([], [])
  | (node_id, node_data) :: rest =>
      lat <- from_option KeyError (Dict.get "lat" node_data) ;;
      lon <- from_option KeyError (Dict.get "lon" node_data) ;;
      r <- index_rows rest ;;
      Ok (node_id :: fst r, (lat, lon) :: snd r)
  end.

Definition build_spatial_index (pt_nodes : list (node * attrs))
  : result (list node * list (value * value)) :=
  r <- index_rows pt_nodes ;;
  tree <- KDTree (snd r) ;;
  Ok r.

Definition count_too_far (s : Stats) : Stats :=
  mkStats (edges_added s) (unique_pairs s) (nodes_checked s)
          (skipped_existing s) (S (skipped_too_far s)).

Definition count_existing (s : Stats) : Stats :=
  mkStats (edges_added s) (unique_pairs s) (nodes_checked s)
          (S (skipped_existing s)) (skipped_too_far s).

Definition count_added (s : Stats) : Stats :=
  mkStats (edges_added s + 2) (unique_pairs s) (nodes_checked s)
          (skipped_existing s) (skipped_too_far s).

Definition count_checked (s : Stats) : Stats :=
  mkStats (edges_added s) (unique_pairs s) (S (nodes_checked s))
          (skipped_existing s) (skipped_too_far s).

Definition with_unique_pairs (n : nat) (s : Stats) : Stats :=
  mkStats (edges_added s) n (nodes_checked s)
          (skipped_existing s) (skipped_too_far s).

(** The body of [for j in indices]. *)
Definition visit (node_ids : list node) (coords : list coord)
           (i : nat) (node_id : node) (ci : coord)
           (st : loop_state) (j : nat) : result loop_state :=
  if (i =? j)%nat then Ok st
  else
    neighbor_id <- from_option IndexError (nth_error node_ids j) ;;
    cj <- from_option IndexError (nth_error coords j) ;;
    distance <- geodesic_m geo ci cj ;;
    if Qgtb distance max_walk_distance
    then Ok (mkLoop (ls_graph st) (count_too_far (ls_stats st)) (ls_pairs st))
    else if has_edge (ls_graph st) node_id neighbor_id
    then Ok (mkLoop (ls_graph st) (count_existing (ls_stats st)) (ls_pairs st))
    else
      let G1 := _add_walking_edge (ls_graph st) node_id neighbor_id distance in
      let G2 := _add_walking_edge G1 neighbor_id node_id distance in
      Ok (mkLoop G2 (count_added (ls_stats st))
                 (set_add (sorted_pair node_id neighbor_id) (ls_pairs st))).

(** The body of [for i, node_id in enumerate(node_ids)]. *)
Definition check_node (node_ids : list node) (coords : list coord)
           (search_radius_degrees : Q)
           (st : loop_state) (ix : nat * node) : result loop_state :=
  let i := fst ix in
  let node_id := snd ix in
  let st1 := mkLoop (ls_graph st) (count_checked (ls_stats st)) (ls_pairs st) in
  ci <- from_option IndexError (nth_error coords i) ;;
  let indices := query_ball_point geo coords ci search_radius_degrees in
  for_each (visit node_ids coords i node_id ci) indices st1.

Definition search_radius (coords : list coord) : Q :=
  let lat_avg := mean (map fst coords) in
  let meters_per_degree_lat := 111320 in
  let meters_per_degree_lon := 111320 * cos_radians geo lat_avg in
  max_walk_distance / Qmin meters_per_degree_lat meters_per_degree_lon.

Definition add_connections (G : DiGraph) (node_ids : list node)
           (coords : list (value * value)) : result (DiGraph * Stats) :=
  pts <- KDTree coords ;;
  let search_radius_degrees := search_radius pts in
  st <- for_each (check_node node_ids pts search_radius_degrees)
                 (enumerate node_ids)
                 (mkLoop G (mkStats 0 0 0 0 0) []) ;;
  Ok (ls_graph st, with_unique_pairs (List.length (ls_pairs st)) (ls_stats st)).

(** The edges collected for removal at the start of [add_walking_edges]. *)
Definition edges_to_remove (G : DiGraph) : list (node * node) :=
  map (fun e => fst e) (filter (fun e => is_pt_walk (snd e)) (edges G)).

Definition clear_walking_edges (G : DiGraph) : result DiGraph :=
  for_each (fun g uv => remove_edge g (fst uv) (snd uv)) (edges_to_remove G) G.

(** [add_walking_edges] mutates [self.graph] and returns a dictionary;
    here it returns the graph it leaves behind together with that
    dictionary. [_analyze_by_mode] only logs. *)
Definition add_walking_edges (G : DiGraph) : result (DiGraph * report) :=
  G1 <- clear_walking_edges G ;;
  let pt_nodes := extract_pt_nodes G1 in
  if (List.length pt_nodes =? 0)%nat
  then Ok (G1, ErrorNoPtNodes)
  else
    ix <- build_spatial_index pt_nodes ;;
    r <- add_connections G1 (fst ix) (snd ix) ;;
    Ok (fst r, StatsReport (snd r)).
End PTWalkingConnectionBuilder.
End PtToPt.

(** ** connections/car_to_pt.py *)

(** An entry of [train_stations.json]. *)
Record Station : Type := mkStation {
  st_id : node;
  st_name : string;
  st_lat : Q;
  st_lon : Q
}.

(** An entry of [connections.json]. *)
Record Connection : Type := mkConnection {
  station_id : node;
  station_name : string;
  station_lat : Q;
  station_lon : Q;
  road_node : node;
  road_lat : value;
  road_lon : value;
  distance : Q;
  walk_time : Q
}.

Module CarToPt.
Section CarToPTConnector.
Variable geo : Geometry.
(** [self.max_distance]; [self.walking_speed] is [WALKING_SPEED]. *)
Variable max_distance : Q.

(** The loop of [build_spatial_index]: a node is kept when
    [lat and lon] is true. *)
Definition road_rows (G_car : DiGraph) : list (node * (value * value)) :=
  flat_map
    (fun nd =>
       match Dict.get "lat" (snd nd), Dict.get "lon" (snd nd) with
       | Some lat, Some lon =>
           if truthy (Some lat) && truthy (Some lon)
           then [(fst nd, (lat, lon))] else []
       | _, _ => []
       end)
    (nodes G_car).

(** Returns [self.road_nodes] and the points of [self.road_tree]. *)
Definition build_spatial_index (G_car : DiGraph) : result (list node * list coord) :=
  let rows := road_rows G_car in
  tree <- KDTree (map snd rows) ;;
  Ok (map fst rows, tree).

(** [distance < min_distance], where [min_distance] starts at infinity. *)
Definition below (d : Q) (best : option (node * Q)) : bool :=
  match best with
  | None => true
  | Some (_, m) => Qltb d m
  end.

(** The loop over [indices]; [closest_road] and [min_distance] are
    assigned together, so they are kept as one optional pair. *)
Definition scan (road_nodes : list node) (road_coords : list coord)
           (station_coord : coord)
           (best : option (node * Q)) (idx : nat) : result (option (node * Q)) :=
  road_node_id <- from_option IndexError (nth_error road_nodes idx) ;;
  road_coord <- from_option IndexError (nth_error road_coords idx) ;;
  d <- geodesic_m geo station_coord road_coord ;;
  if below d best && Qle_bool d max_distance
  then Ok (Some (road_node_id, d))
  else Ok best.

Definition closest (road_nodes : list node) (road_coords : list coord)
           (station_coord : coord) (indices : list nat)
  : result (option (node * Q)) :=
  for_each (scan road_nodes road_coords station_coord) indices None.

(** [self.connections], [stations_connected], [stations_too_far] *)
Record tally : Type := mkTally {
  connections : list Connection;
  stations_connected : nat;
  stations_too_far : nat
}.

Definition too_far (t : tally) : tally :=
  mkTally (connections t) (stations_connected t) (S (stations_too_far t)).

(** The body of [for station in self.train_stations]. *)
Definition connect_station (G_car : DiGraph)
           (road_nodes : list node) (road_coords : list coord)
           (t : tally) (station : Station) : result tally :=
  let station_coord := (st_lat station, st_lon station) in
  let search_radius_deg := max_distance / 111320 in
  let indices := query_ball_point geo road_coords station_coord search_radius_deg in
  match indices with
  | [] => Ok (too_far t)
  | _ =>
      best <- closest road_nodes road_coords station_coord indices ;;
      match best with
      | Some (closest_road, min_distance) =>
          if (closest_road =? "")%string then Ok (too_far t)
          else
            let wt := min_distance / WALKING_SPEED in
            road_data <- from_option KeyError (Dict.get closest_road (node_ G_car)) ;;
            rlat <- from_option KeyError (Dict.get "lat" road_data) ;;
            rlon <- from_option KeyError (Dict.get "lon" road_data) ;;
            let connection :=
              mkConnection (st_id station) (st_name station)
                           (st_lat station) (st_lon station)
                           closest_road rlat rlon min_distance wt in
            Ok (mkTally (connections t ++ [connection])
                        (S (stations_connected t)) (stations_too_far t))
      | None => Ok (too_far t)
      end
  end.

Definition find_connections (G_car : DiGraph)
           (road_nodes : list node) (road_coords : list coord)
           (train_stations : list Station) : result (list Connection) :=
  t <- for_each (connect_station G_car road_nodes road_coords)
                train_stations (mkTally [] 0 0) ;;
  if (stations_connected t =? 0)%nat then Raise ValueError
  else Ok (connections t).

(** [build_spatial_index] followed by [find_connections], as in [main]. *)
Definition connect (G_car : DiGraph) (train_stations : list Station)
  : result (list Connection) :=
  ix <- build_spatial_index G_car ;;
  find_connections G_car (fst ix) (snd ix) train_stations.
End CarToPTConnector.
End CarToPt.

(** ** graph_integration/merge_graphs.py *)

Module Merge.

(** [data.get('mode') in ['tram', 'bus', 'train']] *)
Definition is_transport (data : attrs) : bool :=
  is_str (Dict.get "mode" data) "tram"
  || is_str (Dict.get "mode" data) "bus"
  || is_str (Dict.get "mode" data) "train".

(** Lines 61-64: the PT network is copied into the new graph. *)
Definition add_pt_network (G_pt : DiGraph) : DiGraph :=
  add_edges_from (add_nodes_from empty_graph (nodes G_pt)) (edges G_pt).

(** Lines 68-77: the loop runs over the edges of [G_pt]. *)
Definition backfill_walking (G_pt G_combined : DiGraph) : DiGraph :=
  fold_left
    (fun g e =>
       let u := fst (fst e) in
       let v := snd (fst e) in
       let data := snd e in
       if is_pt_walk data && negb (has_edge g v u)
       then add_edge g v u data else g)
    (edges G_pt) G_combined.

(** Lines 82-88: the loop runs over the edges of [G_combined] while it
    adds edges to it.  The outer iteration is over the nodes present when
    the loop starts (an edge joins two nodes, so [add_edge] creates none);
    the neighbours of a node are read when the iteration reaches it, and
    the body never adds an edge leaving that same node: [add_edge(v, u)]
    has source [v], and for [v = u] the test [has_edge(v, u)] holds. *)
Definition backfill_transport (G_combined : DiGraph) : DiGraph :=
  fold_left
    (fun g u =>
       fold_left
         (fun g' vd =>
            let v := fst vd in
            let data := snd vd in
            if is_transport data && negb (has_edge g' v u)
            then add_edge g' v u data else g')
         (succ g u) g)
    (Dict.keys (adj G_combined)) G_combined.

(** Lines 114-115. *)
Definition add_car_network (G_car G_combined : DiGraph) : DiGraph :=
  add_edges_from (add_nodes_from G_combined (nodes G_car)) (edges G_car).

Definition connection_edge_attrs (conn : Connection) : attrs :=
  [ ("mode", VStr "walk");
    ("distance", VNum (distance conn));
    ("time", VNum (walk_time conn));
    ("emissions", VNum 0);
    ("edge_type", VStr "car_to_pt_transfer");
    ("station_name", VStr (station_name conn)) ].

(** Lines 123-141: one edge per connection, road node to station. *)
Definition add_connection_edges (conns : list Connection) (G_combined : DiGraph)
  : DiGraph :=
  fold_left
    (fun g conn => add_edge g (road_node conn) (station_id conn)
                            (connection_edge_attrs conn))
    conns G_combined.

(** The graph before the connection edges are added. *)
Definition networks (G_pt G_car : DiGraph) : DiGraph :=
  add_car_network G_car
    (backfill_transport (backfill_walking G_pt (add_pt_network G_pt))).

Definition create_combined_graph (G_pt G_car : DiGraph) (conns : list Connection)
  : DiGraph :=
  add_connection_edges conns (networks G_pt G_car).

End Merge.

(** ** Worked inputs

    [grid_geometry] stands in for the numeric libraries in the worked
    examples below: distance is measured along the grid lines at 111,320 m
    per degree, and the ball query scans the points in index order. *)

Definition in_ball (x : coord) (r : Q) (p : coord) : bool :=
  Qle_bool 0 r
  && Qle_bool ((fst p - fst x) * (fst p - fst x) + (snd p - snd x) * (snd p - snd x))
              (r * r).

Definition scan_ball (pts : list coord) (x : coord) (r : Q) : list nat :=
  map fst (filter (fun ip => in_ball x r (snd ip)) (enumerate pts)).

Definition grid_geometry : Geometry :=
  mkGeometry
    (fun a b => Ok (111320 * (Qabs (fst a - fst b) + Qabs (snd a - snd b))))
    (fun _ => 1)
    scan_ball.

Definition stop (lat lon : Q) : attrs := [("lat", VNum lat); ("lon", VNum lon)].

(** Two stops 0.0005 degrees apart and one train service from the second
    to the first. *)
Definition train_edge : attrs :=
  [("mode", VStr "train"); ("distance", VNum 60); ("time", VNum 30);
   ("emissions", VNum 2); ("edge_type", VStr "network"); ("route_type", VNum 2)].

Definition two_stops : DiGraph :=
  add_edge
    (add_nodes_from empty_graph
       [("pt_A", stop (-37.81) 144.96); ("pt_B", stop (-37.81) 144.9605)])
    "pt_B" "pt_A" train_edge.

(** ** Vocabulary of the statements *)

(** The part of the representation invariant the proofs rely on, stated on
    lookups. *)
Definition graph_ok (G : DiGraph) : Prop :=
  Dict.nodup_keys (adj G) = true
  /\ (forall u nbrs, Dict.get u (adj G) = Some nbrs -> Dict.nodup_keys nbrs = true)
  /\ (forall u v d, edge_data G u v = Some d ->
        Dict.nodup_keys d = true /\ Dict.mem v (adj G) = true)
  /\ (forall u, Dict.mem u (adj G) = true -> Dict.mem u (node_ G) = true).

(** [walk_link G u v dist]: the graph has a walking transfer edge from [u]
    to [v] of length [dist], with the travel time of that length at
    walking speed and no emissions. *)
Definition walk_link (G : DiGraph) (u v : node) (dist : Q) : Prop :=
  exists d,
    edge_data G u v = Some d
    /\ is_pt_walk d = true
    /\ Dict.get "distance" d = Some (VNum dist)
    /\ Dict.get "time" d = Some (VNum (dist / WALKING_SPEED))
    /\ Dict.get "emissions" d = Some (VNum 0).

(** The identifiers of the PT graph are kept apart from the car side: no
    car edge leaves a PT node and no connection starts at one. *)
Definition apart (G_pt G_car : DiGraph) (conns : list Connection) : bool :=
  forallb (fun e => negb (Dict.mem (fst (fst e)) (node_ G_pt))) (edges G_car)
  && forallb (fun c => negb (Dict.mem (road_node c) (node_ G_pt))) conns.

(** [paired_within max G]: every walking transfer edge of [G] respects the
    budget [max] and is matched by the edge in the opposite direction, with
    the same distance, time and emissions. *)
Definition paired_within (max : Q) (G : DiGraph) : Prop :=
  forall u v d,
    edge_data G u v = Some d -> is_pt_walk d = true ->
    exists dist, dist <= max /\ walk_link G u v dist /\ walk_link G v u dist.

(** The running minimum of [find_connections] never exceeds the budget. *)
Definition within_budget (max : Q) (best : option (node * Q)) : Prop :=
  forall r m, best = Some (r, m) -> m <= max.

(** A PT graph with one station, a car graph whose road node already has
    an edge to that station, and a connection between the two. *)
Definition car_edge : attrs :=
  [("mode", VStr "car"); ("distance", VNum 120); ("time", VNum 9);
   ("emissions", VNum 25); ("edge_type", VStr "network")].

Definition station_graph : DiGraph :=
  add_nodes_from empty_graph [("pt_S", stop (-37.8183) 144.9671)].


Definition plain_roads : DiGraph :=
  add_edge
    (add_nodes_from empty_graph
       [("road_1", stop (-37.8180) 144.9670); ("road_2", stop (-37.8190) 144.9680)])
    "road_1" "road_2" car_edge.

Definition link_near : Connection :=
  mkConnection "pt_S" "Southern Cross" (-37.8183) 144.9671
               "road_1" (VNum (-37.8180)) (VNum 144.9670) 35 25.


(** [(road_node, station_id)] of a connection. *)
Definition ends (c : Connection) : node * node := (road_node c, station_id c).


Definition coord_A : coord := (-37.81, 144.96).
Definition coord_B : coord := (-37.81, 144.9605).

(** What a geometry has to report for the two stops of [two_stops] to be
    candidates of each other: each is within the budget of the other, and
    the ball query at either stop returns both. *)
Definition sees_two_stops (geo : Geometry) (max d_ab d_ba : Q) : Prop :=
  geodesic_m geo coord_A coord_B = Ok d_ab
  /\ geodesic_m geo coord_B coord_A = Ok d_ba
  /\ d_ab <= max
  /\ d_ba <= max
  /\ query_ball_point geo [coord_A; coord_B] coord_A
       (PtToPt.search_radius geo max [coord_A; coord_B]) = [0; 1]%nat
  /\ query_ball_point geo [coord_A; coord_B] coord_B
       (PtToPt.search_radius geo max [coord_A; coord_B]) = [0; 1]%nat.

(** [two_stops] after one run of the connector, and after two. *)
Definition walked_once (d : Q) : DiGraph :=
  mkDiGraph (node_ two_stops)
    [ ("pt_A", [("pt_B", PtToPt.walking_edge_attrs d)]);
      ("pt_B", [("pt_A", Dict.update train_edge (PtToPt.walking_edge_attrs d))]) ].

Definition walked_twice (d : Q) : DiGraph :=
  mkDiGraph (node_ two_stops)
    [ ("pt_A", [("pt_B", PtToPt.walking_edge_attrs d)]);
      ("pt_B", [("pt_A", PtToPt.walking_edge_attrs d)]) ].

(** The scenario of the specification for the Car-to-PT connector: road
    nodes R1 at (0, 0) and R2 at (0, 0.01), station S1 at (0, 0.0005). *)
Definition scenario_roads : DiGraph :=
  add_nodes_from empty_graph [("road_R1", stop 0 0); ("road_R2", stop 0 0.01)].

Definition scenario_station : Station := mkStation "pt_S1" "S1" 0 0.0005.

(** A car graph none of whose nodes has coordinates, and a PT graph with a
    stop whose coordinates are [None]. *)
Definition unlocated_roads : DiGraph :=
  add_nodes_from empty_graph
    [("road_1", [("name", VStr "Main St")]); ("road_2", [("name", VStr "High St")])].

Definition stop_with_none : DiGraph :=
  add_nodes_from empty_graph
    [("pt_A", stop (-37.81) 144.96); ("pt_N", [("lat", VNone); ("lon", VNone)])].

(** Two stops without coordinates joined by a walking transfer edge left by
    an earlier run. *)
Definition stale_walk : DiGraph :=
  add_edge
    (add_nodes_from empty_graph
       [("pt_X", [("stop_name", VStr "X")]); ("pt_Y", [("stop_name", VStr "Y")])])
    "pt_X" "pt_Y" (PtToPt.walking_edge_attrs 80).

Definition stale_walk_cleared : DiGraph :=
  mkDiGraph (node_ stale_walk) [("pt_X", []); ("pt_Y", [])].

(** A station next to the road nodes of [plain_roads], and a connection
    from a road node to the first of the two stops. *)
Definition near_station : Station :=
  mkStation "pt_S" "Southern Cross" (-37.8183) 144.9671.

Definition link_to_A : Connection :=
  mkConnection "pt_A" "Stop A" (-37.81) 144.96
               "road_1" (VNum (-37.8180)) (VNum 144.9670) 35 25.

(** A PT graph holding one walking transfer edge and no reverse. *)
Definition one_way_walk : DiGraph :=
  add_edge
    (add_nodes_from empty_graph
       [("pt_A", stop (-37.81) 144.96); ("pt_B", stop (-37.81) 144.9605)])
    "pt_A" "pt_B" (PtToPt.walking_edge_attrs 44).

(** The distance [grid_geometry] gives between the two stops. *)
Definition grid_AB : Q := 111320 * (Qabs (-37.81 - -37.81) + Qabs (144.96 - 144.9605)).

(** The connection [grid_geometry] finds for [near_station] among the road
    nodes of [plain_roads]. *)
Definition grid_link : Connection :=
  let d := 111320 * (Qabs (-37.8183 - -37.8180) + Qabs (144.9671 - 144.9670)) in
  mkConnection "pt_S" "Southern Cross" (-37.8183) 144.9671
               "road_1" (VNum (-37.8180)) (VNum 144.9670) d (d / WALKING_SPEED).

(** Candidate [idx] of the road index lies at distance [d] from the
    station. *)
Definition candidate_at (geo : Geometry) (road_coords : list coord)
           (station_coord : coord) (idx : nat) (d : Q) : Prop :=
  exists c, nth_error road_coords idx = Some c /\ geodesic_m geo station_coord c = Ok d.

(** The rows [build_spatial_index] reads from the stops of a graph. *)
Definition stop_rows (G : DiGraph) : list (value * value) :=
  map (fun nd =>
         (match Dict.get "lat" (snd nd) with Some v => v | None => VNone end,
          match Dict.get "lon" (snd nd) with Some v => v | None => VNone end))
      (PtToPt.extract_pt_nodes G).

(** [behaves_on geo pts]: on the points [pts] the ball query returns
    positions of [pts] and the geodesic distance is defined. *)
Definition behaves_on (geo : Geometry) (pts : list coord) : Prop :=
  (forall x r j, In j (query_ball_point geo pts x r) -> (j < List.length pts)%nat)
  /\ (forall a b, In a pts -> In b pts -> exists d, geodesic_m geo a b = Ok d).

(** [subseq l1 l2]: [l1] is [l2] with some elements left out, the others
    in their order. *)
Inductive subseq {A : Type} : list A -> list A -> Prop :=
| subseq_nil : subseq [] []
| subseq_skip x l1 l2 : subseq l1 l2 -> subseq l1 (x :: l2)
| subseq_keep x l1 l2 : subseq l1 l2 -> subseq (x :: l1) (x :: l2).

(** The record [find_connections] builds for a station matched to the road
    node [r] at distance [m]. *)
Definition record_for (G_car : DiGraph) (station : Station) (r : node) (m : Q)
           (c : Connection) : Prop :=
  exists road_data,
    Dict.get r (node_ G_car) = Some road_data
    /\ Dict.get "lat" road_data = Some (road_lat c)
    /\ Dict.get "lon" road_data = Some (road_lon c)
    /\ station_id c = st_id station
    /\ station_name c = st_name station
    /\ station_lat c = st_lat station
    /\ station_lon c = st_lon station
    /\ road_node c = r
    /\ distance c = m
    /\ walk_time c = m / WALKING_SPEED.

(** [backfilled keep g s]: [s] is [g] with reverse edges added.  The nodes
    are those of [g]; every edge of [g] is in [s] with its data; an edge of
    [s] that [g] lacks is the reverse of an edge of [g], carries that edge's
    data, and the data passes the test [keep]. *)
Definition backfilled (keep : attrs -> bool) (g s : DiGraph) : Prop :=
  graph_ok s
  /\ node_ s = node_ g
  /\ (forall x y d, edge_data g x y = Some d -> edge_data s x y = Some d)
  /\ (forall x y d, edge_data s x y = Some d ->
        edge_data g x y = Some d
        \/ (edge_data g x y = None /\ edge_data g y x = Some d /\ keep d = true)).

(** The edges whose reverse the merge supplies. *)
Definition reversible (d : attrs) : bool := is_pt_walk d || Merge.is_transport d.

(** The combined graph when the car network is about to be added
    (merge_graphs.py, after line 88). *)
Definition pt_side (G_pt : DiGraph) : DiGraph :=
  Merge.backfill_transport (Merge.backfill_walking G_pt (Merge.add_pt_network G_pt)).

(** networkx keeps [_node] and [_adj] on the same keys; this is the half
    [add_edge] relies on when it tests [u not in self._succ]. *)
Definition nodes_in_adj (G : DiGraph) : Prop :=
  forall n, Dict.mem n (node_ G) = true -> Dict.mem n (adj G) = true.

(** The connection has [m] as its road node or as its station. *)
Definition names (m : node) (conn : Connection) : bool :=
  (road_node conn =? m)%string || (station_id conn =? m)%string.

(** Two graphs with the same edges, pair by pair, and two loop states of
    [add_connections] that differ at most in how their graphs store those
    edges. *)
Definition same_edges (g1 g2 : DiGraph) : Prop :=
  forall u v, edge_data g1 u v = edge_data g2 u v.

Definition same_state (st1 st2 : PtToPt.loop_state) : Prop :=
  same_edges (PtToPt.ls_graph st1) (PtToPt.ls_graph st2)
  /\ PtToPt.ls_stats st1 = PtToPt.ls_stats st2
  /\ PtToPt.ls_pairs st1 = PtToPt.ls_pairs st2.

(** ** graph_integration/merge_graphs.py: the routing check *)

(** [str(n).startswith('road_')] *)
Definition is_road (n : node) : bool := String.prefix "road_" n.

(** [car_nodes] and [pt_nodes] of [test_multimodal_path]. *)
Definition car_nodes (G : DiGraph) : list node := filter is_road (map fst (nodes G)).

Definition pt_nodes (G : DiGraph) : list node :=
  filter (fun n => negb (is_road n)) (map fst (nodes G)).

(** [test_multimodal_path(G)] returns nothing.  What follows the choice of
    [source] and [target] runs inside [try ... except Exception] and only
    logs, so the function ends at the early [return], raises at one of the
    two subscripts, or reaches the search; the value kept here is the pair
    the search is run on. *)
Definition test_multimodal_path (G : DiGraph) : result (option (node * node)) :=
  match car_nodes G, pt_nodes G with
  | [], _ => Ok None
  | _, [] => Ok None
  | _, _ =>
      source <- from_option IndexError (nth_error (car_nodes G) 100) ;;
      target <- from_option IndexError (nth_error (pt_nodes G) 100) ;;
      Ok (Some (source, target))
  end.

(** Three stops: the first two 0.0005 degrees apart, the third 0.01 degrees
    to the south, and one train service from the second to the third. *)
Definition three_stops : DiGraph :=
  add_edge
    (add_nodes_from empty_graph
       [("pt_A", stop (-37.81) 144.96); ("pt_B", stop (-37.81) 144.9605);
        ("pt_C", stop (-37.82) 144.96)])
    "pt_B" "pt_C" train_edge.

(** [three_stops] after a run of the connector. *)
Definition three_stops_walked : DiGraph :=
  mkDiGraph (node_ three_stops)
    [ ("pt_A", [("pt_B", PtToPt.walking_edge_attrs grid_AB)]);
      ("pt_B", [("pt_C", train_edge); ("pt_A", PtToPt.walking_edge_attrs grid_AB)]);
      ("pt_C", []) ].

(* ===================================================================== *)
(** * Part II. Properties                                                 *)
(* ===================================================================== *)

Unset Implicit Arguments.

(** ** The error monad and loops *)

Lemma bind_ok {A B : Type} (r : result A) (k : A -> result B) (b : B) :
  bind r k = Ok b -> exists a, r = Ok a /\ k a = Ok b.
Proof.
  destruct r as [a|e]; simpl; intros H; [eauto | discriminate].
Qed.

(** A property kept by every successful pass of the body holds when the
    loop ends. *)
Lemma for_each_invariant {A S : Type} (P : S -> Prop) (body : S -> A -> result S) :
  (forall s x s', P s -> body s x = Ok s' -> P s') ->
  forall xs s s', P s -> for_each body xs s = Ok s' -> P s'.
Proof.
  intros Hstep xs; induction xs as [|x xs IH]; simpl; intros s s' Hs H.
  - inversion H; subst; exact Hs.
  - apply bind_ok in H. destruct H as (s1 & H1 & H2).
    eapply IH; [eapply Hstep; eassumption | exact H2].
Qed.

Lemma fold_left_invariant {A S : Type} (P : S -> Prop) (f : S -> A -> S) :
  (forall s x, P s -> P (f s x)) ->
  forall xs s, P s -> P (fold_left f xs s).
Proof.
  intros Hstep xs; induction xs as [|x xs IH]; simpl; intros s Hs; auto.
Qed.

(** ** Dictionaries *)

Section DictFacts.
Context {V : Type}.
Implicit Types (d : Dict.t V) (k : string) (v : V).

Lemma get_set_same k v d : Dict.get k (Dict.set k v d) = Some v.
Proof.
  induction d as [|[k' v'] r IH]; simpl.
  - now rewrite String.eqb_refl.
  - destruct (String.eqb_spec k k') as [->|Hne]; simpl.
    + now rewrite String.eqb_refl.
    + destruct (String.eqb_spec k k'); [contradiction | exact IH].
Qed.

Lemma get_set_other k k' v d :
  k <> k' -> Dict.get k' (Dict.set k v d) = Dict.get k' d.
Proof.
  intros Hne. induction d as [|[k0 v0] r IH]; simpl.
  - destruct (String.eqb_spec k' k); [congruence | reflexivity].
  - destruct (String.eqb_spec k k0) as [->|Hk]; simpl.
    + destruct (String.eqb_spec k' k0); [congruence | reflexivity].
    + destruct (String.eqb_spec k' k0); [reflexivity | exact IH].
Qed.

Lemma get_set k k' v d :
  Dict.get k' (Dict.set k v d) = if (k =? k')%string then Some v else Dict.get k' d.
Proof.
  destruct (String.eqb_spec k k') as [->|Hne].
  - apply get_set_same.
  - now apply get_set_other.
Qed.

Lemma mem_set k k' v d :
  Dict.mem k' (Dict.set k v d) = (k =? k')%string || Dict.mem k' d.
Proof.
  unfold Dict.mem. rewrite get_set. now destruct (k =? k')%string.
Qed.

Lemma get_del k k' d :
  Dict.get k' (Dict.del k d) = if (k =? k')%string then None else Dict.get k' d.
Proof.
  induction d as [|[k0 v0] r IH]; simpl.
  - now destruct (k =? k')%string.
  - destruct (String.eqb_spec k k0) as [->|Hk]; simpl.
    + rewrite IH. destruct (String.eqb_spec k0 k') as [->|Hk'].
      * reflexivity.
      * destruct (String.eqb_spec k' k0); [congruence | reflexivity].
    + rewrite IH. destruct (String.eqb_spec k' k0) as [->|Hk'].
      * destruct (String.eqb_spec k k0); [contradiction | reflexivity].
      * reflexivity.
Qed.

Lemma mem_del k k' d :
  Dict.mem k' (Dict.del k d) = negb (k =? k')%string && Dict.mem k' d.
Proof.
  unfold Dict.mem. rewrite get_del. now destruct (k =? k')%string.
Qed.

Lemma get_In k v d : Dict.get k d = Some v -> In (k, v) d.
Proof.
  induction d as [|[k0 v0] r IH]; simpl; [discriminate|].
  destruct (String.eqb_spec k k0) as [->|Hk]; intros H.
  - inversion H; subst; now left.
  - right; auto.
Qed.

Lemma mem_In_keys k d : Dict.mem k d = true <-> In k (Dict.keys d).
Proof.
  unfold Dict.mem, Dict.keys.
  induction d as [|[k0 v0] r IH]; simpl.
  - split; [discriminate | tauto].
  - destruct (String.eqb_spec k k0) as [->|Hk].
    + split; auto.
    + rewrite IH. split; [auto | intros [H|H]; [congruence | exact H]].
Qed.

Lemma In_mem k v d : In (k, v) d -> Dict.mem k d = true.
Proof.
  intros H. apply mem_In_keys. unfold Dict.keys.
  change k with (fst (k, v)). now apply in_map.
Qed.

Lemma nodup_keys_NoDup d : Dict.nodup_keys d = true <-> NoDup (Dict.keys d).
Proof.
  induction d as [|[k0 v0] r IH]; simpl.
  - split; [constructor | reflexivity].
  - rewrite andb_true_iff, negb_true_iff, IH. split.
    + intros [Hm Hn]. constructor; [|exact Hn].
      intros Hin. apply mem_In_keys in Hin. congruence.
    + intros H. inversion H as [|? ? Hnin Hn]; subst. split; [|exact Hn].
      destruct (Dict.mem k0 r) eqn:E; [|reflexivity].
      apply mem_In_keys in E. contradiction.
Qed.

(** In a dictionary without repeated keys an entry is what lookup finds. *)
Lemma In_get k v d : Dict.nodup_keys d = true -> In (k, v) d -> Dict.get k d = Some v.
Proof.
  induction d as [|[k0 v0] r IH]; simpl; [tauto|].
  rewrite andb_true_iff, negb_true_iff. intros [Hm Hn] [H|H].
  - inversion H; subst. now rewrite String.eqb_refl.
  - destruct (String.eqb_spec k k0) as [->|Hk].
    + apply In_mem in H. congruence.
    + auto.
Qed.

Lemma keys_set k v d :
  Dict.keys (Dict.set k v d) = if Dict.mem k d then Dict.keys d else Dict.keys d ++ [k].
Proof.
  unfold Dict.mem, Dict.keys.
  induction d as [|[k0 v0] r IH]; simpl; [reflexivity|].
  destruct (String.eqb_spec k k0) as [->|Hk]; simpl; [reflexivity|].
  rewrite IH. now destruct (Dict.get k r).
Qed.

Lemma nodup_keys_set k v d :
  Dict.nodup_keys d = true -> Dict.nodup_keys (Dict.set k v d) = true.
Proof.
  rewrite !nodup_keys_NoDup, keys_set. intros H.
  destruct (Dict.mem k d) eqn:E; [exact H|].
  apply NoDup_app; [exact H | repeat constructor; simpl; tauto |].
  intros x Hx [<-|[]]. apply mem_In_keys in Hx. congruence.
Qed.

Lemma nodup_keys_del k d :
  Dict.nodup_keys d = true -> Dict.nodup_keys (Dict.del k d) = true.
Proof.
  induction d as [|[k0 v0] r IH]; simpl; [reflexivity|].
  rewrite andb_true_iff, negb_true_iff. intros [Hm Hn].
  destruct (k =? k0)%string; simpl; [auto|].
  rewrite (IH Hn), andb_true_r, negb_true_iff.
  pose proof (mem_del k k0 r) as E. rewrite Hm, andb_false_r in E. exact E.
Qed.

Lemma update_app d new1 new2 :
  Dict.update d (new1 ++ new2) = Dict.update (Dict.update d new1) new2.
Proof. unfold Dict.update. apply fold_left_app. Qed.

(** After [d.update(new)] a key holds what [new] gave it last, and what
    it held in [d] when [new] does not mention it. *)
Lemma get_update k d new :
  Dict.get k (Dict.update d new) =
  match Dict.get k (rev new) with
  | Some v => Some v
  | None => Dict.get k d
  end.
Proof.
  revert d. induction new as [|[k0 v0] r IH] using rev_ind; intros d.
  - reflexivity.
  - rewrite update_app, rev_app_distr. simpl.
    rewrite get_set. rewrite String.eqb_sym.
    destruct (k =? k0)%string; [reflexivity | apply IH].
Qed.

Lemma nodup_keys_update d new :
  Dict.nodup_keys d = true -> Dict.nodup_keys (Dict.update d new) = true.
Proof.
  unfold Dict.update. revert d.
  induction new as [|e r IH]; simpl; intros d H; [exact H|].
  apply IH. now apply nodup_keys_set.
Qed.

Lemma set_fresh k v d : Dict.mem k d = false -> Dict.set k v d = d ++ [(k, v)].
Proof.
  unfold Dict.mem. induction d as [|[k0 v0] r IH]; simpl; [reflexivity|].
  destruct (k =? k0)%string; [discriminate|].
  intros H. now rewrite IH.
Qed.

(** Copying a dictionary into a fresh one gives the dictionary back. *)
Lemma update_nil d : Dict.nodup_keys d = true -> Dict.update [] d = d.
Proof.
  intros H. change d with ([] ++ d) at 2.
  assert (G : forall acc, Dict.nodup_keys (acc ++ d) = true ->
                          Dict.update acc d = acc ++ d).
  { clear H. induction d as [|[k0 v0] r IH]; intros acc H.
    - now rewrite app_nil_r.
    - unfold Dict.update in *. simpl.
      assert (Hm : Dict.mem k0 acc = false).
      { apply nodup_keys_NoDup in H. unfold Dict.keys in H.
        rewrite map_app in H. simpl in H. apply NoDup_remove_2 in H.
        destruct (Dict.mem k0 acc) eqn:E; [|reflexivity].
        exfalso. apply H. apply in_or_app. left. now apply mem_In_keys. }
      rewrite set_fresh by exact Hm.
      rewrite IH; rewrite <- app_assoc; simpl; [reflexivity | exact H]. }
  apply G. exact H.
Qed.
End DictFacts.

(** ** networkx.DiGraph *)

Lemma get_succ G u v : Dict.get v (succ G u) = edge_data G u v.
Proof. unfold succ, edge_data. now destruct (Dict.get u (adj G)). Qed.

Lemma has_edge_edge_data G u v :
  has_edge G u v = match edge_data G u v with Some _ => true | None => false end.
Proof. unfold has_edge, edge_data, Dict.mem. now destruct (Dict.get u (adj G)). Qed.

Lemma edge_data_touch_node G n u v :
  edge_data (touch_node G n) u v = edge_data G u v.
Proof.
  unfold touch_node. destruct (Dict.mem n (adj G)) eqn:E; [reflexivity|].
  unfold edge_data; simpl. rewrite get_set.
  destruct (String.eqb_spec n u) as [->|Hne]; [|reflexivity].
  unfold Dict.mem in E. now destruct (Dict.get u (adj G)).
Qed.

Lemma mem_adj_touch_node G n u :
  Dict.mem u (adj (touch_node G n)) = (n =? u)%string || Dict.mem u (adj G).
Proof.
  unfold touch_node. destruct (Dict.mem n (adj G)) eqn:E; simpl.
  - destruct (String.eqb_spec n u) as [->|Hne]; [now rewrite E | reflexivity].
  - apply mem_set.
Qed.

(** [add_edge] writes one ordered pair and leaves every other pair alone. *)
Lemma edge_data_add_edge G a b data u v :
  edge_data (add_edge G a b data) u v =
  if (a =? u)%string && (b =? v)%string
  then Some (Dict.update (match edge_data G a b with Some d => d | None => [] end) data)
  else edge_data G u v.
Proof.
  unfold add_edge.
  set (G1 := touch_node (touch_node G a) b).
  assert (E1 : forall x y, edge_data G1 x y = edge_data G x y).
  { intros. unfold G1. now rewrite !edge_data_touch_node. }
  unfold edge_data at 1; simpl. rewrite get_set.
  destruct (String.eqb_spec a u) as [->|Hne]; simpl.
  - rewrite get_set. destruct (String.eqb_spec b v) as [->|Hb].
    + now rewrite E1.
    + now rewrite get_succ, E1.
  - apply E1.
Qed.

Lemma edge_data_add_edge_same G a b data :
  edge_data (add_edge G a b data) a b =
  Some (Dict.update (match edge_data G a b with Some d => d | None => [] end) data).
Proof. now rewrite edge_data_add_edge, !String.eqb_refl. Qed.

Lemma edge_data_add_edge_other G a b data u v :
  (a, b) <> (u, v) -> edge_data (add_edge G a b data) u v = edge_data G u v.
Proof.
  intros H. rewrite edge_data_add_edge.
  destruct (String.eqb_spec a u) as [->|]; [|reflexivity].
  destruct (String.eqb_spec b v) as [->|]; [congruence | reflexivity].
Qed.

Lemma edge_data_remove_edge G a b G' u v :
  remove_edge G a b = Ok G' ->
  edge_data G' u v =
  if (a =? u)%string && (b =? v)%string then None else edge_data G u v.
Proof.
  unfold remove_edge. destruct (has_edge G a b) eqn:E; [|discriminate].
  intros H; inversion H; subst; clear H.
  unfold edge_data at 1; simpl. rewrite get_set.
  destruct (String.eqb_spec a u) as [->|Hne]; simpl; [|reflexivity].
  now rewrite get_del, get_succ.
Qed.

Lemma node_remove_edge G a b G' : remove_edge G a b = Ok G' -> node_ G' = node_ G.
Proof.
  unfold remove_edge. destruct (has_edge G a b); [|discriminate].
  now intros H; inversion H.
Qed.

(** *** The representation invariant is kept by every mutation *)

Lemma wf_graph_ok G : wf_graph G = true -> graph_ok G.
Proof.
  unfold wf_graph. rewrite !andb_true_iff.
  intros [[[[[_ _] Hadj] Hin] _] Hnode].
  rewrite forallb_forall in Hin, Hnode.
  repeat split.
  - exact Hadj.
  - intros u nbrs Hu. apply get_In in Hu. apply Hin in Hu.
    apply andb_true_iff in Hu. tauto.
  - unfold edge_data in H. destruct (Dict.get u (adj G)) as [nbrs|] eqn:Eu; [|discriminate].
    apply get_In in Eu. apply Hin in Eu. simpl in Eu.
    apply andb_true_iff in Eu. destruct Eu as [_ Eu].
    rewrite forallb_forall in Eu. apply get_In in H. apply Eu in H.
    apply andb_true_iff in H. tauto.
  - unfold edge_data in H. destruct (Dict.get u (adj G)) as [nbrs|] eqn:Eu; [|discriminate].
    apply get_In in Eu. apply Hin in Eu. simpl in Eu.
    apply andb_true_iff in Eu. destruct Eu as [_ Eu].
    rewrite forallb_forall in Eu. apply get_In in H. apply Eu in H.
    apply andb_true_iff in H. tauto.
  - intros u Hu. unfold Dict.mem in Hu.
    destruct (Dict.get u (adj G)) as [nbrs|] eqn:Eu; [|discriminate].
    apply get_In in Eu. apply (Hnode _ Eu).
Qed.

Lemma graph_ok_empty : graph_ok empty_graph.
Proof. repeat split; simpl; try discriminate. Qed.

Lemma graph_ok_touch_node G n : graph_ok G -> graph_ok (touch_node G n).
Proof.
  intros (H1 & H2 & H3 & H4). repeat split.
  - unfold touch_node. destruct (Dict.mem n (adj G)); simpl; [exact H1|].
    now apply nodup_keys_set.
  - intros u nbrs. unfold touch_node. destruct (Dict.mem n (adj G)); simpl; [apply H2|].
    rewrite get_set. destruct (n =? u)%string; [|apply H2].
    intros H; inversion H; reflexivity.
  - rewrite edge_data_touch_node in H. apply (H3 _ _ _ H).
  - rewrite edge_data_touch_node in H. apply H3 in H.
    rewrite mem_adj_touch_node. destruct H as [_ ->]. apply orb_true_r.
  - intros u. rewrite mem_adj_touch_node.
    unfold touch_node. destruct (Dict.mem n (adj G)) eqn:E; simpl.
    + destruct (String.eqb_spec n u) as [->|]; simpl; [intros _; now apply H4 | apply H4].
    + rewrite mem_set. destruct (n =? u)%string; simpl; [reflexivity | apply H4].
Qed.

(** A node that is new to [node_] is new to [adj] too, so [add_node] leaves
    the edges alone. *)
Lemma edge_data_add_node G n data u v :
  graph_ok G -> edge_data (add_node G n data) u v = edge_data G u v.
Proof.
  intros (_ & _ & _ & H4). unfold add_node, edge_data at 1; simpl.
  destruct (Dict.mem n (node_ G)) eqn:E; [reflexivity|]. simpl.
  rewrite get_set. destruct (String.eqb_spec n u) as [->|Hne]; [|reflexivity].
  unfold edge_data. destruct (Dict.get u (adj G)) eqn:Eu; [|reflexivity].
  rewrite H4 in E; [discriminate|]. unfold Dict.mem. now rewrite Eu.
Qed.

Lemma graph_ok_add_node G n data : graph_ok G -> graph_ok (add_node G n data).
Proof.
  intros Hok. pose proof Hok as (H1 & H2 & H3 & H4).
  assert (E := fun u v => edge_data_add_node G n data u v Hok).
  unfold add_node in *. destruct (Dict.mem n (node_ G)) eqn:En; repeat split; simpl in *.
  - exact H1.
  - exact H2.
  - rewrite E in H. apply (H3 _ _ _ H).
  - rewrite E in H. apply (H3 _ _ _ H).
  - intros u Hu. rewrite mem_set, (H4 _ Hu). apply orb_true_r.
  - now apply nodup_keys_set.
  - intros u nbrs. rewrite get_set. destruct (n =? u)%string; [|apply H2].
    intros X; inversion X; reflexivity.
  - rewrite E in H. apply (H3 _ _ _ H).
  - rewrite E in H. apply H3 in H. rewrite mem_set. destruct H as [_ ->].
    apply orb_true_r.
  - intros u. rewrite !mem_set. destruct (n =? u)%string; simpl; [reflexivity|].
    intros Hu. rewrite (H4 _ Hu). reflexivity.
Qed.

Lemma graph_ok_add_nodes_from ns : forall G, graph_ok G -> graph_ok (add_nodes_from G ns).
Proof.
  intros G. unfold add_nodes_from. apply fold_left_invariant.
  intros; now apply graph_ok_add_node.
Qed.

Lemma edge_data_add_nodes_from ns : forall G u v,
  graph_ok G -> edge_data (add_nodes_from G ns) u v = edge_data G u v.
Proof.
  unfold add_nodes_from. induction ns as [|n ns IH]; simpl; intros G u v Hok; [reflexivity|].
  rewrite IH by now apply graph_ok_add_node. now apply edge_data_add_node.
Qed.

Lemma graph_ok_add_edge G a b data : graph_ok G -> graph_ok (add_edge G a b data).
Proof.
  intros H.
  pose proof (graph_ok_touch_node _ b (graph_ok_touch_node _ a H)) as H'.
  assert (Ha : Dict.mem a (adj (touch_node (touch_node G a) b)) = true).
  { rewrite !mem_adj_touch_node, String.eqb_refl. simpl. apply orb_true_r. }
  assert (Hb : Dict.mem b (adj (touch_node (touch_node G a) b)) = true).
  { rewrite mem_adj_touch_node, String.eqb_refl. reflexivity. }
  assert (Hmem : forall u, Dict.mem u (adj (add_edge G a b data)) = true ->
                           Dict.mem u (adj (touch_node (touch_node G a) b)) = true).
  { intros u. unfold add_edge; simpl. rewrite mem_set.
    destruct (String.eqb_spec a u) as [->|]; simpl; auto. }
  assert (Hmem' : forall u, Dict.mem u (adj (touch_node (touch_node G a) b)) = true ->
                            Dict.mem u (adj (add_edge G a b data)) = true).
  { intros u Hu. unfold add_edge; simpl. rewrite mem_set, Hu. apply orb_true_r. }
  destruct H as (H1 & H2 & H3 & H4). destruct H' as (H1' & H2' & H3' & H4').
  repeat split.
  - unfold add_edge; simpl. now apply nodup_keys_set.
  - intros u nbrs. unfold add_edge; simpl. rewrite get_set.
    destruct (a =? u)%string; [|apply H2'].
    intros E; inversion E; subst. apply nodup_keys_set.
    unfold succ. destruct (Dict.get a (adj (touch_node (touch_node G a) b))) eqn:E'.
    + apply (H2' _ _ E').
    + reflexivity.
  - rewrite edge_data_add_edge in H.
    destruct ((a =? u)%string && (b =? v)%string).
    + inversion H; subst. apply nodup_keys_update.
      destruct (edge_data G a b) eqn:E; [apply (H3 _ _ _ E) | reflexivity].
    + apply (H3 _ _ _ H).
  - rewrite edge_data_add_edge in H. apply Hmem'.
    destruct ((a =? u)%string && (b =? v)%string) eqn:E.
    + apply andb_true_iff in E. destruct E as [_ E].
      apply String.eqb_eq in E. subst. exact Hb.
    + apply H3 in H. destruct H as [_ H].
      rewrite !mem_adj_touch_node, H. now rewrite !orb_true_r.
  - intros u Hu. apply Hmem in Hu. apply H4' in Hu. exact Hu.
Qed.

Lemma graph_ok_remove_edge G a b G' :
  graph_ok G -> remove_edge G a b = Ok G' -> graph_ok G'.
Proof.
  intros (H1 & H2 & H3 & H4) Hr.
  assert (E := fun u v => edge_data_remove_edge G a b G' u v Hr).
  unfold remove_edge in Hr. destruct (has_edge G a b) eqn:Hab; [|discriminate].
  inversion Hr; subst; clear Hr.
  assert (Ha : Dict.mem a (adj G) = true).
  { unfold has_edge in Hab. unfold Dict.mem.
    destruct (Dict.get a (adj G)); [reflexivity | discriminate]. }
  repeat split; simpl.
  - now apply nodup_keys_set.
  - intros u nbrs. rewrite get_set. destruct (a =? u)%string; [|apply H2].
    intros X; inversion X; subst. apply nodup_keys_del.
    unfold succ. destruct (Dict.get a (adj G)) eqn:E'; [apply (H2 _ _ E') | reflexivity].
  - rewrite E in H. destruct ((a =? u)%string && (b =? v)%string); [discriminate|].
    apply (H3 _ _ _ H).
  - rewrite E in H. destruct ((a =? u)%string && (b =? v)%string); [discriminate|].
    apply H3 in H. rewrite mem_set. destruct H as [_ ->]. apply orb_true_r.
  - intros u. rewrite mem_set.
    destruct (String.eqb_spec a u) as [->|]; simpl; [intros _; now apply H4 | apply H4].
Qed.

(** *** The edge list and edge lookup *)

Lemma edge_data_In_edges G u v d : edge_data G u v = Some d -> In (u, v, d) (edges G).
Proof.
  unfold edge_data, edges. destruct (Dict.get u (adj G)) as [nbrs|] eqn:E; [|discriminate].
  intros H. apply in_flat_map. exists (u, nbrs). split; [now apply get_In|].
  simpl. apply in_map_iff. exists (v, d). split; [reflexivity | now apply get_In].
Qed.

Lemma In_edges_inv G u v d :
  In (u, v, d) (edges G) -> exists nbrs, In (u, nbrs) (adj G) /\ In (v, d) nbrs.
Proof.
  unfold edges. intros H. apply in_flat_map in H. destruct H as ([u' nbrs] & Hin & H).
  simpl in H. apply in_map_iff in H. destruct H as ([v' d'] & E & H).
  simpl in E. inversion E; subst. eauto.
Qed.

Lemma In_edges_edge_data G u v d :
  graph_ok G -> In (u, v, d) (edges G) -> edge_data G u v = Some d.
Proof.
  intros (H1 & H2 & _) H. apply In_edges_inv in H. destruct H as (nbrs & Hu & Hv).
  apply (In_get _ _ _ H1) in Hu. unfold edge_data. rewrite Hu.
  apply In_get; [apply (H2 _ _ Hu) | exact Hv].
Qed.

Lemma NoDup_map_filter {E K : Type} (key : E -> K) (keep : E -> bool) :
  forall es : list E, NoDup (map key es) -> NoDup (map key (filter keep es)).
Proof.
  intros es. induction es as [|x l IH]; simpl; intros H; [constructor|].
  inversion H as [|? ? Hx Hl]; subst. destruct (keep x); simpl; [|auto].
  constructor; [|auto]. intros Hin. apply Hx.
  apply in_map_iff in Hin. destruct Hin as (y & Ey & Hy).
  apply filter_In in Hy. apply in_map_iff. exists y. tauto.
Qed.

(** A well-formed graph has at most one edge for an ordered pair. *)
Lemma NoDup_edge_pairs G : graph_ok G -> NoDup (map fst (edges G)).
Proof.
  intros (H1 & H2 & _).
  assert (Hin : forall u nbrs, In (u, nbrs) (adj G) -> Dict.nodup_keys nbrs = true).
  { intros u nbrs Hu. apply (H2 u). now apply In_get. }
  clear H2. unfold edges. revert H1 Hin.
  induction (adj G) as [|[u nbrs] l IH]; simpl; intros H1 Hin; [constructor|].
  apply andb_true_iff in H1. destruct H1 as [Hu Hl]. apply negb_true_iff in Hu.
  rewrite map_app. apply NoDup_app.
  - rewrite map_map. simpl.
    assert (Hn : NoDup (Dict.keys nbrs)).
    { apply nodup_keys_NoDup. apply (Hin u). now left. }
    unfold Dict.keys in Hn. clear - Hn.
    induction nbrs as [|[v d] r IHr]; simpl; [constructor|].
    inversion Hn; subst. constructor; [|auto].
    intros X. apply in_map_iff in X. destruct X as ([v' d'] & E & X).
    simpl in E. inversion E; subst. apply H1.
    change v with (fst (v, d')). now apply in_map.
  - apply IH; [exact Hl | intros; eapply Hin; right; eassumption].
  - intros [x y] Hx Hy.
    apply in_map_iff in Hx. destruct Hx as ([[x1 y1] d1] & E1 & Hx).
    apply in_map_iff in Hx. destruct Hx as ([v1 d1'] & E1' & _).
    simpl in *. inversion E1'; subst. inversion E1; subst.
    apply in_map_iff in Hy. destruct Hy as ([[x2 y2] d2] & E2 & Hy).
    simpl in E2. inversion E2; subst.
    apply in_flat_map in Hy. destruct Hy as ([u' nbrs'] & Hu' & Hy).
    simpl in Hy. apply in_map_iff in Hy. destruct Hy as (vd & E & _).
    inversion E; subst.
    pose proof (In_mem _ _ _ Hu') as Hm.
    exact (Bool.eq_true_false_abs _ Hm Hu).
Qed.

(** ** connections/pt_to_pt.py: clearing the old walking edges *)

Lemma pair_eqb_spec p q : pair_eqb p q = true <-> p = q.
Proof.
  destruct p as [a b], q as [c e]. unfold pair_eqb; simpl.
  rewrite andb_true_iff, !String.eqb_eq. split; [intros [-> ->]; reflexivity|].
  intros H; inversion H; auto.
Qed.

Lemma existsb_pair_eqb p l : existsb (pair_eqb p) l = true <-> In p l.
Proof.
  rewrite existsb_exists. split.
  - intros (q & Hq & E). apply pair_eqb_spec in E. now subst.
  - intros H. exists p. split; [exact H | now apply pair_eqb_spec].
Qed.

Lemma remove_edges_spec pairs : forall G G',
  for_each (fun g uv => remove_edge g (fst uv) (snd uv)) pairs G = Ok G' ->
  node_ G' = node_ G
  /\ forall u v, edge_data G' u v =
                 if existsb (pair_eqb (u, v)) pairs then None else edge_data G u v.
Proof.
  induction pairs as [|[a b] r IH]; simpl; intros G G' H.
  - inversion H; subst. auto.
  - apply bind_ok in H. destruct H as (G1 & H1 & H2).
    apply IH in H2. destruct H2 as [Hn He]. split.
    + rewrite Hn. apply (node_remove_edge _ _ _ _ H1).
    + intros u v. rewrite He, (edge_data_remove_edge _ _ _ _ u v H1).
      unfold pair_eqb at 2; simpl.
      rewrite (String.eqb_sym u a), (String.eqb_sym v b).
      destruct ((a =? u)%string && (b =? v)%string); simpl.
      * now destruct (existsb (pair_eqb (u, v)) r).
      * reflexivity.
Qed.

Lemma remove_edges_total pairs : forall G,
  graph_ok G -> NoDup pairs ->
  (forall u v, In (u, v) pairs -> has_edge G u v = true) ->
  exists G', for_each (fun g uv => remove_edge g (fst uv) (snd uv)) pairs G = Ok G'
             /\ graph_ok G'.
Proof.
  induction pairs as [|[a b] r IH]; simpl; intros G Hok Hnd Hhas.
  - eauto.
  - inversion Hnd as [|? ? Hnin Hr]; subst.
    destruct (remove_edge G a b) as [G1|e] eqn:E.
    + simpl. apply IH; [eapply graph_ok_remove_edge; eauto | exact Hr |].
      intros u v Huv. rewrite has_edge_edge_data, (edge_data_remove_edge _ _ _ _ u v E).
      destruct (String.eqb_spec a u) as [->|]; simpl.
      * destruct (String.eqb_spec b v) as [->|]; [contradiction|].
        rewrite <- has_edge_edge_data. auto.
      * rewrite <- has_edge_edge_data. auto.
    + unfold remove_edge in E. rewrite (Hhas a b) in E; [discriminate | now left].
Qed.

Lemma In_edges_to_remove G u v :
  In (u, v) (PtToPt.edges_to_remove G) <->
  exists d, In (u, v, d) (edges G) /\ is_pt_walk d = true.
Proof.
  unfold PtToPt.edges_to_remove. rewrite in_map_iff. split.
  - intros ([[u' v'] d] & E & H). simpl in E. inversion E; subst.
    apply filter_In in H. simpl in H. eauto.
  - intros (d & H & Hd). exists (u, v, d). split; [reflexivity|].
    apply filter_In. auto.
Qed.

(** Once the old walking edges are cleared, no edge is a walking transfer. *)
Lemma cleared_no_pt_walk G G' :
  PtToPt.clear_walking_edges G = Ok G' ->
  forall u v d, edge_data G' u v = Some d -> is_pt_walk d = false.
Proof.
  unfold PtToPt.clear_walking_edges. intros H u v d Hd.
  apply remove_edges_spec in H. destruct H as [_ He]. rewrite He in Hd.
  destruct (existsb (pair_eqb (u, v)) (PtToPt.edges_to_remove G)) eqn:E; [discriminate|].
  destruct (is_pt_walk d) eqn:Ew; [|reflexivity].
  assert (X : In (u, v) (PtToPt.edges_to_remove G)).
  { apply In_edges_to_remove. exists d. split; [now apply edge_data_In_edges | exact Ew]. }
  apply existsb_pair_eqb in X. congruence.
Qed.

(** On a well-formed graph the clearing never raises; it keeps the nodes,
    removes exactly the walking transfer edges and adds nothing. *)
Lemma clear_walking_edges_spec G :
  graph_ok G ->
  exists G', PtToPt.clear_walking_edges G = Ok G'
    /\ graph_ok G'
    /\ node_ G' = node_ G
    /\ forall u v, edge_data G' u v =
         match edge_data G u v with
         | Some d => if is_pt_walk d then None else Some d
         | None => None
         end.
Proof.
  intros Hok. unfold PtToPt.clear_walking_edges.
  destruct (remove_edges_total (PtToPt.edges_to_remove G) G Hok) as (G' & H & Hok').
  - unfold PtToPt.edges_to_remove. change (fun e : node * node * attrs => fst e)
      with (@fst (node * node) attrs).
    apply NoDup_map_filter. now apply NoDup_edge_pairs.
  - intros u v Huv. apply In_edges_to_remove in Huv. destruct Huv as (d & Hd & _).
    rewrite has_edge_edge_data. now rewrite (In_edges_edge_data _ _ _ _ Hok Hd).
  - exists G'. split; [exact H|]. split; [exact Hok'|].
    apply remove_edges_spec in H. destruct H as [Hn He]. split; [exact Hn|].
    intros u v. rewrite He.
    destruct (existsb (pair_eqb (u, v)) (PtToPt.edges_to_remove G)) eqn:E.
    + apply existsb_pair_eqb in E. apply In_edges_to_remove in E.
      destruct E as (d & Hd & Hw).
      now rewrite (In_edges_edge_data _ _ _ _ Hok Hd), Hw.
    + destruct (edge_data G u v) as [d|] eqn:Ed; [|reflexivity].
      destruct (is_pt_walk d) eqn:Ew; [|reflexivity].
      assert (X : In (u, v) (PtToPt.edges_to_remove G)).
      { apply In_edges_to_remove. exists d. split; [now apply edge_data_In_edges | exact Ew]. }
      apply existsb_pair_eqb in X. congruence.
Qed.

(** ** connections/pt_to_pt.py: the walking edges *)

Lemma Qgtb_false x y : Qgtb x y = false -> x <= y.
Proof.
  unfold Qgtb. intros H. apply negb_false_iff in H. now apply Qle_bool_iff.
Qed.

(** Whatever the edge held before, once [_add_walking_edge] has written it
    the edge is a walking transfer of the given length. *)
Lemma walking_attrs_written old dist :
  let d := Dict.update old (PtToPt.walking_edge_attrs dist) in
  is_pt_walk d = true
  /\ Dict.get "distance" d = Some (VNum dist)
  /\ Dict.get "time" d = Some (VNum (dist / WALKING_SPEED))
  /\ Dict.get "emissions" d = Some (VNum 0).
Proof.
  cbv zeta. unfold is_pt_walk. rewrite !get_update. simpl. repeat split; reflexivity.
Qed.

Lemma write_pair_forward G a b dist :
  walk_link (PtToPt._add_walking_edge (PtToPt._add_walking_edge G a b dist) b a dist)
            a b dist.
Proof.
  unfold PtToPt._add_walking_edge, walk_link.
  rewrite edge_data_add_edge.
  destruct ((b =? a)%string && (a =? b)%string).
  - eexists. split; [reflexivity | apply walking_attrs_written].
  - rewrite edge_data_add_edge_same.
    eexists. split; [reflexivity | apply walking_attrs_written].
Qed.

Lemma write_pair_backward G a b dist :
  walk_link (PtToPt._add_walking_edge (PtToPt._add_walking_edge G a b dist) b a dist)
            b a dist.
Proof.
  unfold PtToPt._add_walking_edge, walk_link.
  rewrite edge_data_add_edge_same.
  eexists. split; [reflexivity | apply walking_attrs_written].
Qed.

Lemma write_pair_elsewhere G a b dist u v :
  (u, v) <> (a, b) -> (u, v) <> (b, a) ->
  edge_data (PtToPt._add_walking_edge (PtToPt._add_walking_edge G a b dist) b a dist) u v
  = edge_data G u v.
Proof.
  intros H1 H2. unfold PtToPt._add_walking_edge.
  rewrite !edge_data_add_edge_other; congruence.
Qed.

(** Writing the two edges of a pair keeps the edges matched. *)
Lemma write_pair_paired G a b dist max :
  paired_within max G -> dist <= max ->
  paired_within max
    (PtToPt._add_walking_edge (PtToPt._add_walking_edge G a b dist) b a dist).
Proof.
  intros HG Hd u v d Hu Hw.
  destruct (string_dec u a) as [Eua|Hua]; [destruct (string_dec v b) as [Evb|Hvb]|].
  - subst u v. exists dist. split; [exact Hd|].
    split; [apply write_pair_forward | apply write_pair_backward].
  - destruct (string_dec u b) as [Eub|Hub]; [destruct (string_dec v a) as [Eva|Hva]|].
    + exfalso. congruence.
    + rewrite write_pair_elsewhere in Hu by congruence.
      destruct (HG _ _ _ Hu Hw) as (x & Hx & L1 & L2).
      exists x. split; [exact Hx|]. unfold walk_link in *.
      rewrite !write_pair_elsewhere by congruence. auto.
    + rewrite write_pair_elsewhere in Hu by congruence.
      destruct (HG _ _ _ Hu Hw) as (x & Hx & L1 & L2).
      exists x. split; [exact Hx|]. unfold walk_link in *.
      rewrite !write_pair_elsewhere by congruence. auto.
  - destruct (string_dec u b) as [Eub|Hub]; [destruct (string_dec v a) as [Eva|Hva]|].
    + subst u v. exists dist. split; [exact Hd|].
      split; [apply write_pair_backward | apply write_pair_forward].
    + rewrite write_pair_elsewhere in Hu by congruence.
      destruct (HG _ _ _ Hu Hw) as (x & Hx & L1 & L2).
      exists x. split; [exact Hx|]. unfold walk_link in *.
      rewrite !write_pair_elsewhere by congruence. auto.
    + rewrite write_pair_elsewhere in Hu by congruence.
      destruct (HG _ _ _ Hu Hw) as (x & Hx & L1 & L2).
      exists x. split; [exact Hx|]. unfold walk_link in *.
      rewrite !write_pair_elsewhere by congruence. auto.
Qed.

Lemma write_pair_ok G a b dist :
  graph_ok G ->
  graph_ok (PtToPt._add_walking_edge (PtToPt._add_walking_edge G a b dist) b a dist).
Proof. intros H. unfold PtToPt._add_walking_edge. now repeat apply graph_ok_add_edge. Qed.

Section Connector.
Variables (geo : Geometry) (max : Q).

Lemma visit_keeps (P : DiGraph -> Prop) node_ids coords i node_id ci st j st' :
  (forall G a b dist, dist <= max -> P G ->
     P (PtToPt._add_walking_edge (PtToPt._add_walking_edge G a b dist) b a dist)) ->
  P (PtToPt.ls_graph st) ->
  PtToPt.visit geo max node_ids coords i node_id ci st j = Ok st' ->
  P (PtToPt.ls_graph st').
Proof.
  intros Hw HP. unfold PtToPt.visit.
  destruct (i =? j)%nat; [intros H; inversion H; subst; exact HP|].
  intros H.
  apply bind_ok in H. destruct H as (nb & _ & H).
  apply bind_ok in H. destruct H as (cj & _ & H).
  apply bind_ok in H. destruct H as (dist & _ & H).
  destruct (Qgtb dist max) eqn:Ed; [inversion H; subst; exact HP|].
  destruct (has_edge (PtToPt.ls_graph st) node_id nb);
    [inversion H; subst; exact HP|].
  inversion H; subst; simpl. apply Hw; [now apply Qgtb_false | exact HP].
Qed.

Lemma add_connections_keeps (P : DiGraph -> Prop) G node_ids coords G' s :
  (forall G a b dist, dist <= max -> P G ->
     P (PtToPt._add_walking_edge (PtToPt._add_walking_edge G a b dist) b a dist)) ->
  P G ->
  PtToPt.add_connections geo max G node_ids coords = Ok (G', s) ->
  P G'.
Proof.
  intros Hw HP. unfold PtToPt.add_connections. intros H.
  apply bind_ok in H. destruct H as (pts & _ & H).
  apply bind_ok in H. destruct H as (st & Hloop & H).
  inversion H; subst; clear H.
  revert Hloop.
  apply (for_each_invariant (fun st => P (PtToPt.ls_graph st))); [|exact HP].
  intros s0 [i node_id] s1 Hs0. unfold PtToPt.check_node; simpl.
  intros H. apply bind_ok in H. destruct H as (ci & _ & H). revert H.
  apply (for_each_invariant (fun st => P (PtToPt.ls_graph st))); [|exact Hs0].
  intros s2 j s3 Hs2. now apply visit_keeps.
Qed.

Lemma add_walking_edges_keeps (P : DiGraph -> Prop) G G' rep :
  (forall G a b dist, dist <= max -> P G ->
     P (PtToPt._add_walking_edge (PtToPt._add_walking_edge G a b dist) b a dist)) ->
  (forall G1, PtToPt.clear_walking_edges G = Ok G1 -> P G1) ->
  PtToPt.add_walking_edges geo max G = Ok (G', rep) ->
  P G'.
Proof.
  intros Hw Hc. unfold PtToPt.add_walking_edges. intros H.
  apply bind_ok in H. destruct H as (G1 & Hclear & H).
  destruct (List.length (PtToPt.extract_pt_nodes G1) =? 0)%nat.
  - inversion H; subst. now apply Hc.
  - apply bind_ok in H. destruct H as (ix & _ & H).
    apply bind_ok in H. destruct H as ([G2 s] & Hadd & H).
    inversion H; subst; simpl. eapply add_connections_keeps; eauto.
Qed.

(** After [add_walking_edges] every walking transfer edge is within the
    budget and matched by its reverse. *)
Lemma add_walking_edges_paired G G' rep :
  PtToPt.add_walking_edges geo max G = Ok (G', rep) -> paired_within max G'.
Proof.
  apply add_walking_edges_keeps.
  - intros g a b dist Hd Hg. now apply write_pair_paired.
  - intros G1 Hc u v d Hu Hw.
    rewrite (cleared_no_pt_walk _ _ Hc _ _ _ Hu) in Hw. discriminate.
Qed.

Lemma add_walking_edges_graph_ok G G' rep :
  graph_ok G -> PtToPt.add_walking_edges geo max G = Ok (G', rep) -> graph_ok G'.
Proof.
  intros Hok. apply add_walking_edges_keeps.
  - intros g a b dist _ Hg. now apply write_pair_ok.
  - intros G1 Hc. revert Hc. unfold PtToPt.clear_walking_edges.
    apply (for_each_invariant graph_ok); [|exact Hok].
    intros s [a b] s' Hs Hr. eapply graph_ok_remove_edge; eauto.
Qed.
End Connector.

(** *** The connector returns *)

Lemma for_each_total {A S : Type} (body : S -> A -> result S) (xs : list A) :
  (forall s x, In x xs -> exists s', body s x = Ok s') ->
  forall s, exists s', for_each body xs s = Ok s'.
Proof.
  induction xs as [|x xs IH]; simpl; intros H s; [eauto|].
  destruct (H s x (or_introl eq_refl)) as (s1 & ->). simpl.
  apply IH. intros; apply H; now right.
Qed.

Lemma In_enumerate {A : Type} (xs : list A) i x :
  In (i, x) (enumerate xs) -> (i < List.length xs)%nat.
Proof.
  unfold enumerate. intros H. apply in_combine_l in H. apply in_seq in H. lia.
Qed.

Lemma nth_error_defined {A : Type} (xs : list A) i :
  (i < List.length xs)%nat -> exists x, nth_error xs i = Some x /\ In x xs.
Proof.
  intros H. destruct (nth_error xs i) as [x|] eqn:E.
  - exists x. split; [reflexivity | eapply nth_error_In; eauto].
  - apply nth_error_None in E. lia.
Qed.

Lemma as_float_rows_length rows pts :
  as_float_rows rows = Some pts -> List.length pts = List.length rows.
Proof.
  revert pts. induction rows as [|[a b] r IH]; simpl; intros pts H.
  - inversion H; reflexivity.
  - destruct (as_float a), (as_float b), (as_float_rows r); try discriminate.
    inversion H; subst; simpl. f_equal. now apply IH.
Qed.

Lemma index_rows_spec pt_nodes :
  (forall nd, In nd pt_nodes ->
              Dict.mem "lat" (snd nd) && Dict.mem "lon" (snd nd) = true) ->
  PtToPt.index_rows pt_nodes
  = Ok (map fst pt_nodes,
        map (fun nd =>
               (match Dict.get "lat" (snd nd) with Some v => v | None => VNone end,
                match Dict.get "lon" (snd nd) with Some v => v | None => VNone end))
            pt_nodes).
Proof.
  induction pt_nodes as [|[n d] r IH]; simpl; intros H; [reflexivity|].
  pose proof (H (n, d) (or_introl eq_refl)) as Hk. simpl in Hk.
  apply andb_true_iff in Hk. unfold Dict.mem in Hk.
  destruct (Dict.get "lat" d), (Dict.get "lon" d); try (destruct Hk; discriminate).
  simpl. rewrite IH by (intros; apply H; now right). reflexivity.
Qed.

(** With coordinates that are numbers and a geometry that behaves on
    them, [add_connections] returns. *)
Lemma add_connections_total geo max G node_ids coords pts :
  KDTree coords = Ok pts ->
  List.length node_ids = List.length pts ->
  behaves_on geo pts ->
  exists G' s, PtToPt.add_connections geo max G node_ids coords = Ok (G', s).
Proof.
  intros Hk Hlen [Hq Hg]. unfold PtToPt.add_connections. rewrite Hk. simpl.
  destruct (for_each_total
              (PtToPt.check_node geo max node_ids pts (PtToPt.search_radius geo max pts))
              (enumerate node_ids)) with (s := PtToPt.mkLoop G (mkStats 0 0 0 0 0) [])
    as (st & ->); [|simpl; eauto].
  intros s [i node_id] Hi. apply In_enumerate in Hi. rewrite Hlen in Hi.
  destruct (nth_error_defined pts i Hi) as (ci & Hci & Hin).
  unfold PtToPt.check_node; simpl. rewrite Hci. simpl.
  apply for_each_total. intros s' j Hj. apply Hq in Hj.
  destruct (nth_error_defined pts j Hj) as (cj & Hcj & Hinj).
  assert (Hj' : (j < List.length node_ids)%nat) by lia.
  destruct (nth_error_defined node_ids j Hj') as (nb & Hnb & _).
  destruct (Hg ci cj Hin Hinj) as (d & Hd).
  unfold PtToPt.visit. destruct (i =? j)%nat; [eauto|].
  rewrite Hnb, Hcj. simpl. rewrite Hd. simpl.
  destruct (Qgtb d max); [eauto|].
  destruct (has_edge (PtToPt.ls_graph s') node_id nb); eauto.
Qed.

(** On a well-formed graph whose stop coordinates are numbers, and with a
    geometry that behaves on them, [add_walking_edges] returns. *)
Lemma add_walking_edges_total geo max G pts :
  wf_graph G = true ->
  as_float_rows (stop_rows G) = Some pts ->
  behaves_on geo pts ->
  exists G' rep, PtToPt.add_walking_edges geo max G = Ok (G', rep).
Proof.
  intros Hwf Hrows Hgeo.
  destruct (clear_walking_edges_spec G (wf_graph_ok _ Hwf)) as (G1 & Hc & _ & Hn & _).
  unfold PtToPt.add_walking_edges. rewrite Hc. simpl.
  assert (Hx : PtToPt.extract_pt_nodes G1 = PtToPt.extract_pt_nodes G).
  { unfold PtToPt.extract_pt_nodes, nodes. now rewrite Hn. }
  rewrite Hx.
  destruct (PtToPt.extract_pt_nodes G) as [|nd0 rest] eqn:Ex; [simpl; eauto|].
  simpl List.length. cbn [Nat.eqb].
  unfold PtToPt.build_spatial_index.
  rewrite index_rows_spec.
  - fold (stop_rows G) in *. unfold stop_rows in Hrows. rewrite Ex in Hrows.
    cbn [bind snd fst].
    assert (Hk : KDTree (map
                  (fun nd =>
                     (match Dict.get "lat" (snd nd) with Some v => v | None => VNone end,
                      match Dict.get "lon" (snd nd) with Some v => v | None => VNone end))
                  (nd0 :: rest)) = Ok pts).
    { unfold KDTree. cbn [map]. cbn [map] in Hrows. now rewrite Hrows. }
    rewrite Hk. cbn [bind fst snd].
    destruct (add_connections_total geo max G1 (map fst (nd0 :: rest)) _ pts Hk)
      as (G' & s & Hadd); [|exact Hgeo|].
    + apply as_float_rows_length in Hrows. rewrite Hrows, !length_map. reflexivity.
    + exists G', (StatsReport s).
      refine (eq_trans (f_equal (fun r => bind r _) Hadd) _). reflexivity.
  - intros nd Hnd. rewrite <- Ex in Hnd. unfold PtToPt.extract_pt_nodes in Hnd.
    apply filter_In in Hnd. tauto.
Qed.

Lemma grid_geometry_behaves pts : behaves_on grid_geometry pts.
Proof.
  split.
  - intros x r j Hj. simpl in Hj. unfold scan_ball in Hj.
    apply in_map_iff in Hj. destruct Hj as ([j' p] & E & Hj). simpl in E. subst j'.
    apply filter_In in Hj. destruct Hj as [Hj _]. now apply In_enumerate in Hj.
  - intros a b _ _. eexists. reflexivity.
Qed.

(** ** graph_integration/merge_graphs.py *)

Lemma graph_ok_add_edges_from es : forall G, graph_ok G -> graph_ok (add_edges_from G es).
Proof.
  intros G. unfold add_edges_from. apply fold_left_invariant.
  intros; now apply graph_ok_add_edge.
Qed.

(** An edge list that does not mention a pair leaves the pair alone. *)
Lemma add_edges_from_untouched es : forall G u v,
  ~ In (u, v) (map fst es) ->
  edge_data (add_edges_from G es) u v = edge_data G u v.
Proof.
  unfold add_edges_from.
  induction es as [|[[a b] d] es IH]; simpl; intros G u v H; [reflexivity|].
  rewrite IH by tauto. apply edge_data_add_edge_other. intros E. apply H. now left.
Qed.

(** An edge list that mentions a pair once merges its data into the pair. *)
Lemma add_edges_from_once es1 es2 G u v d :
  ~ In (u, v) (map fst es1) -> ~ In (u, v) (map fst es2) ->
  edge_data (add_edges_from G (es1 ++ (u, v, d) :: es2)) u v =
  Some (Dict.update (match edge_data G u v with Some o => o | None => [] end) d).
Proof.
  intros H1 H2. unfold add_edges_from. rewrite fold_left_app. simpl.
  fold (add_edges_from G es1).
  fold (add_edges_from (add_edge (add_edges_from G es1) u v d) es2).
  rewrite add_edges_from_untouched by exact H2.
  rewrite edge_data_add_edge_same.
  now rewrite add_edges_from_untouched by exact H1.
Qed.

Lemma NoDup_map_split {A B : Type} (f : A -> B) (l : list A) (x : A) :
  NoDup (map f l) -> In x l ->
  exists l1 l2, l = l1 ++ x :: l2 /\ ~ In (f x) (map f l1) /\ ~ In (f x) (map f l2).
Proof.
  intros Hnd Hin. apply in_split in Hin. destruct Hin as (l1 & l2 & ->).
  exists l1, l2. split; [reflexivity|].
  rewrite map_app in Hnd. simpl in Hnd.
  pose proof (NoDup_remove_2 _ _ _ Hnd) as Hx.
  split; intros X; apply Hx; apply in_or_app; auto.
Qed.

(** Copying a well-formed PT graph into the empty graph gives back the
    same edges with the same data. *)
Lemma edge_data_add_pt_network G_pt u v :
  graph_ok G_pt -> edge_data (Merge.add_pt_network G_pt) u v = edge_data G_pt u v.
Proof.
  intros Hok. unfold Merge.add_pt_network.
  destruct (edge_data G_pt u v) as [d|] eqn:E.
  - pose proof (edge_data_In_edges _ _ _ _ E) as Hin.
    destruct (NoDup_map_split fst _ _ (NoDup_edge_pairs _ Hok) Hin)
      as (es1 & es2 & Es & H1 & H2).
    rewrite Es, add_edges_from_once by assumption.
    rewrite edge_data_add_nodes_from by apply graph_ok_empty.
    simpl. f_equal. apply update_nil.
    destruct Hok as (_ & _ & H3 & _). apply (H3 _ _ _ E).
  - rewrite add_edges_from_untouched;
      [now rewrite edge_data_add_nodes_from by apply graph_ok_empty|].
    intros X. apply in_map_iff in X. destruct X as ([[a b] d] & Eab & X).
    simpl in Eab. inversion Eab; subst.
    apply (In_edges_edge_data _ _ _ _ Hok) in X. congruence.
Qed.

(** Adding an edge that was absent keeps every edge there was. *)
Lemma add_absent_keeps g a b data x y d :
  has_edge g a b = false ->
  edge_data g x y = Some d -> edge_data (add_edge g a b data) x y = Some d.
Proof.
  intros Hab Hxy. rewrite edge_data_add_edge_other; [exact Hxy|].
  intros E; inversion E; subst. rewrite has_edge_edge_data, Hxy in Hab. discriminate.
Qed.

Lemma backfill_walking_keeps G_pt g x y d :
  edge_data g x y = Some d -> edge_data (Merge.backfill_walking G_pt g) x y = Some d.
Proof.
  unfold Merge.backfill_walking.
  apply (fold_left_invariant (fun g => edge_data g x y = Some d)).
  intros s [[a b] da] Hs; simpl.
  destruct (is_pt_walk da); simpl; [|exact Hs].
  destruct (has_edge s b a) eqn:E; simpl; [exact Hs|].
  now apply add_absent_keeps.
Qed.

Lemma backfill_transport_keeps g x y d :
  edge_data g x y = Some d -> edge_data (Merge.backfill_transport g) x y = Some d.
Proof.
  unfold Merge.backfill_transport.
  apply (fold_left_invariant (fun g => edge_data g x y = Some d)).
  intros s u Hs.
  apply (fold_left_invariant (fun g => edge_data g x y = Some d)); [|exact Hs].
  intros s' [v da] Hs'; simpl.
  destruct (Merge.is_transport da); simpl; [|exact Hs'].
  destruct (has_edge s' v u) eqn:E; simpl; [exact Hs'|].
  now apply add_absent_keeps.
Qed.

(** The walking backfill writes only reverses of the edges it runs over. *)
Lemma backfill_walking_untouched es : forall g u v,
  ~ In (u, v) (map fst es) ->
  edge_data
    (fold_left
       (fun g e =>
          if is_pt_walk (snd e) && negb (has_edge g (snd (fst e)) (fst (fst e)))
          then add_edge g (snd (fst e)) (fst (fst e)) (snd e) else g) es g) v u
  = edge_data g v u.
Proof.
  induction es as [|[[a b] d] es IH]; simpl; intros g u v H; [reflexivity|].
  rewrite IH by tauto.
  destruct (is_pt_walk d && negb (has_edge g b a)); [|reflexivity].
  apply edge_data_add_edge_other. intros E; inversion E; subst. apply H. now left.
Qed.

(** Pass 1 of the merge: a walking transfer edge of the PT graph whose
    reverse is missing gets a reverse carrying the same data. *)
Lemma backfill_walking_adds G_pt u v d :
  graph_ok G_pt ->
  edge_data G_pt u v = Some d -> is_pt_walk d = true -> edge_data G_pt v u = None ->
  edge_data (Merge.backfill_walking G_pt (Merge.add_pt_network G_pt)) v u = Some d.
Proof.
  intros Hok E Hw Hrev.
  pose proof (edge_data_In_edges _ _ _ _ E) as Hin.
  destruct (NoDup_map_split fst _ _ (NoDup_edge_pairs _ Hok) Hin)
    as (es1 & es2 & Es & H1 & H2).
  unfold Merge.backfill_walking. rewrite Es, fold_left_app. simpl.
  set (g1 := fold_left _ es1 _).
  assert (Hg1 : edge_data g1 v u = None).
  { unfold g1.
    rewrite (backfill_walking_untouched es1 _ u v H1).
    now rewrite edge_data_add_pt_network. }
  rewrite Hw, has_edge_edge_data, Hg1. simpl.
  apply (fold_left_invariant (fun g => edge_data g v u = Some d)).
  - intros s [[a b] da] Hs; simpl.
    destruct (is_pt_walk da); simpl; [|exact Hs].
    destruct (has_edge s b a) eqn:Eh; simpl; [exact Hs|].
    now apply add_absent_keeps.
  - rewrite edge_data_add_edge_same, Hg1. f_equal. apply update_nil.
    destruct Hok as (_ & _ & H3 & _). apply (H3 _ _ _ E).
Qed.

Lemma add_connection_edges_untouched conns : forall g u v,
  (forall c, In c conns -> (road_node c, station_id c) <> (u, v)) ->
  edge_data (Merge.add_connection_edges conns g) u v = edge_data g u v.
Proof.
  unfold Merge.add_connection_edges.
  induction conns as [|c conns IH]; simpl; intros g u v H; [reflexivity|].
  rewrite IH by (intros; apply H; now right).
  apply edge_data_add_edge_other. apply H. now left.
Qed.

(** The last connection given for a pair decides the data of its edge. *)
Lemma add_connection_edges_last l1 c l2 g :
  (forall x, In x l2 -> (road_node x, station_id x) <> (road_node c, station_id c)) ->
  exists old,
    edge_data (Merge.add_connection_edges (l1 ++ c :: l2) g) (road_node c) (station_id c)
    = Some (Dict.update old (Merge.connection_edge_attrs c)).
Proof.
  intros H. unfold Merge.add_connection_edges. rewrite fold_left_app. simpl.
  set (g1 := fold_left _ l1 g).
  fold (Merge.add_connection_edges l2
          (add_edge g1 (road_node c) (station_id c) (Merge.connection_edge_attrs c))).
  rewrite add_connection_edges_untouched by exact H.
  rewrite edge_data_add_edge_same. eexists. reflexivity.
Qed.

Lemma connection_attrs_written old c :
  let d := Dict.update old (Merge.connection_edge_attrs c) in
  Dict.get "mode" d = Some (VStr "walk")
  /\ Dict.get "edge_type" d = Some (VStr "car_to_pt_transfer")
  /\ Dict.get "distance" d = Some (VNum (distance c))
  /\ Dict.get "time" d = Some (VNum (walk_time c))
  /\ Dict.get "emissions" d = Some (VNum 0).
Proof.
  cbv zeta. rewrite !get_update. simpl. repeat split; reflexivity.
Qed.

(** Among the connections of a list that share a pair, one comes last. *)
Lemma last_for_pair (conns : list Connection) (c : Connection) :
  In c conns ->
  exists l1 c' l2,
    conns = l1 ++ c' :: l2
    /\ (road_node c', station_id c') = (road_node c, station_id c)
    /\ forall x, In x l2 -> (road_node x, station_id x) <> (road_node c, station_id c).
Proof.
  induction conns as [|a conns IH] using rev_ind; [intros []|].
  intros Hin.
  destruct (string_dec (road_node a) (road_node c)) as [Er|Nr];
    [destruct (string_dec (station_id a) (station_id c)) as [Es|Ns]|].
  - exists conns, a, []. split; [reflexivity|]. split; [congruence|]. intros x [].
  - apply in_app_or in Hin. destruct Hin as [Hin|[->|[]]]; [|congruence].
    destruct (IH Hin) as (l1 & c' & l2 & -> & Hp & Hl).
    exists l1, c', (l2 ++ [a]). split; [now rewrite <- app_assoc|]. split; [exact Hp|].
    intros x Hx. apply in_app_or in Hx. destruct Hx as [Hx|[<-|[]]]; [auto | congruence].
  - apply in_app_or in Hin. destruct Hin as [Hin|[->|[]]]; [|congruence].
    destruct (IH Hin) as (l1 & c' & l2 & -> & Hp & Hl).
    exists l1, c', (l2 ++ [a]). split; [now rewrite <- app_assoc|]. split; [exact Hp|].
    intros x Hx. apply in_app_or in Hx. destruct Hx as [Hx|[<-|[]]]; [auto | congruence].
Qed.

(** The combined graph is built from the empty graph by [add_node] and
    [add_edge] alone, so it is well formed whatever the inputs are. *)
Lemma graph_ok_pt_stage G_pt :
  graph_ok (Merge.backfill_transport
              (Merge.backfill_walking G_pt (Merge.add_pt_network G_pt))).
Proof.
  unfold Merge.backfill_transport. apply fold_left_invariant.
  - intros s u Hs. apply fold_left_invariant; [|exact Hs].
    intros s' [v d] Hs'; simpl.
    destruct (Merge.is_transport d && negb (has_edge s' v u));
      [now apply graph_ok_add_edge | exact Hs'].
  - unfold Merge.backfill_walking. apply fold_left_invariant.
    + intros s [[a b] d] Hs; simpl.
      destruct (is_pt_walk d && negb (has_edge s b a));
        [now apply graph_ok_add_edge | exact Hs].
    + unfold Merge.add_pt_network.
      apply graph_ok_add_edges_from, graph_ok_add_nodes_from, graph_ok_empty.
Qed.

Lemma graph_ok_networks G_pt G_car : graph_ok (Merge.networks G_pt G_car).
Proof.
  unfold Merge.networks, Merge.add_car_network.
  apply graph_ok_add_edges_from, graph_ok_add_nodes_from, graph_ok_pt_stage.
Qed.


(** Under [apart], what the car network and the connections add never
    lands on a pair that starts at a PT node. *)
Lemma car_side_keeps G_pt G_car conns g x y :
  graph_ok g ->
  apart G_pt G_car conns = true ->
  Dict.mem x (node_ G_pt) = true ->
  edge_data (Merge.add_connection_edges conns (Merge.add_car_network G_car g)) x y
  = edge_data g x y.
Proof.
  intros Hg. unfold apart. rewrite andb_true_iff, !forallb_forall. intros [Hcar Hconn] Hx.
  rewrite add_connection_edges_untouched.
  - unfold Merge.add_car_network.
    rewrite add_edges_from_untouched; [now apply edge_data_add_nodes_from|].
    intros X. apply in_map_iff in X. destruct X as ([[a b] d] & E & X).
    simpl in E. inversion E; subst. apply Hcar in X. simpl in X.
    rewrite Hx in X. discriminate.
  - intros c Hc E. inversion E; subst. apply Hconn in Hc.
    rewrite Hx in Hc. discriminate.
Qed.

Lemma edge_source_is_node G u v d :
  graph_ok G -> edge_data G u v = Some d -> Dict.mem u (node_ G) = true.
Proof.
  intros (_ & _ & _ & H4) E. apply H4. unfold edge_data in E. unfold Dict.mem.
  destruct (Dict.get u (adj G)); [reflexivity | discriminate].
Qed.

Lemma edge_target_is_node G u v d :
  graph_ok G -> edge_data G u v = Some d -> Dict.mem v (node_ G) = true.
Proof.
  intros (_ & _ & H3 & H4) E. apply H4. apply (H3 _ _ _ E).
Qed.

(** The merge keeps every edge of the PT graph as it is. *)
Lemma merge_keeps_pt_edge G_pt G_car conns u v d :
  graph_ok G_pt -> apart G_pt G_car conns = true ->
  edge_data G_pt u v = Some d ->
  edge_data (Merge.create_combined_graph G_pt G_car conns) u v = Some d.
Proof.
  intros Hok Hap E. unfold Merge.create_combined_graph, Merge.networks.
  rewrite (car_side_keeps G_pt) by eauto using edge_source_is_node, graph_ok_pt_stage.
  apply backfill_transport_keeps, backfill_walking_keeps.
  now rewrite edge_data_add_pt_network.
Qed.

(** The merge gives a walking transfer edge the reverse it lacks. *)
Lemma merge_backfills_reverse G_pt G_car conns u v d :
  graph_ok G_pt -> apart G_pt G_car conns = true ->
  edge_data G_pt u v = Some d -> is_pt_walk d = true -> edge_data G_pt v u = None ->
  edge_data (Merge.create_combined_graph G_pt G_car conns) v u = Some d.
Proof.
  intros Hok Hap E Hw Hrev. unfold Merge.create_combined_graph, Merge.networks.
  rewrite (car_side_keeps G_pt) by eauto using edge_target_is_node, graph_ok_pt_stage.
  apply backfill_transport_keeps. now apply backfill_walking_adds.
Qed.

Lemma walk_link_merged G_pt G_car conns u v dist :
  graph_ok G_pt -> apart G_pt G_car conns = true ->
  walk_link G_pt u v dist ->
  walk_link (Merge.create_combined_graph G_pt G_car conns) u v dist.
Proof.
  intros Hok Hap (d & E & H). exists d. split; [|exact H].
  now apply merge_keeps_pt_edge.
Qed.

(* ===================================================================== *)
(** * Part III. The claims                                                *)
(* ===================================================================== *)

(** C1. After the PT-to-PT connector has run, every walking transfer edge
    (u, v) has its reverse (v, u) with the same distance, time and
    emissions, where time is distance / walking speed and emissions are 0.
    The pairing carries over to the merged graph when the car side is kept
    apart from the PT identifiers, and the merge itself supplies the reverse
    of a walking transfer edge of any PT graph that lacks it. *)
Theorem pt_transfer_edges_paired geo max G G1 rep :
  wf_graph G = true ->
  PtToPt.add_walking_edges geo max G = Ok (G1, rep) ->
  (forall u v d,
      edge_data G1 u v = Some d -> is_pt_walk d = true ->
      exists dist, walk_link G1 u v dist /\ walk_link G1 v u dist)
  /\ (forall G_car conns u v d,
      apart G1 G_car conns = true ->
      edge_data G1 u v = Some d -> is_pt_walk d = true ->
      exists dist,
        walk_link (Merge.create_combined_graph G1 G_car conns) u v dist
        /\ walk_link (Merge.create_combined_graph G1 G_car conns) v u dist)
  /\ (forall G_pt G_car conns u v d,
      wf_graph G_pt = true -> apart G_pt G_car conns = true ->
      edge_data G_pt u v = Some d -> is_pt_walk d = true ->
      edge_data G_pt v u = None ->
      edge_data (Merge.create_combined_graph G_pt G_car conns) u v = Some d
      /\ edge_data (Merge.create_combined_graph G_pt G_car conns) v u = Some d).
Proof.
  intros Hwf Hrun.
  pose proof (add_walking_edges_paired _ _ _ _ _ Hrun) as Hp.
  pose proof (add_walking_edges_graph_ok _ _ _ _ _ (wf_graph_ok _ Hwf) Hrun) as Hok.
  split; [|split].
  - intros u v d E Hw. destruct (Hp _ _ _ E Hw) as (dist & _ & L1 & L2). eauto.
  - intros G_car conns u v d Hap E Hw.
    destruct (Hp _ _ _ E Hw) as (dist & _ & L1 & L2).
    exists dist. split; now apply walk_link_merged.
  - intros G_pt G_car conns u v d Hwf' Hap E Hw Hrev.
    apply wf_graph_ok in Hwf'. split.
    + now apply merge_keeps_pt_edge.
    + now apply merge_backfills_reverse.
Qed.

(** ** connections/car_to_pt.py: the nearest road node *)

Section Nearest.
Variables (geo : Geometry) (max : Q).

Lemma scan_within road_nodes road_coords sc best idx best' :
  within_budget max best ->
  CarToPt.scan geo max road_nodes road_coords sc best idx = Ok best' ->
  within_budget max best'.
Proof.
  intros Hb. unfold CarToPt.scan. intros H.
  apply bind_ok in H. destruct H as (r & _ & H).
  apply bind_ok in H. destruct H as (rc & _ & H).
  apply bind_ok in H. destruct H as (d & _ & H).
  destruct (CarToPt.below d best && Qle_bool d max) eqn:E.
  - inversion H; subst. intros r' m X; inversion X; subst.
    apply andb_true_iff in E. now apply Qle_bool_iff.
  - inversion H; subst. exact Hb.
Qed.

Lemma closest_within road_nodes road_coords sc indices best :
  CarToPt.closest geo max road_nodes road_coords sc indices = Ok best ->
  within_budget max best.
Proof.
  unfold CarToPt.closest. apply (for_each_invariant (within_budget max)).
  - intros; eapply scan_within; eauto.
  - intros r m X; discriminate.
Qed.

Lemma connect_station_within G_car road_nodes road_coords t station t' :
  Forall (fun c => distance c <= max) (CarToPt.connections t) ->
  CarToPt.connect_station geo max G_car road_nodes road_coords t station = Ok t' ->
  Forall (fun c => distance c <= max) (CarToPt.connections t').
Proof.
  intros Ht. unfold CarToPt.connect_station.
  destruct (query_ball_point geo road_coords _ _) as [|i0 is0];
    [intros H; inversion H; subst; exact Ht|].
  intros H. apply bind_ok in H. destruct H as (best & Hbest & H).
  apply closest_within in Hbest.
  destruct best as [[r m]|]; [|inversion H; subst; exact Ht].
  destruct (r =? "")%string; [inversion H; subst; exact Ht|].
  apply bind_ok in H. destruct H as (rd & _ & H).
  apply bind_ok in H. destruct H as (rlat & _ & H).
  apply bind_ok in H. destruct H as (rlon & _ & H).
  inversion H; subst; simpl.
  apply Forall_app. split; [exact Ht|]. constructor; [|constructor].
  simpl. now apply (Hbest r m).
Qed.

Lemma find_connections_within G_car road_nodes road_coords stations conns :
  CarToPt.find_connections geo max G_car road_nodes road_coords stations = Ok conns ->
  Forall (fun c => distance c <= max) conns.
Proof.
  unfold CarToPt.find_connections. intros H.
  apply bind_ok in H. destruct H as (t & Hloop & H).
  destruct (CarToPt.stations_connected t =? 0)%nat; [discriminate|].
  inversion H; subst. revert Hloop.
  apply (for_each_invariant
           (fun t => Forall (fun c => distance c <= max) (CarToPt.connections t))).
  - intros; eapply connect_station_within; eauto.
  - constructor.
Qed.
End Nearest.

Lemma for_each_app {A S : Type} (body : S -> A -> result S) (xs ys : list A) (s : S) :
  for_each body (xs ++ ys) s = (s' <- for_each body xs s ;; for_each body ys s').
Proof.
  revert s. induction xs as [|x xs IH]; simpl; intros s; [reflexivity|].
  destruct (body s x); simpl; [apply IH | reflexivity].
Qed.

Lemma Qltb_true x y : Qltb x y = true -> x < y.
Proof.
  unfold Qltb. intros H. apply negb_true_iff in H. apply Qnot_le_lt.
  intros X. apply Qle_bool_iff in X. congruence.
Qed.

Lemma Qltb_false x y : Qltb x y = false -> y <= x.
Proof.
  unfold Qltb. intros H. apply negb_false_iff in H. now apply Qle_bool_iff.
Qed.

Section NearestCandidate.
Variables (geo : Geometry) (max : Q).
Variables (road_nodes : list node) (road_coords : list coord) (station_coord : coord).

(** The loop of [find_connections] keeps the first candidate of least
    distance among those within the budget: candidates met before it are
    strictly further, candidates met after it are not nearer; it keeps
    nothing only if no candidate is within the budget. *)
Lemma closest_first_minimal indices best :
  CarToPt.closest geo max road_nodes road_coords station_coord indices = Ok best ->
  match best with
  | Some (r, m) =>
      exists pre idx post,
        indices = pre ++ idx :: post
        /\ nth_error road_nodes idx = Some r
        /\ candidate_at geo road_coords station_coord idx m
        /\ m <= max
        /\ (forall i d, In i pre -> candidate_at geo road_coords station_coord i d -> d <= max -> m < d)
        /\ (forall i d, In i post -> candidate_at geo road_coords station_coord i d -> d <= max -> m <= d)
  | None => forall i d, In i indices -> candidate_at geo road_coords station_coord i d -> ~ d <= max
  end.
Proof.
  unfold CarToPt.closest. revert best.
  induction indices as [|x l IH] using rev_ind; intros best H.
  - simpl in H. inversion H; subst. intros i d [].
  - rewrite for_each_app in H. apply bind_ok in H. destruct H as (b1 & Hl & Hx).
    specialize (IH _ Hl). simpl in Hx. apply bind_ok in Hx. destruct Hx as (b2 & Hx & E).
    inversion E; subst; clear E. unfold CarToPt.scan in Hx.
    apply bind_ok in Hx. destruct Hx as (rx & Hrx & Hx).
    apply bind_ok in Hx. destruct Hx as (cx & Hcx & Hx).
    apply bind_ok in Hx. destruct Hx as (dx & Hdx & Hx).
    assert (Hat : candidate_at geo road_coords station_coord x dx).
    { exists cx. split.
      - destruct (nth_error road_coords x); [now inversion Hcx | discriminate].
      - exact Hdx. }
    assert (Huniq : forall d, candidate_at geo road_coords station_coord x d -> d = dx).
    { intros d (c & Hc & Hd). destruct Hat as (c' & Hc' & Hd'). congruence. }
    destruct (CarToPt.below dx b1 && Qle_bool dx max) eqn:Ecmp.
    + inversion Hx; subst; clear Hx.
      apply andb_true_iff in Ecmp. destruct Ecmp as [Hbelow Hle].
      apply Qle_bool_iff in Hle.
      exists l, x, []. split; [reflexivity|]. split.
      { destruct (nth_error road_nodes x); [now inversion Hrx | discriminate]. }
      split; [exact Hat|]. split; [exact Hle|]. split; [|intros i d []].
      intros i d Hi Hd Hdm. destruct b1 as [[r1 m1]|].
      * simpl in Hbelow. apply Qltb_true in Hbelow.
        destruct IH as (pre & idx & post & El & _ & Hidx & _ & Hpre & Hpost).
        subst l. apply in_app_or in Hi. destruct Hi as [Hi|[<-|Hi]].
        -- pose proof (Hpre _ _ Hi Hd Hdm). lra.
        -- destruct Hidx as (c1 & Hc1 & Hd1). destruct Hd as (c2 & Hc2 & Hd2).
           assert (d = m1) by congruence. subst. exact Hbelow.
        -- pose proof (Hpost _ _ Hi Hd Hdm). lra.
      * exfalso. exact (IH _ _ Hi Hd Hdm).
    + inversion Hx; subst; clear Hx. destruct best as [[r1 m1]|].
      * destruct IH as (pre & idx & post & El & Hr & Hidx & Hm & Hpre & Hpost).
        exists pre, idx, (post ++ [x]). split; [subst l; now rewrite <- app_assoc|].
        split; [exact Hr|]. split; [exact Hidx|]. split; [exact Hm|].
        split; [exact Hpre|].
        intros i d Hi Hd Hdm. apply in_app_or in Hi. destruct Hi as [Hi|[<-|[]]].
        -- now apply (Hpost i d).
        -- apply Huniq in Hd. subst d. simpl in Ecmp.
           apply andb_false_iff in Ecmp. destruct Ecmp as [E|E].
           ++ now apply Qltb_false.
           ++ exfalso. apply Qle_bool_iff in Hdm. congruence.
      * intros i d Hi Hd Hdm. apply in_app_or in Hi. destruct Hi as [Hi|[<-|[]]].
        -- exact (IH _ _ Hi Hd Hdm).
        -- apply Huniq in Hd. subst d. simpl in Ecmp.
           apply Qle_bool_iff in Hdm. congruence.
Qed.

(** A station adds at most one connection: none, and it is counted as too
    far; or one, for the road node and distance the loop kept, with
    walk_time = distance / walking speed. *)
Lemma connect_station_outcome G_car t station t' :
  CarToPt.connect_station geo max G_car road_nodes road_coords t station = Ok t' ->
  (CarToPt.connections t' = CarToPt.connections t
   /\ CarToPt.stations_connected t' = CarToPt.stations_connected t
   /\ CarToPt.stations_too_far t' = S (CarToPt.stations_too_far t))
  \/ (exists c,
        CarToPt.connections t' = CarToPt.connections t ++ [c]
        /\ CarToPt.stations_connected t' = S (CarToPt.stations_connected t)
        /\ CarToPt.stations_too_far t' = CarToPt.stations_too_far t
        /\ station_id c = st_id station
        /\ walk_time c = distance c / WALKING_SPEED
        /\ CarToPt.closest geo max road_nodes road_coords
             (st_lat station, st_lon station)
             (query_ball_point geo road_coords (st_lat station, st_lon station)
                               (max / 111320))
           = Ok (Some (road_node c, distance c))).
Proof.
  unfold CarToPt.connect_station.
  destruct (query_ball_point geo road_coords _ _) as [|i0 is0] eqn:Eq;
    [intros H; inversion H; subst; left; auto|].
  intros H. apply bind_ok in H. destruct H as (best & Hbest & H).
  destruct best as [[r m]|]; [|inversion H; subst; left; auto].
  destruct (r =? "")%string; [inversion H; subst; left; auto|].
  apply bind_ok in H. destruct H as (rd & _ & H).
  apply bind_ok in H. destruct H as (rlat & _ & H).
  apply bind_ok in H. destruct H as (rlon & _ & H).
  inversion H; subst; simpl. right. eexists. repeat split; simpl. exact Hbest.
Qed.
End NearestCandidate.

(** C9. Every edge the two connectors generate respects the configured
    walking-distance budget [max] (by default MAX_WALKING_DISTANCE_M): every
    connection returned by the Car-to-PT connector, and every walking
    transfer edge in the graph the PT-to-PT connector leaves, has
    distance <= max. *)
Theorem walking_budget_respected geo max :
  (forall G_car road_nodes road_coords stations conns c,
      CarToPt.find_connections geo max G_car road_nodes road_coords stations = Ok conns ->
      In c conns -> distance c <= max)
  /\ (forall G G' rep u v d,
      PtToPt.add_walking_edges geo max G = Ok (G', rep) ->
      edge_data G' u v = Some d -> is_pt_walk d = true ->
      exists dist, Dict.get "distance" d = Some (VNum dist) /\ dist <= max).
Proof.
  split.
  - intros G_car road_nodes road_coords stations conns c H Hc.
    apply find_connections_within in H. rewrite Forall_forall in H. now apply H.
  - intros G G' rep u v d H E Hw.
    destruct (add_walking_edges_paired _ _ _ _ _ H _ _ _ E Hw)
      as (dist & Hd & (d' & E' & _ & Hdist & _) & _).
    exists dist. split; [|exact Hd]. congruence.
Qed.

(** C7, as the code has it. When no node carries coordinates,
    [add_walking_edges] returns the "no_pt_nodes" report without raising and
    adds no edge; the nodes are untouched, and the edges are untouched
    except that every edge tagged mode=walk, edge_type=pt_transfer has
    been removed. *)
Theorem no_pt_nodes_only_clears geo max G :
  wf_graph G = true ->
  PtToPt.extract_pt_nodes G = [] ->
  exists G',
    PtToPt.add_walking_edges geo max G = Ok (G', ErrorNoPtNodes)
    /\ node_ G' = node_ G
    /\ forall u v,
         edge_data G' u v =
         match edge_data G u v with
         | Some d => if is_pt_walk d then None else Some d
         | None => None
         end.
Proof.
  intros Hwf Hnone.
  destruct (clear_walking_edges_spec G (wf_graph_ok _ Hwf)) as (G' & Hc & _ & Hn & He).
  exists G'. split; [|split; assumption].
  unfold PtToPt.add_walking_edges. rewrite Hc. simpl.
  unfold PtToPt.extract_pt_nodes, nodes in *. rewrite Hn, Hnone. reflexivity.
Qed.

Lemma NoDup_map_injective_in {A B : Type} (f : A -> B) (l : list A) x y :
  NoDup (map f l) -> In x l -> In y l -> f x = f y -> x = y.
Proof.
  induction l as [|a l IH]; simpl; [tauto|].
  intros Hnd Hx Hy E. inversion Hnd as [|? ? Ha Hl]; subst.
  destruct Hx as [->|Hx], Hy as [->|Hy]; auto.
  - exfalso. apply Ha. rewrite E. now apply in_map.
  - exfalso. apply Ha. rewrite <- E. now apply in_map.
Qed.








(** ** Worked runs of the PT-to-PT connector *)

Lemma Qgtb_le x y : x <= y -> Qgtb x y = false.
Proof.
  intros H. unfold Qgtb. apply negb_false_iff. now apply Qle_bool_iff.
Qed.

Ltac step_visit :=
  unfold PtToPt.visit at 1;
  cbn [Nat.eqb bind nth_error from_option
       PtToPt.ls_graph PtToPt.ls_stats PtToPt.ls_pairs].

Ltac step_node :=
  unfold PtToPt.check_node at 1;
  cbn [fst snd nth_error from_option bind].

Ltac decide_edge b :=
  match goal with
  | |- context [has_edge ?g ?u ?v] =>
      replace (has_edge g u v) with b by (vm_compute; reflexivity)
  end.

(** The two stops see each other and only [pt_B -> pt_A] exists: the visit
    from [pt_A] finds no edge [pt_A -> pt_B] and writes both directions; the
    visit from [pt_B] then finds its edge and skips. *)
Lemma two_stops_first_run geo d_ab d_ba :
  sees_two_stops geo MAX_WALKING_DISTANCE_M d_ab d_ba ->
  PtToPt.add_walking_edges geo MAX_WALKING_DISTANCE_M two_stops
  = Ok (walked_once d_ab, StatsReport (mkStats 2 1 2 1 0)).
Proof.
  intros (Hab & Hba & Lab & Lba & Qa & Qb).
  apply Qgtb_le in Lab, Lba.
  unfold PtToPt.add_walking_edges.
  replace (PtToPt.clear_walking_edges two_stops) with (Ok two_stops)
    by (vm_compute; reflexivity).
  cbn [bind].
  replace (PtToPt.extract_pt_nodes two_stops) with (nodes two_stops)
    by (vm_compute; reflexivity).
  cbn -[PtToPt.add_connections].
  unfold PtToPt.add_connections.
  change (KDTree [(VNum (-37.81), VNum 144.96); (VNum (-37.81), VNum 144.9605)])
    with (Ok [coord_A; coord_B]).
  cbn [bind].
  change (enumerate ["pt_A"; "pt_B"]) with [(0%nat, "pt_A"); (1%nat, "pt_B")].
  cbn [for_each].
  step_node. rewrite Qa. cbn [for_each].
  step_visit. step_visit. rewrite Hab. cbn [bind]. rewrite Lab.
  decide_edge false. cbn [bind].
  step_node. rewrite Qb. cbn [for_each].
  step_visit. rewrite Hba. cbn [bind]. rewrite Lba.
  decide_edge true. cbn [bind].
  step_visit. vm_compute. reflexivity.
Qed.

Lemma two_stops_second_run geo d_ab d_ba :
  sees_two_stops geo MAX_WALKING_DISTANCE_M d_ab d_ba ->
  PtToPt.add_walking_edges geo MAX_WALKING_DISTANCE_M (walked_once d_ab)
  = Ok (walked_twice d_ab, StatsReport (mkStats 2 1 2 1 0)).
Proof.
  intros (Hab & Hba & Lab & Lba & Qa & Qb).
  apply Qgtb_le in Lab, Lba.
  unfold PtToPt.add_walking_edges.
  replace (PtToPt.clear_walking_edges (walked_once d_ab))
    with (Ok (mkDiGraph (node_ two_stops) [("pt_A", []); ("pt_B", [])]))
    by (vm_compute; reflexivity).
  cbn [bind].
  replace (PtToPt.extract_pt_nodes (mkDiGraph (node_ two_stops) [("pt_A", []); ("pt_B", [])]))
    with (nodes two_stops) by (vm_compute; reflexivity).
  cbn -[PtToPt.add_connections].
  unfold PtToPt.add_connections.
  change (KDTree [(VNum (-37.81), VNum 144.96); (VNum (-37.81), VNum 144.9605)])
    with (Ok [coord_A; coord_B]).
  cbn [bind].
  change (enumerate ["pt_A"; "pt_B"]) with [(0%nat, "pt_A"); (1%nat, "pt_B")].
  cbn [for_each].
  step_node. rewrite Qa. cbn [for_each].
  step_visit. step_visit. rewrite Hab. cbn [bind]. rewrite Lab.
  decide_edge false. cbn [bind].
  step_node. rewrite Qb. cbn [for_each].
  step_visit. rewrite Hba. cbn [bind]. rewrite Lba.
  decide_edge true. cbn [bind].
  step_visit. vm_compute. reflexivity.
Qed.

(** The test before a write looks at one direction only: when the edge
    [node_id -> neighbor_id] is absent and the pair is within the budget,
    both directions are written, whatever [neighbor_id -> node_id] held. *)
Lemma visit_writes_both geo max node_ids coords i node_id ci st j neighbor_id cj dist :
  i <> j ->
  nth_error node_ids j = Some neighbor_id ->
  nth_error coords j = Some cj ->
  geodesic_m geo ci cj = Ok dist ->
  dist <= max ->
  has_edge (PtToPt.ls_graph st) node_id neighbor_id = false ->
  exists st',
    PtToPt.visit geo max node_ids coords i node_id ci st j = Ok st'
    /\ walk_link (PtToPt.ls_graph st') node_id neighbor_id dist
    /\ walk_link (PtToPt.ls_graph st') neighbor_id node_id dist
    /\ edges_added (PtToPt.ls_stats st') = (edges_added (PtToPt.ls_stats st) + 2)%nat.
Proof.
  intros Hij Hn Hc Hd Hle Hno. unfold PtToPt.visit.
  destruct (Nat.eqb_spec i j) as [E|_]; [contradiction|].
  rewrite Hn, Hc. simpl. rewrite Hd. simpl.
  rewrite (Qgtb_le _ _ Hle), Hno.
  eexists. split; [reflexivity|]. simpl.
  split; [apply write_pair_forward|]. split; [apply write_pair_backward | reflexivity].
Qed.

(** C3 on the code. The two stops are within the budget of each other and
    the graph already holds the train edge pt_B -> pt_A. The pair is not
    skipped: both walking edges are written, and the write lands on the
    train edge, whose mode, distance, time, emissions and edge_type are
    replaced. *)
Theorem existing_edge_overwritten geo d_ab d_ba :
  sees_two_stops geo MAX_WALKING_DISTANCE_M d_ab d_ba ->
  edge_data two_stops "pt_B" "pt_A" = Some train_edge
  /\ edge_data two_stops "pt_A" "pt_B" = None
  /\ PtToPt.add_walking_edges geo MAX_WALKING_DISTANCE_M two_stops
     = Ok (walked_once d_ab, StatsReport (mkStats 2 1 2 1 0))
  /\ walk_link (walked_once d_ab) "pt_A" "pt_B" d_ab
  /\ walk_link (walked_once d_ab) "pt_B" "pt_A" d_ab
  /\ edge_data (walked_once d_ab) "pt_B" "pt_A" <> Some train_edge.
Proof.
  intros H. split; [reflexivity|]. split; [reflexivity|].
  split; [now apply (two_stops_first_run geo d_ab d_ba)|].
  split; [|split].
  - eexists. split; [reflexivity|]. vm_compute. repeat split; reflexivity.
  - eexists. split; [reflexivity|]. vm_compute. repeat split; reflexivity.
  - vm_compute. discriminate.
Qed.

(** C5 on the code. On the same input a second run returns the same
    statistics as the first but not the same graph: after one run the edge
    pt_B -> pt_A still carries the route_type of the train edge it was
    written over, after two runs it does not. *)
Theorem second_run_changes_graph geo d_ab d_ba :
  sees_two_stops geo MAX_WALKING_DISTANCE_M d_ab d_ba ->
  PtToPt.add_walking_edges geo MAX_WALKING_DISTANCE_M two_stops
  = Ok (walked_once d_ab, StatsReport (mkStats 2 1 2 1 0))
  /\ PtToPt.add_walking_edges geo MAX_WALKING_DISTANCE_M (walked_once d_ab)
     = Ok (walked_twice d_ab, StatsReport (mkStats 2 1 2 1 0))
  /\ option_map (Dict.get "route_type") (edge_data (walked_once d_ab) "pt_B" "pt_A")
     = Some (Some (VNum 2))
  /\ option_map (Dict.get "route_type") (edge_data (walked_twice d_ab) "pt_B" "pt_A")
     = Some None
  /\ edges (walked_twice d_ab) <> edges (walked_once d_ab).
Proof.
  intros H.
  split; [now apply (two_stops_first_run geo d_ab d_ba)|].
  split; [now apply (two_stops_second_run geo d_ab d_ba)|].
  split; [reflexivity|]. split; [reflexivity|].
  vm_compute. discriminate.
Qed.

(** C4 on the code. In the scenario of the specification both road nodes
    have latitude 0, which [if lat and lon] takes for a missing value:
    neither is indexed, the KD-tree is built on no point at all, and no
    connection is produced. *)
Theorem scenario_road_nodes_dropped geo :
  CarToPt.road_rows scenario_roads = []
  /\ CarToPt.build_spatial_index scenario_roads = Raise ValueError
  /\ CarToPt.connect geo MAX_WALKING_DISTANCE_M scenario_roads [scenario_station]
     = Raise ValueError.
Proof. repeat split; reflexivity. Qed.

(** C10 on the code. Building the index raises when no road node has
    usable coordinates, and when a stop has the keys lat and lon with the
    value None. *)
Theorem index_build_raises geo max :
  CarToPt.road_rows unlocated_roads = []
  /\ CarToPt.build_spatial_index unlocated_roads = Raise ValueError
  /\ PtToPt.extract_pt_nodes stop_with_none = nodes stop_with_none
  /\ PtToPt.build_spatial_index (PtToPt.extract_pt_nodes stop_with_none)
     = Raise ValueError
  /\ PtToPt.add_walking_edges geo max stop_with_none = Raise ValueError.
Proof. repeat split; reflexivity. Qed.

(** C7 fails as stated: no node has coordinates, the report is
    "no_pt_nodes", and the walking edge pt_X -> pt_Y has been removed. *)
Lemma no_pt_nodes_after_clearing :
  PtToPt.extract_pt_nodes stale_walk = []
  /\ has_edge stale_walk "pt_X" "pt_Y" = true
  /\ PtToPt.add_walking_edges grid_geometry MAX_WALKING_DISTANCE_M stale_walk
     = Ok (stale_walk_cleared, ErrorNoPtNodes)
  /\ has_edge stale_walk_cleared "pt_X" "pt_Y" = false
  /\ stale_walk_cleared <> stale_walk.
Proof.
  split; [reflexivity|]. split; [reflexivity|]. split; [vm_compute; reflexivity|].
  split; [reflexivity|]. vm_compute. discriminate.
Qed.

(** ** The theorems at work on the worked inputs *)

Lemma sees_two_stops_grid :
  sees_two_stops grid_geometry MAX_WALKING_DISTANCE_M grid_AB grid_AB.
Proof.
  unfold sees_two_stops.
  split; [vm_compute; reflexivity|]. split; [vm_compute; reflexivity|].
  split; [vm_compute; discriminate|]. split; [vm_compute; discriminate|].
  split; vm_compute; reflexivity.
Defined.

Lemma pt_transfer_edges_paired_witness :
  wf_graph two_stops = true
  /\ PtToPt.add_walking_edges grid_geometry MAX_WALKING_DISTANCE_M two_stops
     = Ok (walked_once grid_AB, StatsReport (mkStats 2 1 2 1 0))
  /\ (exists dist,
        walk_link (walked_once grid_AB) "pt_A" "pt_B" dist
        /\ walk_link (walked_once grid_AB) "pt_B" "pt_A" dist)
  /\ (exists dist,
        walk_link (Merge.create_combined_graph (walked_once grid_AB) plain_roads
                                               [link_to_A]) "pt_A" "pt_B" dist
        /\ walk_link (Merge.create_combined_graph (walked_once grid_AB) plain_roads
                                                  [link_to_A]) "pt_B" "pt_A" dist)
  /\ (edge_data (Merge.create_combined_graph one_way_walk plain_roads [link_to_A])
                "pt_A" "pt_B" = Some (PtToPt.walking_edge_attrs 44)
      /\ edge_data (Merge.create_combined_graph one_way_walk plain_roads [link_to_A])
                   "pt_B" "pt_A" = Some (PtToPt.walking_edge_attrs 44)).
Proof.
  assert (Hwf : wf_graph two_stops = true) by reflexivity.
  assert (Hrun : PtToPt.add_walking_edges grid_geometry MAX_WALKING_DISTANCE_M two_stops
                 = Ok (walked_once grid_AB, StatsReport (mkStats 2 1 2 1 0)))
    by (vm_compute; reflexivity).
  destruct (pt_transfer_edges_paired grid_geometry MAX_WALKING_DISTANCE_M two_stops
              _ _ Hwf Hrun) as (H1 & H2 & H3).
  split; [exact Hwf|]. split; [exact Hrun|]. split; [|split].
  - apply (H1 "pt_A" "pt_B" (PtToPt.walking_edge_attrs grid_AB)); reflexivity.
  - apply (H2 plain_roads [link_to_A] "pt_A" "pt_B" (PtToPt.walking_edge_attrs grid_AB));
      reflexivity.
  - apply (H3 one_way_walk plain_roads [link_to_A] "pt_A" "pt_B"
              (PtToPt.walking_edge_attrs 44)); reflexivity.
Defined.

Lemma walking_budget_respected_witness :
  CarToPt.find_connections grid_geometry MAX_WALKING_DISTANCE_M plain_roads
    ["road_1"; "road_2"] [(-37.8180, 144.9670); (-37.8190, 144.9680)] [near_station]
  = Ok [grid_link]
  /\ distance grid_link <= MAX_WALKING_DISTANCE_M
  /\ PtToPt.add_walking_edges grid_geometry MAX_WALKING_DISTANCE_M two_stops
     = Ok (walked_once grid_AB, StatsReport (mkStats 2 1 2 1 0))
  /\ exists dist,
       Dict.get "distance" (PtToPt.walking_edge_attrs grid_AB) = Some (VNum dist)
       /\ dist <= MAX_WALKING_DISTANCE_M.
Proof.
  assert (Hcar : CarToPt.find_connections grid_geometry MAX_WALKING_DISTANCE_M plain_roads
                   ["road_1"; "road_2"] [(-37.8180, 144.9670); (-37.8190, 144.9680)]
                   [near_station] = Ok [grid_link]) by (vm_compute; reflexivity).
  assert (Hrun : PtToPt.add_walking_edges grid_geometry MAX_WALKING_DISTANCE_M two_stops
                 = Ok (walked_once grid_AB, StatsReport (mkStats 2 1 2 1 0)))
    by (vm_compute; reflexivity).
  destruct (walking_budget_respected grid_geometry MAX_WALKING_DISTANCE_M) as [H1 H2].
  split; [exact Hcar|]. split; [|split; [exact Hrun|]].
  - apply (H1 _ _ _ _ _ grid_link Hcar). now left.
  - apply (H2 _ _ _ "pt_A" "pt_B" _ Hrun); reflexivity.
Defined.

Lemma no_pt_nodes_only_clears_witness :
  wf_graph stale_walk = true
  /\ PtToPt.extract_pt_nodes stale_walk = []
  /\ exists G',
       PtToPt.add_walking_edges grid_geometry MAX_WALKING_DISTANCE_M stale_walk
       = Ok (G', ErrorNoPtNodes)
       /\ node_ G' = node_ stale_walk
       /\ forall u v,
            edge_data G' u v =
            match edge_data stale_walk u v with
            | Some d => if is_pt_walk d then None else Some d
            | None => None
            end.
Proof.
  split; [reflexivity|]. split; [reflexivity|].
  apply (no_pt_nodes_only_clears grid_geometry MAX_WALKING_DISTANCE_M stale_walk);
    reflexivity.
Defined.


Lemma existing_edge_overwritten_witness :
  sees_two_stops grid_geometry MAX_WALKING_DISTANCE_M grid_AB grid_AB
  /\ PtToPt.add_walking_edges grid_geometry MAX_WALKING_DISTANCE_M two_stops
     = Ok (walked_once grid_AB, StatsReport (mkStats 2 1 2 1 0))
  /\ edge_data (walked_once grid_AB) "pt_B" "pt_A" <> Some train_edge.
Proof.
  split; [exact sees_two_stops_grid|].
  destruct (existing_edge_overwritten grid_geometry grid_AB grid_AB sees_two_stops_grid)
    as (_ & _ & H & _ & _ & H').
  split; [exact H | exact H'].
Defined.

Lemma second_run_changes_graph_witness :
  sees_two_stops grid_geometry MAX_WALKING_DISTANCE_M grid_AB grid_AB
  /\ PtToPt.add_walking_edges grid_geometry MAX_WALKING_DISTANCE_M (walked_once grid_AB)
     = Ok (walked_twice grid_AB, StatsReport (mkStats 2 1 2 1 0))
  /\ edges (walked_twice grid_AB) <> edges (walked_once grid_AB).
Proof.
  split; [exact sees_two_stops_grid|].
  destruct (second_run_changes_graph grid_geometry grid_AB grid_AB sees_two_stops_grid)
    as (_ & H & _ & _ & H').
  split; [exact H | exact H'].
Defined.

(* ===================================================================== *)
(** * Part IV. Further properties of the code                             *)
(* ===================================================================== *)

(** ** connections/car_to_pt.py *)

Lemma subseq_refl {A : Type} (l : list A) : subseq l l.
Proof. induction l; [constructor | now apply subseq_keep]. Qed.

Lemma subseq_snoc_skip {A : Type} (l1 l2 : list A) x :
  subseq l1 l2 -> subseq l1 (l2 ++ [x]).
Proof.
  induction 1; simpl.
  - apply subseq_skip, subseq_nil.
  - now apply subseq_skip.
  - now apply subseq_keep.
Qed.

Lemma subseq_snoc_keep {A : Type} (l1 l2 : list A) x :
  subseq l1 l2 -> subseq (l1 ++ [x]) (l2 ++ [x]).
Proof.
  induction 1; simpl.
  - apply subseq_keep, subseq_nil.
  - now apply subseq_skip.
  - now apply subseq_keep.
Qed.

Lemma subseq_length {A : Type} (l1 l2 : list A) :
  subseq l1 l2 -> (List.length l1 <= List.length l2)%nat.
Proof. induction 1; simpl; lia. Qed.

Lemma subseq_In {A : Type} (l1 l2 : list A) x : subseq l1 l2 -> In x l1 -> In x l2.
Proof.
  induction 1; simpl; intros Hx; [tauto | auto | destruct Hx; auto].
Qed.

Lemma subseq_NoDup {A : Type} (l1 l2 : list A) : subseq l1 l2 -> NoDup l2 -> NoDup l1.
Proof.
  induction 1; intros Hnd; [constructor | |].
  - inversion Hnd; auto.
  - inversion Hnd; subst. constructor; [|auto].
    intros Hx. eapply subseq_In in Hx; eauto.
Qed.

(** What one pass of the station loop does: the station is counted as too
    far and nothing else changes, or one record is appended for the road
    node and distance the candidate loop kept. *)
Lemma connect_station_cases geo max G_car road_nodes road_coords t station t' :
  CarToPt.connect_station geo max G_car road_nodes road_coords t station = Ok t' ->
  t' = CarToPt.too_far t
  \/ exists r m c,
       CarToPt.closest geo max road_nodes road_coords
         (st_lat station, st_lon station)
         (query_ball_point geo road_coords (st_lat station, st_lon station)
                           (max / 111320))
       = Ok (Some (r, m))
       /\ r <> ""
       /\ record_for G_car station r m c
       /\ t' = CarToPt.mkTally (CarToPt.connections t ++ [c])
                               (S (CarToPt.stations_connected t))
                               (CarToPt.stations_too_far t).
Proof.
  unfold CarToPt.connect_station.
  destruct (query_ball_point geo road_coords _ _) as [|i0 is0] eqn:Eq;
    [intros H; inversion H; subst; left; auto|].
  intros H. apply bind_ok in H. destruct H as (best & Hbest & H).
  destruct best as [[r m]|]; [|inversion H; subst; left; auto].
  destruct (String.eqb_spec r "") as [->|Hr]; [inversion H; subst; left; auto|].
  apply bind_ok in H. destruct H as (rd & Hrd & H).
  apply bind_ok in H. destruct H as (rlat & Hlat & H).
  apply bind_ok in H. destruct H as (rlon & Hlon & H).
  inversion H; subst; clear H. right. do 3 eexists.
  split; [exact Hbest|]. split; [exact Hr|]. split; [|reflexivity].
  exists rd. simpl.
  destruct (Dict.get r (node_ G_car)); [|discriminate]. inversion Hrd; subst.
  destruct (Dict.get "lat" rd); [|discriminate]. inversion Hlat; subst.
  destruct (Dict.get "lon" rd); [|discriminate]. inversion Hlon; subst.
  repeat split; reflexivity.
Qed.

(** The counters of the station loop: one record per connected station,
    and every station is either connected or counted as too far. *)
Theorem station_tally geo max G_car road_nodes road_coords stations t :
  for_each (CarToPt.connect_station geo max G_car road_nodes road_coords)
           stations (CarToPt.mkTally [] 0 0) = Ok t ->
  List.length (CarToPt.connections t) = CarToPt.stations_connected t
  /\ (CarToPt.stations_connected t + CarToPt.stations_too_far t
      = List.length stations)%nat.
Proof.
  revert t. induction stations as [|s l IH] using rev_ind; intros t H.
  - simpl in H. inversion H; subst. simpl. auto.
  - rewrite for_each_app in H. apply bind_ok in H. destruct H as (t1 & H1 & H2).
    destruct (IH _ H1) as [Ha Hb]. simpl in H2.
    apply bind_ok in H2. destruct H2 as (t2 & H2 & E). inversion E; subst; clear E.
    rewrite length_app. simpl.
    apply connect_station_cases in H2.
    destruct H2 as [->|(r & m & c & _ & _ & _ & ->)]; simpl.
    + lia.
    + rewrite length_app. simpl. lia.
Qed.

(** The road node the candidate loop keeps is one of the indexed ones. *)
Lemma closest_picks_indexed geo max road_nodes road_coords sc indices r m :
  CarToPt.closest geo max road_nodes road_coords sc indices = Ok (Some (r, m)) ->
  In r road_nodes.
Proof.
  unfold CarToPt.closest. intros H.
  refine (for_each_invariant
            (fun best => forall r m, best = Some (r, m) -> In r road_nodes)
            _ _ indices None _ _ H r m eq_refl).
  - intros b idx b' Hb Hs. unfold CarToPt.scan in Hs.
    apply bind_ok in Hs. destruct Hs as (rn & Hrn & Hs).
    apply bind_ok in Hs. destruct Hs as (rc & _ & Hs).
    apply bind_ok in Hs. destruct Hs as (d & _ & Hs).
    destruct (CarToPt.below d b && Qle_bool d max).
    + inversion Hs; subst. intros r' m' E; inversion E; subst.
      destruct (nth_error road_nodes idx) eqn:En; [|discriminate].
      inversion Hrn; subst. eapply nth_error_In; eauto.
    + inversion Hs; subst. exact Hb.
  - intros; discriminate.
Qed.

Lemma station_loop_records geo max G_car road_nodes road_coords stations t :
  for_each (CarToPt.connect_station geo max G_car road_nodes road_coords)
           stations (CarToPt.mkTally [] 0 0) = Ok t ->
  List.length (CarToPt.connections t) = CarToPt.stations_connected t
  /\ subseq (map station_id (CarToPt.connections t)) (map st_id stations)
  /\ forall c, In c (CarToPt.connections t) ->
       exists station,
         In station stations
         /\ In (road_node c) road_nodes
         /\ record_for G_car station (road_node c) (distance c) c.
Proof.
  revert t. induction stations as [|s l IH] using rev_ind; intros t H.
  - simpl in H. inversion H; subst. simpl.
    split; [reflexivity|]. split; [constructor | intros c []].
  - rewrite for_each_app in H. apply bind_ok in H. destruct H as (t1 & H1 & H2).
    destruct (IH _ H1) as (Ha & Hb & Hc). simpl in H2.
    apply bind_ok in H2. destruct H2 as (t2 & H2 & E). inversion E; subst; clear E.
    apply connect_station_cases in H2.
    destruct H2 as [->|(r & m & c & Hbest & _ & Hrec & ->)]; simpl.
    + split; [exact Ha|]. split.
      * rewrite map_app. now apply subseq_snoc_skip.
      * intros c Hc'. destruct (Hc c Hc') as (st & Hst & Hx).
        exists st. split; [apply in_or_app; now left | exact Hx].
    + split; [rewrite length_app; simpl; lia|]. split.
      * rewrite !map_app. simpl.
        destruct Hrec as (rd & _ & _ & _ & -> & _). now apply subseq_snoc_keep.
      * intros c' Hc'. apply in_app_or in Hc'. destruct Hc' as [Hc'|[<-|[]]].
        -- destruct (Hc c' Hc') as (st & Hst & Hx).
           exists st. split; [apply in_or_app; now left | exact Hx].
        -- exists s. split; [apply in_or_app; right; now left|].
           pose proof Hrec as (rd & _ & _ & _ & _ & _ & _ & _ & Er & Em & _).
           rewrite Er, Em. split; [|exact Hrec].
           eapply closest_picks_indexed; eauto.
Qed.

(** What [find_connections] returns is never empty; it holds at most one
    record per station, in the order of the stations, and each record has
    the station's data, a road node of the index with that node's
    coordinates in the car graph, and walk_time = distance / walking
    speed. *)
Theorem find_connections_records geo max G_car road_nodes road_coords stations conns :
  CarToPt.find_connections geo max G_car road_nodes road_coords stations = Ok conns ->
  conns <> []
  /\ subseq (map station_id conns) (map st_id stations)
  /\ (List.length conns <= List.length stations)%nat
  /\ forall c, In c conns ->
       exists station,
         In station stations
         /\ In (road_node c) road_nodes
         /\ record_for G_car station (road_node c) (distance c) c.
Proof.
  unfold CarToPt.find_connections. intros H.
  apply bind_ok in H. destruct H as (t & Hloop & H).
  destruct (Nat.eqb_spec (CarToPt.stations_connected t) 0) as [|Hn]; [discriminate|].
  inversion H; subst; clear H.
  pose proof (station_loop_records geo max G_car road_nodes road_coords stations t Hloop)
    as (Hlen & Hsub & Hrec).
  split; [|split; [exact Hsub|split]].
  - intros E. rewrite E in Hlen. simpl in Hlen. congruence.
  - apply subseq_length in Hsub. now rewrite !length_map in Hsub.
  - exact Hrec.
Qed.

Lemma find_connections_loop geo max G_car road_nodes road_coords stations conns :
  CarToPt.find_connections geo max G_car road_nodes road_coords stations = Ok conns ->
  exists t,
    for_each (CarToPt.connect_station geo max G_car road_nodes road_coords)
             stations (CarToPt.mkTally [] 0 0) = Ok t
    /\ conns = CarToPt.connections t.
Proof.
  unfold CarToPt.find_connections. intros H.
  apply bind_ok in H. destruct H as (t & Hloop & H).
  destruct (CarToPt.stations_connected t =? 0)%nat; [discriminate|].
  inversion H; subst. eauto.
Qed.




(** The two steps chained: when the stations have distinct ids, every
    record [connect] returns shows in the combined graph as the edge
    road_node -> station_id with the record's own distance, which is within
    the budget, and time = distance / walking speed. *)
Theorem connect_then_merge geo max G_pt G_car stations conns c :
  NoDup (map st_id stations) ->
  CarToPt.connect geo max G_car stations = Ok conns ->
  In c conns ->
  exists d,
    edge_data (Merge.create_combined_graph G_pt G_car conns)
              (road_node c) (station_id c) = Some d
    /\ Dict.get "mode" d = Some (VStr "walk")
    /\ Dict.get "edge_type" d = Some (VStr "car_to_pt_transfer")
    /\ Dict.get "distance" d = Some (VNum (distance c))
    /\ Dict.get "time" d = Some (VNum (distance c / WALKING_SPEED))
    /\ distance c <= max.
Proof.
  intros Hnd Hrun Hin. unfold CarToPt.connect in Hrun.
  apply bind_ok in Hrun. destruct Hrun as ([ids pts] & _ & Hfind). simpl in Hfind.
  pose proof (find_connections_within _ _ _ _ _ _ _ Hfind) as Hmax.
  rewrite Forall_forall in Hmax.
  destruct (find_connections_loop _ _ _ _ _ _ _ Hfind) as (t & Hloop & ->).
  destruct (station_loop_records _ _ _ _ _ _ _ Hloop) as (_ & Hsub & Hrec).
  assert (Hids : NoDup (map station_id (CarToPt.connections t)))
    by (eapply subseq_NoDup; eauto).
  destruct (last_for_pair _ c Hin) as (l1 & c' & l2 & Ec & Hp & Hl).
  assert (Hin' : In c' (CarToPt.connections t))
    by (rewrite Ec; apply in_or_app; right; now left).
  injection Hp as Hr Hs.
  assert (c' = c) by (eapply NoDup_map_injective_in; eauto). subst c'.
  destruct (add_connection_edges_last l1 c l2 (Merge.networks G_pt G_car) Hl)
    as (old & Hedge).
  exists (Dict.update old (Merge.connection_edge_attrs c)).
  unfold Merge.create_combined_graph. rewrite Ec. split; [exact Hedge|].
  destruct (connection_attrs_written old c) as (Hm & He & Hd & Ht & _).
  split; [exact Hm|]. split; [exact He|]. split; [exact Hd|]. split.
  - destruct (Hrec c Hin) as (st & _ & _ & (rd & _ & _ & _ & _ & _ & _ & _ & _ & _ & Ewt)).
    now rewrite Ht, Ewt.
  - now apply Hmax.
Qed.

(** ** connections/pt_to_pt.py *)

Lemma In_combine_seq_nth {A : Type} (l : list A) : forall k i x,
  In (i, x) (combine (seq k (List.length l)) l) ->
  (k <= i)%nat /\ nth_error l (i - k) = Some x.
Proof.
  induction l as [|y l IH]; simpl; intros k j z H; [destruct H|].
  destruct H as [H|H].
  - inversion H; subst. rewrite Nat.sub_diag. simpl. auto.
  - apply IH in H. destruct H as [Hle Hn]. split; [lia|].
    replace (j - k)%nat with (S (j - S k)) by lia. exact Hn.
Qed.

Lemma In_enumerate_nth {A : Type} (xs : list A) i x :
  In (i, x) (enumerate xs) -> nth_error xs i = Some x.
Proof.
  unfold enumerate. intros H. apply In_combine_seq_nth in H.
  destruct H as [_ H]. now rewrite Nat.sub_0_r in H.
Qed.

(** [for_each_invariant] with the element at hand known to be in the
    list. *)
Lemma for_each_invariant_in {A S : Type} (P : S -> Prop) (body : S -> A -> result S)
      (xs : list A) :
  (forall s x s', In x xs -> P s -> body s x = Ok s' -> P s') ->
  forall s s', P s -> for_each body xs s = Ok s' -> P s'.
Proof.
  induction xs as [|x xs IH]; simpl; intros Hstep s s' Hs H.
  - inversion H; subst; exact Hs.
  - apply bind_ok in H. destruct H as (s1 & H1 & H2).
    eapply IH; [ | eapply Hstep; [left; reflexivity | exact Hs | exact H1] | exact H2].
    intros; eapply Hstep; eauto.
Qed.

(** The four things a visit can do. *)
Lemma visit_cases geo max node_ids coords i node_id ci st j st' :
  PtToPt.visit geo max node_ids coords i node_id ci st j = Ok st' ->
  st' = st
  \/ st' = PtToPt.mkLoop (PtToPt.ls_graph st) (PtToPt.count_too_far (PtToPt.ls_stats st))
                         (PtToPt.ls_pairs st)
  \/ st' = PtToPt.mkLoop (PtToPt.ls_graph st) (PtToPt.count_existing (PtToPt.ls_stats st))
                         (PtToPt.ls_pairs st)
  \/ exists neighbor_id dist,
       i <> j
       /\ nth_error node_ids j = Some neighbor_id
       /\ dist <= max
       /\ has_edge (PtToPt.ls_graph st) node_id neighbor_id = false
       /\ st' = PtToPt.mkLoop
                  (PtToPt._add_walking_edge
                     (PtToPt._add_walking_edge (PtToPt.ls_graph st) node_id neighbor_id dist)
                     neighbor_id node_id dist)
                  (PtToPt.count_added (PtToPt.ls_stats st))
                  (set_add (sorted_pair node_id neighbor_id) (PtToPt.ls_pairs st)).
Proof.
  unfold PtToPt.visit.
  destruct (Nat.eqb_spec i j) as [E|Hij]; [intros H; inversion H; auto|].
  intros H.
  apply bind_ok in H. destruct H as (nb & Hnb & H).
  apply bind_ok in H. destruct H as (cj & _ & H).
  apply bind_ok in H. destruct H as (dist & _ & H).
  destruct (Qgtb dist max) eqn:Ed; [inversion H; auto|].
  destruct (has_edge (PtToPt.ls_graph st) node_id nb) eqn:Eh; [inversion H; auto|].
  inversion H; subst; clear H. right. right. right. exists nb, dist.
  split; [exact Hij|]. split.
  - destruct (nth_error node_ids j); [now inversion Hnb | discriminate].
  - split; [now apply Qgtb_false|]. split; [exact Eh | reflexivity].
Qed.

(** A property of the loop state kept by the three counters and by the
    writing of a pair holds when [add_connections] returns. *)
Lemma add_connections_state (P : PtToPt.loop_state -> Prop)
      geo max G node_ids coords G' s :
  (forall st, P st ->
     P (PtToPt.mkLoop (PtToPt.ls_graph st) (PtToPt.count_checked (PtToPt.ls_stats st))
                      (PtToPt.ls_pairs st))) ->
  (forall st, P st ->
     P (PtToPt.mkLoop (PtToPt.ls_graph st) (PtToPt.count_too_far (PtToPt.ls_stats st))
                      (PtToPt.ls_pairs st))) ->
  (forall st, P st ->
     P (PtToPt.mkLoop (PtToPt.ls_graph st) (PtToPt.count_existing (PtToPt.ls_stats st))
                      (PtToPt.ls_pairs st))) ->
  (forall st i j a b dist,
     P st -> nth_error node_ids i = Some a -> nth_error node_ids j = Some b ->
     i <> j -> dist <= max -> has_edge (PtToPt.ls_graph st) a b = false ->
     P (PtToPt.mkLoop
          (PtToPt._add_walking_edge (PtToPt._add_walking_edge (PtToPt.ls_graph st) a b dist)
                                    b a dist)
          (PtToPt.count_added (PtToPt.ls_stats st))
          (set_add (sorted_pair a b) (PtToPt.ls_pairs st)))) ->
  P (PtToPt.mkLoop G (mkStats 0 0 0 0 0) []) ->
  PtToPt.add_connections geo max G node_ids coords = Ok (G', s) ->
  exists st,
    P st /\ G' = PtToPt.ls_graph st
    /\ s = PtToPt.with_unique_pairs (List.length (PtToPt.ls_pairs st)) (PtToPt.ls_stats st).
Proof.
  intros Hchk Hfar Hex Hw H0. unfold PtToPt.add_connections. intros H.
  apply bind_ok in H. destruct H as (pts & _ & H).
  apply bind_ok in H. destruct H as (st & Hloop & H).
  inversion H; subst; clear H. exists st. split; [|auto].
  revert Hloop. apply (for_each_invariant_in P); [|exact H0].
  intros s0 [i node_id] s1 Hin Hs0. apply In_enumerate_nth in Hin.
  unfold PtToPt.check_node; simpl.
  intros H. apply bind_ok in H. destruct H as (ci & _ & H). revert H.
  apply (for_each_invariant P); [|now apply Hchk].
  intros s2 j s3 Hs2 Hv. apply visit_cases in Hv.
  destruct Hv as [->|[->|[->|(nb & dist & Hij & Hnb & Hd & Hno & ->)]]]; auto.
  eapply Hw; eauto.
Qed.

Lemma for_each_counts {A St : Type} (f : St -> nat) (body : St -> A -> result St) :
  (forall s x s', body s x = Ok s' -> f s' = S (f s)) ->
  forall xs s s', for_each body xs s = Ok s' -> (f s' = f s + List.length xs)%nat.
Proof.
  intros Hstep xs. induction xs as [|x xs IH]; simpl; intros s s' H.
  - inversion H; subst. lia.
  - apply bind_ok in H. destruct H as (s1 & H1 & H2).
    apply IH in H2. apply Hstep in H1. lia.
Qed.

Lemma length_enumerate {A : Type} (xs : list A) :
  List.length (enumerate xs) = List.length xs.
Proof.
  unfold enumerate. rewrite length_combine, length_seq. apply Nat.min_id.
Qed.

(** [add_walking_edges], step by step: the clearing, which keeps the
    nodes; then either no stop has coordinates, or [add_connections] runs
    on the ids of the stops that have. *)
Lemma add_walking_edges_steps geo max G G' rep :
  PtToPt.add_walking_edges geo max G = Ok (G', rep) ->
  exists G1,
    PtToPt.clear_walking_edges G = Ok G1
    /\ node_ G1 = node_ G
    /\ ((PtToPt.extract_pt_nodes G = [] /\ G' = G1 /\ rep = ErrorNoPtNodes)
        \/ exists coords s,
             PtToPt.extract_pt_nodes G <> []
             /\ PtToPt.add_connections geo max G1
                  (map fst (PtToPt.extract_pt_nodes G)) coords = Ok (G', s)
             /\ rep = StatsReport s).
Proof.
  unfold PtToPt.add_walking_edges. intros H.
  apply bind_ok in H. destruct H as (G1 & Hc & H).
  exists G1. split; [exact Hc|].
  assert (Hn : node_ G1 = node_ G).
  { unfold PtToPt.clear_walking_edges in Hc. now apply remove_edges_spec in Hc. }
  split; [exact Hn|].
  assert (Hx : PtToPt.extract_pt_nodes G1 = PtToPt.extract_pt_nodes G).
  { unfold PtToPt.extract_pt_nodes, nodes. now rewrite Hn. }
  rewrite Hx in H.
  destruct (PtToPt.extract_pt_nodes G) as [|nd rest] eqn:Ex.
  - simpl in H. inversion H; subst. left. auto.
  - simpl List.length in H. cbn [Nat.eqb] in H.
    apply bind_ok in H. destruct H as (ix & Hix & H).
    apply bind_ok in H. destruct H as ([G2 s] & Hadd & H).
    inversion H; subst; clear H. right. exists (snd ix), s.
    split; [discriminate|]. split; [|reflexivity].
    unfold PtToPt.build_spatial_index in Hix.
    apply bind_ok in Hix. destruct Hix as (r & Hr & Hix).
    apply bind_ok in Hix. destruct Hix as (tree & _ & Hix). inversion Hix; subst.
    rewrite index_rows_spec in Hr.
    + inversion Hr; subst. exact Hadd.
    + intros nd' Hnd. rewrite <- Ex in Hnd. unfold PtToPt.extract_pt_nodes in Hnd.
      apply filter_In in Hnd. tauto.
Qed.

Lemma has_edge_add_edge_mono g a b data u v :
  has_edge g u v = true -> has_edge (add_edge g a b data) u v = true.
Proof.
  rewrite !has_edge_edge_data, edge_data_add_edge.
  destruct ((a =? u)%string && (b =? v)%string); [reflexivity | auto].
Qed.

Lemma has_edge_add_edge_same g a b data : has_edge (add_edge g a b data) a b = true.
Proof. now rewrite has_edge_edge_data, edge_data_add_edge_same. Qed.

Lemma sorted_pair_cases a b : sorted_pair a b = (a, b) \/ sorted_pair a b = (b, a).
Proof. unfold sorted_pair. destruct (String.ltb b a); auto. Qed.

Lemma length_set_add_new p s :
  ~ In p s -> List.length (set_add p s) = S (List.length s).
Proof.
  intros H. unfold set_add. destruct (existsb (pair_eqb p) s) eqn:E.
  - apply existsb_pair_eqb in E. contradiction.
  - rewrite length_app. simpl. lia.
Qed.

Lemma In_set_add p q s : In q (set_add p s) -> q = p \/ In q s.
Proof.
  unfold set_add. destruct (existsb (pair_eqb p) s); [auto|].
  intros H. apply in_app_or in H. destruct H as [H|[H|[]]]; auto.
Qed.

(** The statistics [add_walking_edges] reports: edges_added is twice
    unique_pairs, and nodes_checked is the number of stops with
    coordinates, which is not 0. *)
Theorem walking_stats geo max G G' s :
  PtToPt.add_walking_edges geo max G = Ok (G', StatsReport s) ->
  (edges_added s = 2 * unique_pairs s)%nat
  /\ nodes_checked s = List.length (PtToPt.extract_pt_nodes G)
  /\ (0 < nodes_checked s)%nat.
Proof.
  intros H. apply add_walking_edges_steps in H.
  destruct H as (G1 & _ & _ & [(_ & _ & E)|(coords & s' & Hne & Hadd & E)]);
    [discriminate|].
  inversion E; subst s'; clear E.
  assert (Hchecked : nodes_checked s = List.length (PtToPt.extract_pt_nodes G)).
  { unfold PtToPt.add_connections in Hadd.
    apply bind_ok in Hadd. destruct Hadd as (pts & _ & Hadd).
    apply bind_ok in Hadd. destruct Hadd as (st & Hloop & Hadd).
    inversion Hadd; subst; clear Hadd. simpl.
    apply (for_each_counts (fun st => nodes_checked (PtToPt.ls_stats st))) in Hloop.
    - simpl in Hloop. now rewrite Hloop, length_enumerate, length_map.
    - intros s0 [i node_id] s1. unfold PtToPt.check_node; simpl.
      intros Hc. apply bind_ok in Hc. destruct Hc as (ci & _ & Hc). revert Hc.
      apply (for_each_invariant
               (fun st => nodes_checked (PtToPt.ls_stats st)
                          = S (nodes_checked (PtToPt.ls_stats s0)))); [|reflexivity].
      intros s2 j s3 Hs2 Hv. apply visit_cases in Hv.
      destruct Hv as [->|[->|[->|(nb & dist & _ & _ & _ & _ & ->)]]]; simpl; auto. }
  split; [|split; [exact Hchecked|]].
  - assert (X : exists st,
               ((edges_added (PtToPt.ls_stats st)
                 = 2 * List.length (PtToPt.ls_pairs st))%nat
                /\ forall p, In p (PtToPt.ls_pairs st) ->
                     has_edge (PtToPt.ls_graph st) (fst p) (snd p) = true
                     /\ has_edge (PtToPt.ls_graph st) (snd p) (fst p) = true)
               /\ G' = PtToPt.ls_graph st
               /\ s = PtToPt.with_unique_pairs (List.length (PtToPt.ls_pairs st))
                                               (PtToPt.ls_stats st)).
    { refine (add_connections_state _ geo max G1 _ coords G' s _ _ _ _ _ Hadd);
        auto; try (simpl; split; [reflexivity | intros p []]).
      intros st i j a b dist [He Hp] _ _ _ _ Hno. simpl.
        assert (Hnew : ~ In (sorted_pair a b) (PtToPt.ls_pairs st)).
        { intros Hin. apply Hp in Hin.
          destruct (sorted_pair_cases a b) as [E|E]; rewrite E in Hin; simpl in Hin;
            destruct Hin; congruence. }
        split; [rewrite (length_set_add_new _ _ Hnew); lia|].
        intros p Hin. unfold PtToPt._add_walking_edge.
        apply In_set_add in Hin. destruct Hin as [->|Hin].
        - destruct (sorted_pair_cases a b) as [E|E]; rewrite E; simpl; split;
            try apply has_edge_add_edge_same;
            apply has_edge_add_edge_mono, has_edge_add_edge_same.
        - destruct (Hp p Hin). split; now repeat apply has_edge_add_edge_mono. }
    destruct X as (st & [He _] & _ & ->). simpl. exact He.
  - rewrite Hchecked. destruct (PtToPt.extract_pt_nodes G); [congruence | simpl; lia].
Qed.

Lemma mem_adj_add_edge_mono g a b data n :
  Dict.mem n (adj g) = true -> Dict.mem n (adj (add_edge g a b data)) = true.
Proof.
  intros H. unfold add_edge; simpl. rewrite mem_set, !mem_adj_touch_node, H.
  now rewrite !orb_true_r.
Qed.

(** [add_edge] between two nodes of the graph leaves the nodes as they
    are. *)
Lemma node_add_edge_same g a b data :
  Dict.mem a (adj g) = true -> Dict.mem b (adj g) = true ->
  node_ (add_edge g a b data) = node_ g.
Proof.
  intros Ha Hb. unfold add_edge; simpl. unfold touch_node at 2. rewrite Ha.
  unfold touch_node. now rewrite Hb.
Qed.

Lemma mem_adj_remove_edge g a b g' n :
  remove_edge g a b = Ok g' -> Dict.mem n (adj g) = true -> Dict.mem n (adj g') = true.
Proof.
  unfold remove_edge. destruct (has_edge g a b); [|discriminate].
  intros H Hn; inversion H; subst; simpl. rewrite mem_set, Hn. apply orb_true_r.
Qed.

Lemma mem_adj_cleared G G1 n :
  PtToPt.clear_walking_edges G = Ok G1 ->
  Dict.mem n (adj G) = true -> Dict.mem n (adj G1) = true.
Proof.
  unfold PtToPt.clear_walking_edges. intros H Hn. revert H.
  apply (for_each_invariant (fun g => Dict.mem n (adj g) = true)); [|exact Hn].
  intros s [a b] s' Hs Hr. eapply mem_adj_remove_edge; eauto.
Qed.

Lemma NoDup_nth_error_eq {A : Type} (l : list A) i j x :
  NoDup l -> nth_error l i = Some x -> nth_error l j = Some x -> i = j.
Proof.
  intros Hnd Hi Hj. apply (proj1 (NoDup_nth_error l) Hnd).
  - apply nth_error_Some. congruence.
  - congruence.
Qed.

(** What [add_connections] leaves of a graph [G1] that holds no walking
    transfer edge, when the ids are distinct nodes of [G1]: the nodes; every
    edge it did not write; and walking transfer edges only between two
    different ids. *)
Lemma add_connections_footprint geo max G1 node_ids coords G' s :
  NoDup node_ids ->
  (forall n, In n node_ids -> Dict.mem n (adj G1) = true) ->
  (forall u v d, edge_data G1 u v = Some d -> is_pt_walk d = false) ->
  PtToPt.add_connections geo max G1 node_ids coords = Ok (G', s) ->
  node_ G' = node_ G1
  /\ (forall u v d, edge_data G' u v = Some d ->
        is_pt_walk d = true \/ edge_data G1 u v = Some d)
  /\ (forall u v d, edge_data G1 u v = Some d ->
        exists d', edge_data G' u v = Some d' /\ (d' = d \/ is_pt_walk d' = true))
  /\ (forall u v d, edge_data G' u v = Some d -> is_pt_walk d = true ->
        u <> v /\ In u node_ids /\ In v node_ids).
Proof.
  intros Hnd Hids Hclean Hadd.
  assert (X : exists st,
    (node_ (PtToPt.ls_graph st) = node_ G1
     /\ (forall n, In n node_ids -> Dict.mem n (adj (PtToPt.ls_graph st)) = true)
     /\ (forall u v d, edge_data (PtToPt.ls_graph st) u v = Some d ->
           is_pt_walk d = true \/ edge_data G1 u v = Some d)
     /\ (forall u v d, edge_data G1 u v = Some d ->
           exists d', edge_data (PtToPt.ls_graph st) u v = Some d'
                      /\ (d' = d \/ is_pt_walk d' = true))
     /\ (forall u v d, edge_data (PtToPt.ls_graph st) u v = Some d -> is_pt_walk d = true ->
           u <> v /\ In u node_ids /\ In v node_ids))
    /\ G' = PtToPt.ls_graph st
    /\ s = PtToPt.with_unique_pairs (List.length (PtToPt.ls_pairs st)) (PtToPt.ls_stats st)).
  { refine (add_connections_state _ geo max G1 node_ids coords G' s _ _ _ _ _ Hadd); auto.
    - intros st i j a b dist (Hn & Hm & Hold & Hkeep & Hwalk) Hi Hj Hij _ _.
      cbn [PtToPt.ls_graph].
      assert (Ha : In a node_ids) by (eapply nth_error_In; eauto).
      assert (Hb : In b node_ids) by (eapply nth_error_In; eauto).
      assert (Hab : a <> b).
      { intros ->. apply Hij. eapply NoDup_nth_error_eq; eauto. }
      pose proof (write_pair_forward (PtToPt.ls_graph st) a b dist) as (df & Ef & Wf & _).
      pose proof (write_pair_backward (PtToPt.ls_graph st) a b dist) as (db & Eb & Wb & _).
      assert (Hcases : forall u v,
                 (u = a /\ v = b) \/ (u = b /\ v = a)
                 \/ ((u, v) <> (a, b) /\ (u, v) <> (b, a))).
      { intros u v. destruct (string_dec u a), (string_dec v b),
                      (string_dec u b), (string_dec v a); subst; auto;
          right; right; split; congruence. }
      split; [|split; [|split; [|split]]].
      + unfold PtToPt._add_walking_edge.
        rewrite node_add_edge_same; [rewrite node_add_edge_same; auto|
                                     apply mem_adj_add_edge_mono; auto|
                                     apply mem_adj_add_edge_mono; auto].
      + intros n Hin. unfold PtToPt._add_walking_edge.
        now repeat apply mem_adj_add_edge_mono; apply Hm.
      + intros u v d Hd.
        destruct (Hcases u v) as [[-> ->]|[[-> ->]|[N1 N2]]].
        * left. congruence.
        * left. congruence.
        * rewrite write_pair_elsewhere in Hd by assumption. now apply Hold.
      + intros u v d Hd. destruct (Hkeep u v d Hd) as (d' & Hd' & Hor).
        destruct (Hcases u v) as [[-> ->]|[[-> ->]|[N1 N2]]].
        * exists df. auto.
        * exists db. auto.
        * exists d'. rewrite write_pair_elsewhere by assumption. auto.
      + intros u v d Hd Hw.
        destruct (Hcases u v) as [[-> ->]|[[-> ->]|[N1 N2]]]; auto.
        rewrite write_pair_elsewhere in Hd by assumption. now apply (Hwalk u v d).
    - simpl. split; [reflexivity|]. split; [exact Hids|]. split; [auto|].
      split; [eauto|]. intros u v d Hd Hw. rewrite (Hclean _ _ _ Hd) in Hw. discriminate. }
  destruct X as (st & (Hn & _ & H2 & H3 & H4) & -> & _). auto.
Qed.

Lemma wf_graph_nodes G :
  wf_graph G = true -> NoDup (map fst (node_ G)) /\ nodes_in_adj G.
Proof.
  unfold wf_graph. rewrite !andb_true_iff.
  intros [[[[[Hn _] _] _] Hin] _]. split.
  - now apply nodup_keys_NoDup.
  - rewrite forallb_forall in Hin. intros n Hm. unfold Dict.mem in Hm.
    destruct (Dict.get n (node_ G)) as [a|] eqn:E; [|discriminate].
    apply (Hin (n, a)). now apply get_In.
Qed.

(** What a run needs of its input and gets from it, put together. *)
Lemma add_walking_edges_footprint geo max G G' rep :
  graph_ok G -> NoDup (map fst (node_ G)) -> nodes_in_adj G ->
  PtToPt.add_walking_edges geo max G = Ok (G', rep) ->
  node_ G' = node_ G
  /\ (forall u v d, edge_data G' u v = Some d -> is_pt_walk d = false ->
        edge_data G u v = Some d)
  /\ (forall u v d, edge_data G u v = Some d -> is_pt_walk d = false ->
        exists d', edge_data G' u v = Some d' /\ (d' = d \/ is_pt_walk d' = true))
  /\ (forall u v d, edge_data G' u v = Some d -> is_pt_walk d = true ->
        u <> v
        /\ In u (map fst (PtToPt.extract_pt_nodes G))
        /\ In v (map fst (PtToPt.extract_pt_nodes G))).
Proof.
  intros Hok Hnd Hmem Hrun.
  destruct (clear_walking_edges_spec G Hok) as (G0 & Hc0 & _ & _ & Hedges).
  destruct (add_walking_edges_steps _ _ _ _ _ Hrun) as (G1 & Hc & Hn & Hcases).
  assert (G0 = G1) by congruence. subst G0.
  assert (Hclean : forall u v d, edge_data G1 u v = Some d -> is_pt_walk d = false)
    by (apply (cleared_no_pt_walk _ _ Hc)).
  assert (Hback : forall u v d, edge_data G1 u v = Some d -> edge_data G u v = Some d).
  { intros u v d Hd. rewrite Hedges in Hd.
    destruct (edge_data G u v) as [d0|]; [|discriminate].
    destruct (is_pt_walk d0); [discriminate | exact Hd]. }
  assert (Hforth : forall u v d, edge_data G u v = Some d -> is_pt_walk d = false ->
                                 edge_data G1 u v = Some d).
  { intros u v d Hd Hw. now rewrite Hedges, Hd, Hw. }
  destruct Hcases as [(_ & -> & _)|(coords & s & _ & Hadd & _)].
  - split; [exact Hn|]. split; [auto|]. split; [eauto|].
    intros u v d Hd Hw. rewrite (Hclean _ _ _ Hd) in Hw. discriminate.
  - destruct (add_connections_footprint geo max G1
                (map fst (PtToPt.extract_pt_nodes G)) coords G' s) as (F1 & F2 & F3 & F4);
      try assumption.
    + unfold PtToPt.extract_pt_nodes, nodes. now apply NoDup_map_filter.
    + intros n Hin. apply in_map_iff in Hin. destruct Hin as ([n' data] & E & Hin).
      simpl in E. subst n'. unfold PtToPt.extract_pt_nodes, nodes in Hin.
      apply filter_In in Hin. destruct Hin as [Hin _].
      eapply mem_adj_cleared; eauto. apply Hmem. eapply In_mem; eauto.
    + split; [congruence|]. split; [|split; [|exact F4]].
      * intros u v d Hd Hw. destruct (F2 _ _ _ Hd) as [X|X]; [congruence | auto].
      * intros u v d Hd Hw. apply F3. auto.
Qed.

(** A run of the connector changes nothing but walking transfer edges: the
    nodes are those of the input; an edge of the result that is not a
    walking transfer edge is an edge of the input with the same data; and
    an edge of the input that is not a walking transfer edge is still
    there, with its data or written over as a walking transfer edge. *)
Theorem connector_keeps_the_rest geo max G G' rep :
  wf_graph G = true ->
  PtToPt.add_walking_edges geo max G = Ok (G', rep) ->
  node_ G' = node_ G
  /\ (forall u v d, edge_data G' u v = Some d -> is_pt_walk d = false ->
        edge_data G u v = Some d)
  /\ (forall u v d, edge_data G u v = Some d -> is_pt_walk d = false ->
        exists d', edge_data G' u v = Some d' /\ (d' = d \/ is_pt_walk d' = true)).
Proof.
  intros Hwf Hrun. destruct (wf_graph_nodes _ Hwf) as [Hnd Hmem].
  destruct (add_walking_edges_footprint _ _ _ _ _ (wf_graph_ok _ Hwf) Hnd Hmem Hrun)
    as (H1 & H2 & H3 & _). auto.
Qed.

(** Every walking transfer edge the connector leaves joins two different
    nodes, both of them stops that carry coordinates: it makes no self
    loop and touches no node without lat and lon. *)
Theorem walking_edges_join_distinct_stops geo max G G' rep u v d :
  wf_graph G = true ->
  PtToPt.add_walking_edges geo max G = Ok (G', rep) ->
  edge_data G' u v = Some d -> is_pt_walk d = true ->
  u <> v
  /\ In u (map fst (PtToPt.extract_pt_nodes G))
  /\ In v (map fst (PtToPt.extract_pt_nodes G)).
Proof.
  intros Hwf Hrun Hd Hw. destruct (wf_graph_nodes _ Hwf) as [Hnd Hmem].
  destruct (add_walking_edges_footprint _ _ _ _ _ (wf_graph_ok _ Hwf) Hnd Hmem Hrun)
    as (_ & _ & _ & H4). eauto.
Qed.

(** ** merge_graphs.py: which edges the merge makes *)

Lemma transport_not_walk d : Merge.is_transport d = true -> is_pt_walk d = false.
Proof.
  unfold Merge.is_transport, is_pt_walk, is_str.
  destruct (Dict.get "mode" d) as [[| |s]|]; try discriminate.
  destruct (String.eqb_spec s "walk") as [->|]; [discriminate | reflexivity].
Qed.

Lemma backfilled_refl keep g : graph_ok g -> backfilled keep g g.
Proof. intros H. split; [exact H|]. split; [reflexivity|]. split; auto. Qed.

(** One reverse edge more. *)
Lemma backfilled_step keep g s u v data :
  backfilled keep g s ->
  edge_data s u v = Some data -> keep data = true -> has_edge s v u = false ->
  backfilled keep g (add_edge s v u data).
Proof.
  intros (Hok & Hnodes & Hkeep & Horig) Huv Hk Habs.
  assert (Hvu : edge_data s v u = None).
  { rewrite has_edge_edge_data in Habs. now destruct (edge_data s v u). }
  split; [now apply graph_ok_add_edge|]. split; [|split].
  - rewrite <- Hnodes. apply node_add_edge_same.
    + destruct Hok as (_ & _ & H3 & _). apply (H3 _ _ _ Huv).
    + unfold edge_data in Huv. unfold Dict.mem. now destruct (Dict.get u (adj s)).
  - intros x y d Hd. apply add_absent_keeps; auto.
  - intros x y d. rewrite edge_data_add_edge.
    destruct (String.eqb_spec v x) as [<-|Nx]; simpl; [|apply Horig].
    destruct (String.eqb_spec u y) as [<-|Ny]; [|apply Horig].
    rewrite Hvu, update_nil by (destruct Hok as (_ & _ & H3 & _); apply (H3 _ _ _ Huv)).
    intros X; inversion X; subst d. right.
    assert (Hg : edge_data g v u = None).
    { destruct (edge_data g v u) as [d0|] eqn:E; [|reflexivity].
      apply Hkeep in E. congruence. }
    split; [exact Hg|]. split; [|exact Hk].
    destruct (Horig _ _ _ Huv) as [H|(_ & H & _)]; [exact H|].
    apply Hkeep in H. congruence.
Qed.

Lemma backfill_walking_loop es base : forall s,
  (forall a b da, In (a, b, da) es -> edge_data base a b = Some da) ->
  backfilled is_pt_walk base s ->
  backfilled is_pt_walk base
    (fold_left
       (fun g e =>
          let u := fst (fst e) in
          let v := snd (fst e) in
          let data := snd e in
          if is_pt_walk data && negb (has_edge g v u)
          then add_edge g v u data else g) es s).
Proof.
  induction es as [|[[a b] da] es IH]; simpl; intros s Hes Hs; [exact Hs|].
  apply IH; [intros; apply Hes; now right|].
  destruct (is_pt_walk da) eqn:Hw; simpl; [|exact Hs].
  destruct (has_edge s b a) eqn:Hh; simpl; [exact Hs|].
  apply backfilled_step; auto.
  destruct Hs as (_ & _ & Hkeep & _). apply Hkeep, Hes. now left.
Qed.

Lemma backfill_walking_backfilled G_pt :
  graph_ok G_pt ->
  backfilled is_pt_walk (Merge.add_pt_network G_pt)
             (Merge.backfill_walking G_pt (Merge.add_pt_network G_pt)).
Proof.
  intros Hok. unfold Merge.backfill_walking. apply backfill_walking_loop.
  - intros a b da Hin. rewrite edge_data_add_pt_network by exact Hok.
    now apply In_edges_edge_data.
  - apply backfilled_refl. unfold Merge.add_pt_network.
    apply graph_ok_add_edges_from, graph_ok_add_nodes_from, graph_ok_empty.
Qed.

Lemma backfill_transport_inner u g : forall l s,
  (forall v data, In (v, data) l -> edge_data s u v = Some data) ->
  backfilled Merge.is_transport g s ->
  backfilled Merge.is_transport g
    (fold_left
       (fun g' vd =>
          let v := fst vd in
          let data := snd vd in
          if Merge.is_transport data && negb (has_edge g' v u)
          then add_edge g' v u data else g') l s).
Proof.
  induction l as [|[v data] l IH]; simpl; intros s Hl Hs; [exact Hs|].
  destruct (Merge.is_transport data) eqn:Ht; simpl;
    [|apply IH; [intros; apply Hl; now right | exact Hs]].
  destruct (has_edge s v u) eqn:Hh; simpl;
    [apply IH; [intros; apply Hl; now right | exact Hs]|].
  apply IH.
  - intros v' data' Hin. apply add_absent_keeps; [exact Hh|]. apply Hl. now right.
  - apply backfilled_step; auto.
Qed.

Lemma backfill_transport_backfilled g :
  graph_ok g -> backfilled Merge.is_transport g (Merge.backfill_transport g).
Proof.
  intros Hok. unfold Merge.backfill_transport.
  apply (fold_left_invariant (backfilled Merge.is_transport g));
    [|now apply backfilled_refl].
  intros s u Hs. apply backfill_transport_inner; [|exact Hs].
  intros v data Hin. rewrite <- get_succ. apply In_get; [|exact Hin].
  destruct Hs as ((_ & H2 & _) & _). unfold succ.
  destruct (Dict.get u (adj s)) as [nbrs|] eqn:E; [apply (H2 _ _ E) | reflexivity].
Qed.

Lemma transport_inner_mono u x y : forall l s,
  has_edge s x y = true ->
  has_edge
    (fold_left
       (fun g' vd =>
          let v := fst vd in
          let data := snd vd in
          if Merge.is_transport data && negb (has_edge g' v u)
          then add_edge g' v u data else g') l s) x y = true.
Proof.
  intros l. apply (fold_left_invariant (fun s => has_edge s x y = true)).
  intros s [v data] Hs; simpl.
  destruct (Merge.is_transport data && negb (has_edge s v u));
    [now apply has_edge_add_edge_mono | exact Hs].
Qed.

Lemma transport_inner_covers u : forall l s v data,
  In (v, data) l -> Merge.is_transport data = true ->
  has_edge
    (fold_left
       (fun g' vd =>
          let v := fst vd in
          let data := snd vd in
          if Merge.is_transport data && negb (has_edge g' v u)
          then add_edge g' v u data else g') l s) v u = true.
Proof.
  induction l as [|[v0 d0] l IH]; simpl; intros s v data Hin Ht; [contradiction|].
  destruct Hin as [E|Hin]; [|now apply (IH _ v data)].
  inversion E; subst v0 d0. rewrite Ht. simpl.
  apply transport_inner_mono.
  destruct (has_edge s v u) eqn:Hh; simpl; [exact Hh | apply has_edge_add_edge_same].
Qed.

Lemma transport_outer_covers x y d : forall ks g,
  In x ks -> edge_data g x y = Some d -> Merge.is_transport d = true ->
  has_edge
    (fold_left
       (fun g u =>
          fold_left
            (fun g' vd =>
               let v := fst vd in
               let data := snd vd in
               if Merge.is_transport data && negb (has_edge g' v u)
               then add_edge g' v u data else g')
            (succ g u) g) ks g) y x = true.
Proof.
  induction ks as [|k ks IH]; simpl; intros g Hin Hd Ht; [contradiction|].
  destruct (string_dec k x) as [->|Hne].
  - apply (fold_left_invariant (fun s => has_edge s y x = true)).
    + intros s u Hs. now apply transport_inner_mono.
    + apply (transport_inner_covers x _ _ y d); [|exact Ht].
      apply get_In. now rewrite get_succ.
  - destruct Hin as [E|Hin]; [contradiction|]. apply IH; [exact Hin| |exact Ht].
    apply (fold_left_invariant (fun s => edge_data s x y = Some d)); [|exact Hd].
    intros s [v data] Hs; simpl.
    destruct (Merge.is_transport data); simpl; [|exact Hs].
    destruct (has_edge s v k) eqn:Hh; simpl; [exact Hs | now apply add_absent_keeps].
Qed.

Lemma backfill_transport_covers g x y d :
  edge_data g x y = Some d -> Merge.is_transport d = true ->
  has_edge (Merge.backfill_transport g) y x = true.
Proof.
  intros Hd Ht. unfold Merge.backfill_transport.
  apply (transport_outer_covers x y d); [|exact Hd|exact Ht].
  apply mem_In_keys. unfold Dict.mem. unfold edge_data in Hd.
  now destruct (Dict.get x (adj g)).
Qed.

(** The PT side of the combined graph, edge by edge: the edges of the PT
    graph with their data, and for a walking transfer or tram, bus or train
    edge without a reverse, the reverse with the same data. *)
Lemma pt_side_edges G_pt :
  graph_ok G_pt ->
  (forall x y d, edge_data G_pt x y = Some d -> edge_data (pt_side G_pt) x y = Some d)
  /\ (forall x y d, edge_data (pt_side G_pt) x y = Some d ->
        edge_data G_pt x y = Some d
        \/ (edge_data G_pt x y = None /\ edge_data G_pt y x = Some d
            /\ reversible d = true))
  /\ (forall x y d, edge_data G_pt x y = Some d -> reversible d = true ->
        has_edge (pt_side G_pt) y x = true).
Proof.
  intros Hok. unfold pt_side.
  destruct (backfill_walking_backfilled G_pt Hok) as (Wok & _ & Wkeep & Worig).
  destruct (backfill_transport_backfilled _ Wok) as (Tok & _ & Tkeep & Torig).
  assert (E := fun x y => edge_data_add_pt_network G_pt x y Hok).
  assert (K1 : forall x y d, edge_data G_pt x y = Some d ->
    edge_data (Merge.backfill_walking G_pt (Merge.add_pt_network G_pt)) x y = Some d).
  { intros x y d Hd. apply Wkeep. now rewrite E. }
  assert (O1 : forall x y d,
    edge_data (Merge.backfill_walking G_pt (Merge.add_pt_network G_pt)) x y = Some d ->
    edge_data G_pt x y = Some d
    \/ (edge_data G_pt x y = None /\ edge_data G_pt y x = Some d /\ is_pt_walk d = true)).
  { intros x y d Hd. apply Worig in Hd. now rewrite !E in Hd. }
  split; [|split].
  - intros x y d Hd. auto.
  - intros x y d Hd. unfold reversible.
    destruct (Torig _ _ _ Hd) as [H|(Hn & Hr & Ht)].
    + destruct (O1 _ _ _ H) as [H1|(H1 & H2 & H3)]; [now left|].
      right. rewrite H3. auto.
    + right. split.
      * destruct (edge_data G_pt x y) as [d0|] eqn:E0; [|reflexivity].
        apply K1 in E0. congruence.
      * destruct (O1 _ _ _ Hr) as [H1|(_ & _ & H3)].
        -- rewrite Ht, orb_true_r. auto.
        -- rewrite (transport_not_walk _ Ht) in H3. discriminate.
  - intros x y d Hd Hr. unfold reversible in Hr.
    destruct (Merge.is_transport d) eqn:Ht.
    + apply backfill_transport_covers with (d := d); auto.
    + rewrite orb_false_r in Hr.
      assert (Hw : has_edge (Merge.backfill_walking G_pt (Merge.add_pt_network G_pt)) y x
                   = true).
      { rewrite has_edge_edge_data.
        destruct (edge_data G_pt y x) as [d0|] eqn:E0.
        - now rewrite (K1 _ _ _ E0).
        - now rewrite (backfill_walking_adds G_pt x y d Hok Hd Hr E0). }
      rewrite has_edge_edge_data in Hw |- *.
      destruct (edge_data (Merge.backfill_walking G_pt (Merge.add_pt_network G_pt)) y x)
        as [d1|] eqn:E1; [|discriminate].
      now rewrite (Tkeep _ _ _ E1).
Qed.

Lemma has_edge_add_edges_from es : forall G u v,
  has_edge G u v = true \/ In (u, v) (map fst es) ->
  has_edge (add_edges_from G es) u v = true.
Proof.
  unfold add_edges_from.
  induction es as [|[[a b] d] es IH]; simpl; intros G u v [H|H];
    try (now auto); try contradiction.
  - apply IH. left. now apply has_edge_add_edge_mono.
  - apply IH. destruct H as [E|H]; [|now right].
    inversion E; subst. left. apply has_edge_add_edge_same.
Qed.

Lemma has_edge_add_connection_edges conns : forall g u v,
  has_edge g u v = true \/ In (u, v) (map ends conns) ->
  has_edge (Merge.add_connection_edges conns g) u v = true.
Proof.
  unfold Merge.add_connection_edges.
  induction conns as [|c conns IH]; simpl; intros g u v [H|H];
    try (now auto); try contradiction.
  - apply IH. left. now apply has_edge_add_edge_mono.
  - apply IH. destruct H as [E|H]; [|now right].
    unfold ends in E. inversion E; subst. left. apply has_edge_add_edge_same.
Qed.

Lemma has_edge_add_nodes_from ns G u v :
  graph_ok G -> has_edge (add_nodes_from G ns) u v = has_edge G u v.
Proof.
  intros Hok. now rewrite !has_edge_edge_data, edge_data_add_nodes_from.
Qed.

Lemma graph_ok_pt_side G_pt : graph_ok (pt_side G_pt).
Proof. apply graph_ok_pt_stage. Qed.

Lemma combined_graph_unfold G_pt G_car conns :
  Merge.create_combined_graph G_pt G_car conns
  = Merge.add_connection_edges conns
      (add_edges_from (add_nodes_from (pt_side G_pt) (nodes G_car)) (edges G_car)).
Proof. reflexivity. Qed.

Lemma get_rev_nodup {V : Type} (d : Dict.t V) k v :
  Dict.nodup_keys d = true -> Dict.get k d = Some v -> Dict.get k (rev d) = Some v.
Proof.
  intros Hnd Hg. apply In_get.
  - apply nodup_keys_NoDup. unfold Dict.keys. rewrite map_rev.
    apply NoDup_rev. now apply nodup_keys_NoDup.
  - apply in_rev. rewrite rev_involutive. now apply get_In.
Qed.

(** The merge gives every tram, bus or train edge of the PT graph the
    reverse edge.  With the car side kept apart from the PT identifiers,
    the edge keeps its data, and the reverse carries the data the PT graph
    had for it, or a copy of the edge's own data when the PT graph had no
    reverse. *)
Theorem transport_edges_reversed G_pt G_car conns u v d :
  wf_graph G_pt = true ->
  edge_data G_pt u v = Some d -> Merge.is_transport d = true ->
  has_edge (Merge.create_combined_graph G_pt G_car conns) v u = true
  /\ (apart G_pt G_car conns = true ->
      edge_data (Merge.create_combined_graph G_pt G_car conns) u v = Some d
      /\ edge_data (Merge.create_combined_graph G_pt G_car conns) v u
         = Some (match edge_data G_pt v u with Some d' => d' | None => d end)).
Proof.
  intros Hwf Hd Ht. pose proof (wf_graph_ok _ Hwf) as Hok.
  destruct (pt_side_edges G_pt Hok) as (Hkeep & Horig & Hcov).
  assert (Hr : reversible d = true) by (unfold reversible; rewrite Ht; apply orb_true_r).
  pose proof (Hcov _ _ _ Hd Hr) as Hrev.
  split.
  - rewrite combined_graph_unfold.
    apply has_edge_add_connection_edges. left.
    apply has_edge_add_edges_from. left.
    now rewrite has_edge_add_nodes_from by apply graph_ok_pt_side.
  - intros Hap. split; [now apply merge_keeps_pt_edge|].
    unfold Merge.create_combined_graph, Merge.networks.
    rewrite (car_side_keeps G_pt)
      by eauto using edge_target_is_node, graph_ok_pt_stage.
    fold (pt_side G_pt).
    destruct (edge_data G_pt v u) as [d'|] eqn:E; [now apply Hkeep|].
    rewrite has_edge_edge_data in Hrev.
    destruct (edge_data (pt_side G_pt) v u) as [d1|] eqn:E1; [|discriminate].
    destruct (Horig _ _ _ E1) as [H|(_ & H & _)]; congruence.
Qed.

(** The edge set of the combined graph, exactly: an ordered pair is joined
    if and only if a connection names it, or the car graph joins it, or
    the PT graph joins it, or the PT graph joins it the other way round by
    a walking transfer, tram, bus or train edge. *)
Theorem merge_edge_set G_pt G_car conns x y :
  wf_graph G_pt = true ->
  has_edge (Merge.create_combined_graph G_pt G_car conns) x y = true
  <-> (In (x, y) (map ends conns)
       \/ In (x, y) (map fst (edges G_car))
       \/ has_edge G_pt x y = true
       \/ exists d, edge_data G_pt y x = Some d /\ reversible d = true).
Proof.
  intros Hwf. pose proof (wf_graph_ok _ Hwf) as Hok.
  destruct (pt_side_edges G_pt Hok) as (Hkeep & Horig & Hcov).
  assert (pair_dec : forall p q : node * node, {p = q} + {p <> q})
    by (decide equality; apply string_dec).
  rewrite combined_graph_unfold. split.
  - intros H.
    destruct (in_dec pair_dec (x, y) (map ends conns)) as [Hc|Hc]; [now left|].
    destruct (in_dec pair_dec (x, y) (map fst (edges G_car))) as [He|He];
      [right; now left|].
    right; right.
    rewrite has_edge_edge_data, add_connection_edges_untouched in H.
    + rewrite add_edges_from_untouched in H by exact He.
      rewrite edge_data_add_nodes_from in H by apply graph_ok_pt_side.
      destruct (edge_data (pt_side G_pt) x y) as [d|] eqn:E; [|discriminate].
      destruct (Horig _ _ _ E) as [H1|(_ & H1 & H2)].
      * left. now rewrite has_edge_edge_data, H1.
      * right. eauto.
    + intros c Hin E. apply Hc. apply in_map_iff. exists c. split; [exact E | exact Hin].
  - intros [H|[H|H]].
    + apply has_edge_add_connection_edges. now right.
    + apply has_edge_add_connection_edges. left.
      apply has_edge_add_edges_from. now right.
    + apply has_edge_add_connection_edges. left.
      apply has_edge_add_edges_from. left.
      rewrite has_edge_add_nodes_from by apply graph_ok_pt_side.
      destruct H as [H|(d & Hd & Hr)].
      * rewrite has_edge_edge_data in H |- *.
        destruct (edge_data G_pt x y) as [d|] eqn:E; [|discriminate].
        now rewrite (Hkeep _ _ _ E).
      * now apply (Hcov _ _ _ Hd).
Qed.

(** An edge of the car graph for which no connection is given is in the
    combined graph with every attribute the car graph gave it; when the PT
    side has no edge on the pair, it carries exactly the car graph's
    data. *)
Theorem car_edges_merged G_pt G_car conns x y d :
  wf_graph G_pt = true -> wf_graph G_car = true ->
  edge_data G_car x y = Some d ->
  ~ In (x, y) (map ends conns) ->
  exists d',
    edge_data (Merge.create_combined_graph G_pt G_car conns) x y = Some d'
    /\ (forall k val, Dict.get k d = Some val -> Dict.get k d' = Some val)
    /\ (has_edge G_pt x y = false ->
        (forall d0, edge_data G_pt y x = Some d0 -> reversible d0 = false) ->
        d' = d).
Proof.
  intros Hwf Hwfc Hd Hc.
  pose proof (wf_graph_ok _ Hwf) as Hok. pose proof (wf_graph_ok _ Hwfc) as Hcar.
  destruct (pt_side_edges G_pt Hok) as (Hkeep & Horig & Hcov).
  assert (Hnd : Dict.nodup_keys d = true)
    by (destruct Hcar as (_ & _ & H3 & _); apply (H3 _ _ _ Hd)).
  pose proof (edge_data_In_edges _ _ _ _ Hd) as Hin.
  destruct (NoDup_map_split fst _ _ (NoDup_edge_pairs _ Hcar) Hin)
    as (es1 & es2 & Es & H1 & H2).
  rewrite combined_graph_unfold.
  rewrite add_connection_edges_untouched.
  2:{ intros c Hcin E. apply Hc. apply in_map_iff. exists c. split; [exact E | exact Hcin]. }
  rewrite Es, add_edges_from_once by assumption.
  rewrite edge_data_add_nodes_from by apply graph_ok_pt_side.
  eexists. split; [reflexivity|]. split.
  - intros k val Hk. rewrite get_update.
    now rewrite (get_rev_nodup d k val Hnd Hk).
  - intros Hno Hrev.
    destruct (edge_data (pt_side G_pt) x y) as [d1|] eqn:E1; [|now apply update_nil].
    destruct (Horig _ _ _ E1) as [H|(_ & H & Hr)].
    + rewrite has_edge_edge_data, H in Hno. discriminate.
    + rewrite (Hrev _ H) in Hr. discriminate.
Qed.

(** ** merge_graphs.py: the nodes of the combined graph *)

Lemma nodes_in_adj_touch_node G n : nodes_in_adj G -> nodes_in_adj (touch_node G n).
Proof.
  intros H m. unfold touch_node. destruct (Dict.mem n (adj G)); [apply H|]. simpl.
  rewrite !mem_set. destruct (n =? m)%string; [reflexivity | apply H].
Qed.

Lemma nodes_in_adj_add_edge G a b data : nodes_in_adj G -> nodes_in_adj (add_edge G a b data).
Proof.
  intros H m Hm. unfold add_edge in *; simpl in *. rewrite mem_set.
  rewrite (nodes_in_adj_touch_node _ b (nodes_in_adj_touch_node _ a H) m Hm).
  apply orb_true_r.
Qed.

Lemma nodes_in_adj_add_node G n data : nodes_in_adj G -> nodes_in_adj (add_node G n data).
Proof.
  intros H m. unfold add_node. destruct (Dict.mem n (node_ G)) eqn:E; simpl.
  - rewrite mem_set. destruct (String.eqb_spec n m) as [<-|]; simpl; [|apply H].
    intros _. now apply H.
  - rewrite !mem_set. destruct (n =? m)%string; simpl; [reflexivity | apply H].
Qed.

Lemma nodes_in_adj_pt_side G_pt : nodes_in_adj (pt_side G_pt).
Proof.
  unfold pt_side, Merge.backfill_transport. apply fold_left_invariant.
  - intros s u Hs. apply fold_left_invariant; [|exact Hs].
    intros s' [v d] Hs'; simpl.
    destruct (Merge.is_transport d && negb (has_edge s' v u));
      [now apply nodes_in_adj_add_edge | exact Hs'].
  - unfold Merge.backfill_walking. apply fold_left_invariant.
    + intros s [[a b] d] Hs; simpl.
      destruct (is_pt_walk d && negb (has_edge s b a));
        [now apply nodes_in_adj_add_edge | exact Hs].
    + unfold Merge.add_pt_network, add_edges_from, add_nodes_from.
      apply fold_left_invariant; [intros; now apply nodes_in_adj_add_edge|].
      apply fold_left_invariant; [intros; now apply nodes_in_adj_add_node|].
      intros n Hn. discriminate.
Qed.

Lemma nodes_in_adj_networks G_pt G_car : nodes_in_adj (Merge.networks G_pt G_car).
Proof.
  unfold Merge.networks, Merge.add_car_network, add_edges_from, add_nodes_from.
  apply fold_left_invariant; [intros; now apply nodes_in_adj_add_edge|].
  apply fold_left_invariant; [intros; now apply nodes_in_adj_add_node|].
  apply nodes_in_adj_pt_side.
Qed.

Lemma get_node_touch_node G n m :
  graph_ok G -> nodes_in_adj G ->
  Dict.get m (node_ (touch_node G n)) =
  match Dict.get m (node_ G) with
  | Some a => Some a
  | None => if (n =? m)%string then Some [] else None
  end.
Proof.
  intros (_ & _ & _ & H4) H. unfold touch_node.
  destruct (Dict.mem n (adj G)) eqn:E; simpl.
  - destruct (Dict.get m (node_ G)) eqn:Em; [reflexivity|].
    destruct (String.eqb_spec n m) as [->|]; [|reflexivity].
    apply H4 in E. unfold Dict.mem in E. now rewrite Em in E.
  - rewrite get_set. destruct (String.eqb_spec n m) as [->|].
    + destruct (Dict.get m (node_ G)) eqn:Em; [|reflexivity].
      rewrite H in E; [discriminate|]. unfold Dict.mem. now rewrite Em.
    + now destruct (Dict.get m (node_ G)).
Qed.

Lemma get_node_add_edge G a b data m :
  graph_ok G -> nodes_in_adj G ->
  Dict.get m (node_ (add_edge G a b data)) =
  match Dict.get m (node_ G) with
  | Some x => Some x
  | None => if (a =? m)%string || (b =? m)%string then Some [] else None
  end.
Proof.
  intros Hok H. unfold add_edge; simpl.
  rewrite get_node_touch_node
    by (try apply graph_ok_touch_node; try apply nodes_in_adj_touch_node; assumption).
  rewrite get_node_touch_node by assumption.
  destruct (Dict.get m (node_ G)); [reflexivity|].
  destruct (a =? m)%string; simpl; [reflexivity|]. now destruct (b =? m)%string.
Qed.

Lemma get_node_add_node G n data m :
  Dict.get m (node_ (add_node G n data)) =
  if (n =? m)%string
  then Some (Dict.update (match Dict.get n (node_ G) with Some a => a | None => [] end)
                         data)
  else Dict.get m (node_ G).
Proof.
  unfold add_node. destruct (Dict.mem n (node_ G)) eqn:E; simpl.
  - rewrite get_set. reflexivity.
  - rewrite get_set_same, !get_set.
    destruct (n =? m)%string; [|reflexivity].
    unfold Dict.mem in E. now destruct (Dict.get n (node_ G)).
Qed.

Lemma get_node_add_nodes_from : forall ns G m,
  Dict.nodup_keys ns = true ->
  Dict.get m (node_ (add_nodes_from G ns)) =
  match Dict.get m ns with
  | Some a =>
      Some (Dict.update (match Dict.get m (node_ G) with Some o => o | None => [] end) a)
  | None => Dict.get m (node_ G)
  end.
Proof.
  unfold add_nodes_from.
  induction ns as [|[n a] r IH]; simpl; intros G m Hnd; [reflexivity|].
  apply andb_true_iff in Hnd. destruct Hnd as [Hn Hr].
  rewrite IH by exact Hr. rewrite !get_node_add_node. rewrite (String.eqb_sym m n).
  destruct (String.eqb_spec n m) as [->|Hne]; [|reflexivity].
  apply negb_true_iff in Hn. unfold Dict.mem in Hn.
  now destruct (Dict.get m r).
Qed.

Lemma mem_adj_add_node G n data m :
  Dict.mem m (node_ G) = true \/ n = m ->
  nodes_in_adj G -> Dict.mem m (adj (add_node G n data)) = true.
Proof.
  intros Hm H. unfold add_node. destruct (Dict.mem n (node_ G)) eqn:E; simpl.
  - destruct Hm as [Hm| <-]; now apply H.
  - rewrite mem_set. destruct Hm as [Hm| ->]; [|now rewrite String.eqb_refl].
    rewrite (H _ Hm). apply orb_true_r.
Qed.

(** After [add_nodes_from] every listed node, and every node there was,
    has its entry in [_adj]. *)
Lemma mem_adj_add_nodes_from : forall ns G m,
  nodes_in_adj G ->
  Dict.mem m (node_ G) = true \/ In m (map fst ns) ->
  Dict.mem m (adj (add_nodes_from G ns)) = true.
Proof.
  unfold add_nodes_from.
  induction ns as [|[n a] r IH]; simpl; intros G m H Hm.
  - destruct Hm as [Hm|[]]. now apply H.
  - apply IH; [now apply nodes_in_adj_add_node|].
    destruct Hm as [Hm|[->|Hm]]; [left|left|now right].
    + unfold Dict.mem. rewrite get_node_add_node.
      destruct (n =? m)%string; [reflexivity|]. exact Hm.
    + unfold Dict.mem. now rewrite get_node_add_node, String.eqb_refl.
Qed.

(** Edges between nodes of the graph leave the nodes as they are. *)
Lemma node_add_edges_from es : forall G,
  (forall a b d, In (a, b, d) es ->
     Dict.mem a (adj G) = true /\ Dict.mem b (adj G) = true) ->
  node_ (add_edges_from G es) = node_ G.
Proof.
  unfold add_edges_from.
  induction es as [|[[a b] d] es IH]; simpl; intros G H; [reflexivity|].
  destruct (H a b d (or_introl eq_refl)) as [Ha Hb].
  rewrite IH.
  - now apply node_add_edge_same.
  - intros a' b' d' Hin. destruct (H a' b' d' (or_intror Hin)).
    split; now apply mem_adj_add_edge_mono.
Qed.

Lemma edge_ends_are_nodes G a b d :
  graph_ok G -> In (a, b, d) (edges G) ->
  Dict.mem a (node_ G) = true /\ Dict.mem b (node_ G) = true.
Proof.
  intros Hok Hin. apply (In_edges_edge_data _ _ _ _ Hok) in Hin.
  split; [eapply edge_source_is_node | eapply edge_target_is_node]; eauto.
Qed.

Lemma wf_graph_node_attrs G :
  wf_graph G = true ->
  Dict.nodup_keys (node_ G) = true
  /\ forall n a, Dict.get n (node_ G) = Some a -> Dict.nodup_keys a = true.
Proof.
  unfold wf_graph. rewrite !andb_true_iff.
  intros [[[[[Hn Ha] _] _] _] _]. split; [exact Hn|].
  rewrite forallb_forall in Ha. intros n a Hg. apply (Ha (n, a)). now apply get_In.
Qed.

Lemma get_node_add_connection_edges conns : forall g m,
  graph_ok g -> nodes_in_adj g ->
  Dict.get m (node_ (Merge.add_connection_edges conns g)) =
  match Dict.get m (node_ g) with
  | Some x => Some x
  | None => if existsb (names m) conns then Some [] else None
  end.
Proof.
  unfold Merge.add_connection_edges.
  induction conns as [|c conns IH]; simpl; intros g m Hok H.
  - now destruct (Dict.get m (node_ g)).
  - rewrite IH by (try apply graph_ok_add_edge; try apply nodes_in_adj_add_edge; assumption).
    rewrite get_node_add_edge by assumption.
    destruct (Dict.get m (node_ g)); [reflexivity|].
    unfold names at 2. destruct (_ || _)%bool; simpl; [reflexivity|].
    reflexivity.
Qed.

(** The nodes of the PT side are the nodes of the PT graph with their
    attributes. *)
Lemma get_node_pt_side G_pt m :
  wf_graph G_pt = true ->
  Dict.get m (node_ (pt_side G_pt)) = Dict.get m (node_ G_pt).
Proof.
  intros Hwf. pose proof (wf_graph_ok _ Hwf) as Hok.
  destruct (wf_graph_node_attrs _ Hwf) as [Hnd Hattrs].
  destruct (backfill_walking_backfilled G_pt Hok) as (Wok & Wn & _).
  destruct (backfill_transport_backfilled _ Wok) as (_ & Tn & _).
  unfold pt_side. rewrite Tn, Wn. unfold Merge.add_pt_network.
  rewrite node_add_edges_from.
  - rewrite get_node_add_nodes_from by exact Hnd. unfold nodes. simpl.
    destruct (Dict.get m (node_ G_pt)) as [a|] eqn:E; [|reflexivity].
    now rewrite update_nil by apply (Hattrs _ _ E).
  - intros a b d Hin. destruct (edge_ends_are_nodes _ _ _ _ Hok Hin) as [Ha Hb].
    split; apply mem_adj_add_nodes_from;
      try (intros n Hn; discriminate); right; apply mem_In_keys; assumption.
Qed.

(** The attributes of a node of the combined graph.  A node of both graphs
    has the PT attributes updated with those of the car graph; a node of
    one graph has that graph's attributes; a node of neither that a
    connection names is there with no attribute, so without lat and lon;
    and there is no other node. *)
Theorem merge_node_attrs G_pt G_car conns m :
  wf_graph G_pt = true -> wf_graph G_car = true ->
  Dict.get m (node_ (Merge.create_combined_graph G_pt G_car conns)) =
  match Dict.get m (node_ G_car), Dict.get m (node_ G_pt) with
  | Some c, Some p => Some (Dict.update p c)
  | Some c, None => Some c
  | None, Some p => Some p
  | None, None => if existsb (names m) conns then Some [] else None
  end.
Proof.
  intros Hpt Hcar.
  pose proof (wf_graph_ok _ Hcar) as Hok.
  destruct (wf_graph_node_attrs _ Hcar) as [Hnd Hattrs].
  unfold Merge.create_combined_graph.
  rewrite get_node_add_connection_edges
    by (apply graph_ok_networks || apply nodes_in_adj_networks).
  unfold Merge.networks, Merge.add_car_network. fold (pt_side G_pt).
  pose proof (nodes_in_adj_pt_side G_pt) as Hin.
  rewrite node_add_edges_from.
  - rewrite get_node_add_nodes_from by exact Hnd. unfold nodes.
    rewrite get_node_pt_side by exact Hpt.
    destruct (Dict.get m (node_ G_car)) as [c|] eqn:Ec;
      destruct (Dict.get m (node_ G_pt)) as [p|] eqn:Ep; try reflexivity.
    now rewrite update_nil by apply (Hattrs _ _ Ec).
  - intros a b d Hedge. destruct (edge_ends_are_nodes _ _ _ _ Hok Hedge) as [Ha Hb].
    split; apply mem_adj_add_nodes_from; try exact Hin;
      right; apply mem_In_keys; assumption.
Qed.

(** ** pt_to_pt.py: running the connector again *)

Lemma same_edges_add_edge g1 g2 a b data :
  same_edges g1 g2 -> same_edges (add_edge g1 a b data) (add_edge g2 a b data).
Proof. intros H u v. now rewrite !edge_data_add_edge, (H a b), (H u v). Qed.

(** A loop run from two related states on bodies that keep the states
    related ends in related states. *)
Lemma for_each_related {A S1 S2 : Type} (R : S1 -> S2 -> Prop)
      (body1 : S1 -> A -> result S1) (body2 : S2 -> A -> result S2) :
  (forall s1 s2 x s1', R s1 s2 -> body1 s1 x = Ok s1' ->
     exists s2', body2 s2 x = Ok s2' /\ R s1' s2') ->
  forall xs s1 s2 s1', R s1 s2 -> for_each body1 xs s1 = Ok s1' ->
    exists s2', for_each body2 xs s2 = Ok s2' /\ R s1' s2'.
Proof.
  intros Hstep xs. induction xs as [|x xs IH]; simpl; intros s1 s2 s1' HR H.
  - inversion H; subst. eauto.
  - apply bind_ok in H. destruct H as (t1 & Hb & H).
    destruct (Hstep _ _ _ _ HR Hb) as (t2 & Hb2 & HR2).
    rewrite Hb2. simpl. eauto.
Qed.

Lemma visit_related geo max node_ids coords i node_id ci st1 st2 j st1' :
  same_state st1 st2 ->
  PtToPt.visit geo max node_ids coords i node_id ci st1 j = Ok st1' ->
  exists st2',
    PtToPt.visit geo max node_ids coords i node_id ci st2 j = Ok st2'
    /\ same_state st1' st2'.
Proof.
  intros (He & Hs & Hp). unfold PtToPt.visit.
  destruct (i =? j)%nat; [intros H; inversion H; subst; exists st2; repeat split; auto|].
  destruct (from_option IndexError (nth_error node_ids j)) as [nb|e]; simpl;
    [|discriminate].
  destruct (from_option IndexError (nth_error coords j)) as [cj|e]; simpl;
    [|discriminate].
  destruct (geodesic_m geo ci cj) as [dist|e]; simpl; [|discriminate].
  destruct (Qgtb dist max).
  { intros H; inversion H; subst. eexists. split; [reflexivity|].
    repeat split; simpl; auto; congruence. }
  rewrite !has_edge_edge_data, (He node_id nb).
  destruct (edge_data (PtToPt.ls_graph st2) node_id nb).
  { intros H; inversion H; subst. eexists. split; [reflexivity|].
    repeat split; simpl; auto; congruence. }
  intros H; inversion H; subst. eexists. split; [reflexivity|].
  repeat split; simpl; try congruence.
  unfold PtToPt._add_walking_edge. now apply same_edges_add_edge, same_edges_add_edge.
Qed.

Lemma add_connections_related geo max Ga Gb node_ids coords Ga' s :
  same_edges Ga Gb ->
  PtToPt.add_connections geo max Ga node_ids coords = Ok (Ga', s) ->
  exists Gb',
    PtToPt.add_connections geo max Gb node_ids coords = Ok (Gb', s)
    /\ same_edges Ga' Gb'.
Proof.
  intros He. unfold PtToPt.add_connections.
  destruct (KDTree coords) as [pts|e]; simpl; [|discriminate].
  intros H. apply bind_ok in H. destruct H as (sta & Hloop & H).
  inversion H; subst; clear H.
  destruct (for_each_related same_state
              (PtToPt.check_node geo max node_ids pts (PtToPt.search_radius geo max pts))
              (PtToPt.check_node geo max node_ids pts (PtToPt.search_radius geo max pts)))
    with (xs := enumerate node_ids)
         (s1 := PtToPt.mkLoop Ga (mkStats 0 0 0 0 0) [])
         (s2 := PtToPt.mkLoop Gb (mkStats 0 0 0 0 0) [])
         (s1' := sta) as (stb & Hb & (He' & Hs' & Hp')).
  - intros s1 s2 [i node_id] s1' HR. unfold PtToPt.check_node; simpl.
    destruct (from_option IndexError (nth_error pts i)) as [ci|e]; simpl; [|discriminate].
    apply for_each_related.
    + intros t1 t2 j t1'. apply visit_related.
    + destruct HR as (H1 & H2 & H3). repeat split; simpl; auto; congruence.
  - repeat split; auto.
  - exact Hloop.
  - exists (PtToPt.ls_graph stb). rewrite Hb. simpl. rewrite Hs', Hp'. auto.
Qed.

(** The connector never takes a node out of [_adj]. *)
Lemma add_walking_edges_nodes_in_adj geo max G G' rep :
  graph_ok G -> NoDup (map fst (node_ G)) -> nodes_in_adj G ->
  PtToPt.add_walking_edges geo max G = Ok (G', rep) ->
  nodes_in_adj G'.
Proof.
  intros Hok Hnd Hmem Hrun n Hn.
  destruct (add_walking_edges_footprint _ _ _ _ _ Hok Hnd Hmem Hrun) as (Hnodes & _).
  rewrite Hnodes in Hn. apply Hmem in Hn. revert Hrun.
  apply (add_walking_edges_keeps geo max (fun g => Dict.mem n (adj g) = true)).
  - intros g a b dist _ Hg. unfold PtToPt._add_walking_edge.
    now apply mem_adj_add_edge_mono, mem_adj_add_edge_mono.
  - intros G1 Hc. eapply mem_adj_cleared; eauto.
Qed.

(** A second run of the connector reproduces the graph and the statistics
    of the first whenever the first run wrote over no edge of another
    kind: it returns, with the same report, a graph with the same nodes
    and, pair by pair, the same edge data. *)
Theorem second_run_reproduces geo max G G1 rep :
  wf_graph G = true ->
  PtToPt.add_walking_edges geo max G = Ok (G1, rep) ->
  (forall u v d, edge_data G u v = Some d -> is_pt_walk d = false ->
                 edge_data G1 u v = Some d) ->
  exists G2,
    PtToPt.add_walking_edges geo max G1 = Ok (G2, rep)
    /\ node_ G2 = node_ G1
    /\ forall u v, edge_data G2 u v = edge_data G1 u v.
Proof.
  intros Hwf Hrun Hkept.
  pose proof (wf_graph_ok _ Hwf) as Hok.
  destruct (wf_graph_nodes _ Hwf) as [Hnd Hmem].
  pose proof (add_walking_edges_graph_ok geo max _ _ _ Hok Hrun) as Hok1.
  pose proof (add_walking_edges_nodes_in_adj _ _ _ _ _ Hok Hnd Hmem Hrun) as Hmem1.
  destruct (add_walking_edges_footprint _ _ _ _ _ Hok Hnd Hmem Hrun)
    as (Hnodes & Hold & _ & _).
  assert (Hnd1 : NoDup (map fst (node_ G1))) by now rewrite Hnodes.
  destruct (clear_walking_edges_spec G Hok) as (C & Hc & _ & HnC & HeC).
  destruct (clear_walking_edges_spec G1 Hok1) as (C' & Hc' & _ & HnC' & HeC').
  assert (Hsame : same_edges C C').
  { intros u v. rewrite HeC, HeC'.
    destruct (edge_data G u v) as [d|] eqn:E.
    - destruct (is_pt_walk d) eqn:Hw.
      + destruct (edge_data G1 u v) as [d1|] eqn:E1; [|reflexivity].
        destruct (is_pt_walk d1) eqn:Hw1; [reflexivity|].
        pose proof (Hold _ _ _ E1 Hw1). congruence.
      + now rewrite (Hkept _ _ _ E Hw), Hw.
    - destruct (edge_data G1 u v) as [d1|] eqn:E1; [|reflexivity].
      destruct (is_pt_walk d1) eqn:Hw1; [reflexivity|].
      pose proof (Hold _ _ _ E1 Hw1). congruence. }
  assert (Hstops : PtToPt.extract_pt_nodes C' = PtToPt.extract_pt_nodes C).
  { unfold PtToPt.extract_pt_nodes, nodes. now rewrite HnC', HnC, Hnodes. }
  assert (Hrun2 : exists G2, PtToPt.add_walking_edges geo max G1 = Ok (G2, rep)
                             /\ same_edges G1 G2).
  { unfold PtToPt.add_walking_edges in Hrun |- *.
    rewrite Hc in Hrun. rewrite Hc'. simpl in Hrun |- *. rewrite Hstops.
    destruct (List.length (PtToPt.extract_pt_nodes C) =? 0)%nat.
    - inversion Hrun; subst. exists C'. split; [reflexivity | exact Hsame].
    - destruct (PtToPt.build_spatial_index (PtToPt.extract_pt_nodes C)) as [ix|e];
        simpl in Hrun |- *; [|discriminate].
      apply bind_ok in Hrun. destruct Hrun as ([Ga s] & Hadd & Hrun).
      inversion Hrun; subst; clear Hrun.
      destruct (add_connections_related _ _ _ _ _ _ _ _ Hsame Hadd) as (Gb & Hb & Hs).
      exists Gb. rewrite Hb. simpl. split; [reflexivity | exact Hs]. }
  destruct Hrun2 as (G2 & Hrun2 & Hs2). exists G2. split; [exact Hrun2|]. split.
  - now destruct (add_walking_edges_footprint _ _ _ _ _ Hok1 Hnd1 Hmem1 Hrun2).
  - intros u v. symmetry. apply Hs2.
Qed.

(** ** merge_graphs.py: the routing check *)

(** The routing check picks the node at position 100 of each kind, so it
    raises [IndexError], and nothing else, exactly on a graph that has a
    road node and a PT node but fewer than 101 of one kind; on a graph
    without road nodes or without PT nodes it returns before choosing. *)
Theorem routing_check_raises G :
  (test_multimodal_path G = Raise IndexError
   <-> car_nodes G <> [] /\ pt_nodes G <> []
       /\ (List.length (car_nodes G) <= 100 \/ List.length (pt_nodes G) <= 100)%nat)
  /\ (forall e, test_multimodal_path G = Raise e -> e = IndexError)
  /\ (test_multimodal_path G = Ok None <-> car_nodes G = [] \/ pt_nodes G = []).
Proof.
  unfold test_multimodal_path.
  destruct (car_nodes G) as [|c cs] eqn:Ec.
  { split; [|split].
    - split; [discriminate | intros (H & _); congruence].
    - discriminate.
    - split; auto. }
  destruct (pt_nodes G) as [|p ps] eqn:Ep.
  { split; [|split].
    - split; [discriminate | intros (_ & H & _); congruence].
    - discriminate.
    - split; auto. }
  remember (nth_error (c :: cs) 100) as os eqn:Es.
  remember (nth_error (p :: ps) 100) as ot eqn:Et.
  symmetry in Es, Et.
  destruct os as [s|]; cbn [bind from_option].
  - destruct ot as [t|]; cbn [bind from_option].
    + split; [|split].
      * split; [discriminate|]. intros (_ & _ & [H|H]).
        -- apply nth_error_None in H. congruence.
        -- apply nth_error_None in H. congruence.
      * discriminate.
      * split; [discriminate | intros [H|H]; discriminate].
    + split; [|split].
      * split; [|reflexivity]. intros _. split; [discriminate|]. split; [discriminate|].
        right. now apply nth_error_None.
      * intros e H. now inversion H.
      * split; [discriminate | intros [H|H]; discriminate].
  - split; [|split].
    + split; [|reflexivity]. intros _. split; [discriminate|]. split; [discriminate|].
      left. now apply nth_error_None.
    + intros e H. now inversion H.
    + split; [discriminate | intros [H|H]; discriminate].
Qed.

(** ** The further properties on the worked inputs *)

Lemma closest_first_minimal_witness :
  CarToPt.closest grid_geometry MAX_WALKING_DISTANCE_M ["road_1"; "road_2"]
    [(-37.8180, 144.9670); (-37.8190, 144.9680)] (-37.8183, 144.9671) [0; 1]%nat
  = Ok (Some ("road_1", distance grid_link))
  /\ exists pre idx post,
       [0; 1]%nat = pre ++ idx :: post
       /\ nth_error ["road_1"; "road_2"] idx = Some "road_1"
       /\ candidate_at grid_geometry [(-37.8180, 144.9670); (-37.8190, 144.9680)]
            (-37.8183, 144.9671) idx (distance grid_link)
       /\ distance grid_link <= MAX_WALKING_DISTANCE_M
       /\ (forall i d, In i pre ->
             candidate_at grid_geometry [(-37.8180, 144.9670); (-37.8190, 144.9680)]
               (-37.8183, 144.9671) i d ->
             d <= MAX_WALKING_DISTANCE_M -> distance grid_link < d)
       /\ (forall i d, In i post ->
             candidate_at grid_geometry [(-37.8180, 144.9670); (-37.8190, 144.9680)]
               (-37.8183, 144.9671) i d ->
             d <= MAX_WALKING_DISTANCE_M -> distance grid_link <= d).
Proof.
  assert (H : CarToPt.closest grid_geometry MAX_WALKING_DISTANCE_M ["road_1"; "road_2"]
                [(-37.8180, 144.9670); (-37.8190, 144.9680)] (-37.8183, 144.9671)
                [0; 1]%nat
              = Ok (Some ("road_1", distance grid_link))) by (vm_compute; reflexivity).
  split; [exact H|].
  exact (closest_first_minimal grid_geometry MAX_WALKING_DISTANCE_M _ _ _ _ _ H).
Defined.

Lemma station_tally_witness :
  for_each (CarToPt.connect_station grid_geometry MAX_WALKING_DISTANCE_M plain_roads
              ["road_1"; "road_2"] [(-37.8180, 144.9670); (-37.8190, 144.9680)])
           [near_station] (CarToPt.mkTally [] 0 0)
  = Ok (CarToPt.mkTally [grid_link] 1 0)
  /\ List.length (CarToPt.connections (CarToPt.mkTally [grid_link] 1 0)) = 1%nat
  /\ (1 + 0 = List.length [near_station])%nat.
Proof.
  assert (H : for_each (CarToPt.connect_station grid_geometry MAX_WALKING_DISTANCE_M
                          plain_roads ["road_1"; "road_2"]
                          [(-37.8180, 144.9670); (-37.8190, 144.9680)])
                       [near_station] (CarToPt.mkTally [] 0 0)
              = Ok (CarToPt.mkTally [grid_link] 1 0)) by (vm_compute; reflexivity).
  split; [exact H|].
  exact (station_tally grid_geometry MAX_WALKING_DISTANCE_M _ _ _ _ _ H).
Defined.

Lemma find_connections_records_witness :
  CarToPt.find_connections grid_geometry MAX_WALKING_DISTANCE_M plain_roads
    ["road_1"; "road_2"] [(-37.8180, 144.9670); (-37.8190, 144.9680)] [near_station]
  = Ok [grid_link]
  /\ subseq (map station_id [grid_link]) (map st_id [near_station])
  /\ exists station,
       In station [near_station]
       /\ In (road_node grid_link) ["road_1"; "road_2"]
       /\ record_for plain_roads station (road_node grid_link) (distance grid_link)
                     grid_link.
Proof.
  assert (H : CarToPt.find_connections grid_geometry MAX_WALKING_DISTANCE_M plain_roads
                ["road_1"; "road_2"] [(-37.8180, 144.9670); (-37.8190, 144.9680)]
                [near_station] = Ok [grid_link]) by (vm_compute; reflexivity).
  destruct (find_connections_records grid_geometry MAX_WALKING_DISTANCE_M _ _ _ _ _ H)
    as (_ & H2 & _ & H4).
  split; [exact H|]. split; [exact H2|]. apply H4. now left.
Defined.


Lemma connect_then_merge_witness :
  NoDup (map st_id [near_station])
  /\ CarToPt.connect grid_geometry MAX_WALKING_DISTANCE_M plain_roads [near_station]
     = Ok [grid_link]
  /\ exists d,
       edge_data (Merge.create_combined_graph station_graph plain_roads [grid_link])
                 "road_1" "pt_S" = Some d
       /\ Dict.get "mode" d = Some (VStr "walk")
       /\ Dict.get "edge_type" d = Some (VStr "car_to_pt_transfer")
       /\ Dict.get "distance" d = Some (VNum (distance grid_link))
       /\ Dict.get "time" d = Some (VNum (distance grid_link / WALKING_SPEED))
       /\ distance grid_link <= MAX_WALKING_DISTANCE_M.
Proof.
  assert (Hnd : NoDup (map st_id [near_station]))
    by (constructor; [intros [] | constructor]).
  assert (H : CarToPt.connect grid_geometry MAX_WALKING_DISTANCE_M plain_roads
                [near_station] = Ok [grid_link]) by (vm_compute; reflexivity).
  split; [exact Hnd|]. split; [exact H|].
  apply (connect_then_merge grid_geometry MAX_WALKING_DISTANCE_M station_graph
           plain_roads [near_station] [grid_link] grid_link Hnd H).
  now left.
Defined.

Lemma walking_stats_witness :
  PtToPt.add_walking_edges grid_geometry MAX_WALKING_DISTANCE_M three_stops
  = Ok (three_stops_walked, StatsReport (mkStats 2 1 3 1 0))
  /\ (2 = 2 * 1)%nat
  /\ 3%nat = List.length (PtToPt.extract_pt_nodes three_stops)
  /\ (0 < 3)%nat.
Proof.
  assert (H : PtToPt.add_walking_edges grid_geometry MAX_WALKING_DISTANCE_M three_stops
              = Ok (three_stops_walked, StatsReport (mkStats 2 1 3 1 0)))
    by (vm_compute; reflexivity).
  split; [exact H|].
  exact (walking_stats grid_geometry MAX_WALKING_DISTANCE_M _ _ _ H).
Defined.

Lemma add_walking_edges_total_witness :
  wf_graph three_stops = true
  /\ as_float_rows (stop_rows three_stops)
     = Some [(-37.81, 144.96); (-37.81, 144.9605); (-37.82, 144.96)]
  /\ exists G' rep,
       PtToPt.add_walking_edges grid_geometry MAX_WALKING_DISTANCE_M three_stops
       = Ok (G', rep).
Proof.
  split; [reflexivity|]. split; [reflexivity|].
  apply (add_walking_edges_total grid_geometry MAX_WALKING_DISTANCE_M three_stops
           [(-37.81, 144.96); (-37.81, 144.9605); (-37.82, 144.96)]).
  - reflexivity.
  - reflexivity.
  - apply grid_geometry_behaves.
Defined.

Lemma connector_keeps_the_rest_witness :
  wf_graph three_stops = true
  /\ PtToPt.add_walking_edges grid_geometry MAX_WALKING_DISTANCE_M three_stops
     = Ok (three_stops_walked, StatsReport (mkStats 2 1 3 1 0))
  /\ node_ three_stops_walked = node_ three_stops
  /\ exists d',
       edge_data three_stops_walked "pt_B" "pt_C" = Some d'
       /\ (d' = train_edge \/ is_pt_walk d' = true).
Proof.
  assert (Hwf : wf_graph three_stops = true) by reflexivity.
  assert (H : PtToPt.add_walking_edges grid_geometry MAX_WALKING_DISTANCE_M three_stops
              = Ok (three_stops_walked, StatsReport (mkStats 2 1 3 1 0)))
    by (vm_compute; reflexivity).
  destruct (connector_keeps_the_rest grid_geometry MAX_WALKING_DISTANCE_M _ _ _ Hwf H)
    as (H1 & _ & H3).
  split; [exact Hwf|]. split; [exact H|]. split; [exact H1|].
  apply (H3 "pt_B" "pt_C" train_edge); reflexivity.
Defined.

Lemma walking_edges_join_distinct_stops_witness :
  wf_graph three_stops = true
  /\ PtToPt.add_walking_edges grid_geometry MAX_WALKING_DISTANCE_M three_stops
     = Ok (three_stops_walked, StatsReport (mkStats 2 1 3 1 0))
  /\ edge_data three_stops_walked "pt_B" "pt_A"
     = Some (PtToPt.walking_edge_attrs grid_AB)
  /\ is_pt_walk (PtToPt.walking_edge_attrs grid_AB) = true
  /\ "pt_B" <> "pt_A"
  /\ In "pt_B" (map fst (PtToPt.extract_pt_nodes three_stops))
  /\ In "pt_A" (map fst (PtToPt.extract_pt_nodes three_stops)).
Proof.
  assert (Hwf : wf_graph three_stops = true) by reflexivity.
  assert (H : PtToPt.add_walking_edges grid_geometry MAX_WALKING_DISTANCE_M three_stops
              = Ok (three_stops_walked, StatsReport (mkStats 2 1 3 1 0)))
    by (vm_compute; reflexivity).
  assert (He : edge_data three_stops_walked "pt_B" "pt_A"
               = Some (PtToPt.walking_edge_attrs grid_AB)) by reflexivity.
  assert (Hw : is_pt_walk (PtToPt.walking_edge_attrs grid_AB) = true) by reflexivity.
  split; [exact Hwf|]. split; [exact H|]. split; [exact He|]. split; [exact Hw|].
  exact (walking_edges_join_distinct_stops grid_geometry MAX_WALKING_DISTANCE_M
           _ _ _ _ _ _ Hwf H He Hw).
Defined.

Lemma transport_edges_reversed_witness :
  wf_graph three_stops = true
  /\ edge_data three_stops "pt_B" "pt_C" = Some train_edge
  /\ Merge.is_transport train_edge = true
  /\ apart three_stops plain_roads [link_to_A] = true
  /\ has_edge (Merge.create_combined_graph three_stops plain_roads [link_to_A])
              "pt_C" "pt_B" = true
  /\ edge_data (Merge.create_combined_graph three_stops plain_roads [link_to_A])
               "pt_B" "pt_C" = Some train_edge
  /\ edge_data (Merge.create_combined_graph three_stops plain_roads [link_to_A])
               "pt_C" "pt_B" = Some train_edge.
Proof.
  assert (Hwf : wf_graph three_stops = true) by reflexivity.
  assert (He : edge_data three_stops "pt_B" "pt_C" = Some train_edge) by reflexivity.
  assert (Ht : Merge.is_transport train_edge = true) by reflexivity.
  assert (Hap : apart three_stops plain_roads [link_to_A] = true) by reflexivity.
  destruct (transport_edges_reversed three_stops plain_roads [link_to_A] _ _ _ Hwf He Ht)
    as (H1 & H2).
  destruct (H2 Hap) as (H3 & H4).
  split; [exact Hwf|]. split; [exact He|]. split; [exact Ht|]. split; [exact Hap|].
  split; [exact H1|]. split; [exact H3 | exact H4].
Defined.

Lemma merge_edge_set_witness :
  wf_graph three_stops = true
  /\ (has_edge (Merge.create_combined_graph three_stops plain_roads [link_to_A])
               "pt_C" "pt_B" = true
      <-> (In ("pt_C", "pt_B") (map ends [link_to_A])
           \/ In ("pt_C", "pt_B") (map fst (edges plain_roads))
           \/ has_edge three_stops "pt_C" "pt_B" = true
           \/ exists d, edge_data three_stops "pt_B" "pt_C" = Some d
                        /\ reversible d = true)).
Proof.
  assert (Hwf : wf_graph three_stops = true) by reflexivity.
  split; [exact Hwf|].
  exact (merge_edge_set three_stops plain_roads [link_to_A] "pt_C" "pt_B" Hwf).
Defined.

Lemma car_edges_merged_witness :
  wf_graph station_graph = true /\ wf_graph plain_roads = true
  /\ edge_data plain_roads "road_1" "road_2" = Some car_edge
  /\ ~ In ("road_1", "road_2") (map ends [link_near])
  /\ exists d',
       edge_data (Merge.create_combined_graph station_graph plain_roads [link_near])
                 "road_1" "road_2" = Some d'
       /\ (forall k val, Dict.get k car_edge = Some val -> Dict.get k d' = Some val)
       /\ (has_edge station_graph "road_1" "road_2" = false ->
           (forall d0, edge_data station_graph "road_2" "road_1" = Some d0 ->
                       reversible d0 = false) ->
           d' = car_edge).
Proof.
  assert (H1 : wf_graph station_graph = true) by reflexivity.
  assert (H2 : wf_graph plain_roads = true) by reflexivity.
  assert (H3 : edge_data plain_roads "road_1" "road_2" = Some car_edge) by reflexivity.
  assert (H4 : ~ In ("road_1", "road_2") (map ends [link_near]))
    by (intros [E|[]]; discriminate E).
  split; [exact H1|]. split; [exact H2|]. split; [exact H3|]. split; [exact H4|].
  exact (car_edges_merged station_graph plain_roads [link_near] _ _ _ H1 H2 H3 H4).
Defined.

Lemma merge_node_attrs_witness :
  wf_graph three_stops = true /\ wf_graph plain_roads = true
  /\ Dict.get "road_1"
       (node_ (Merge.create_combined_graph three_stops plain_roads [link_to_A]))
     = Some (stop (-37.8180) 144.9670)
  /\ Dict.get "pt_S"
       (node_ (Merge.create_combined_graph three_stops plain_roads [link_near]))
     = Some [].
Proof.
  assert (H1 : wf_graph three_stops = true) by reflexivity.
  assert (H2 : wf_graph plain_roads = true) by reflexivity.
  split; [exact H1|]. split; [exact H2|]. split.
  - exact (merge_node_attrs three_stops plain_roads [link_to_A] "road_1" H1 H2).
  - exact (merge_node_attrs three_stops plain_roads [link_near] "pt_S" H1 H2).
Defined.

Lemma second_run_reproduces_witness :
  wf_graph three_stops = true
  /\ PtToPt.add_walking_edges grid_geometry MAX_WALKING_DISTANCE_M three_stops
     = Ok (three_stops_walked, StatsReport (mkStats 2 1 3 1 0))
  /\ (forall u v d, edge_data three_stops u v = Some d -> is_pt_walk d = false ->
                    edge_data three_stops_walked u v = Some d)
  /\ exists G2,
       PtToPt.add_walking_edges grid_geometry MAX_WALKING_DISTANCE_M three_stops_walked
       = Ok (G2, StatsReport (mkStats 2 1 3 1 0))
       /\ node_ G2 = node_ three_stops_walked
       /\ forall u v, edge_data G2 u v = edge_data three_stops_walked u v.
Proof.
  assert (Hwf : wf_graph three_stops = true) by reflexivity.
  assert (H : PtToPt.add_walking_edges grid_geometry MAX_WALKING_DISTANCE_M three_stops
              = Ok (three_stops_walked, StatsReport (mkStats 2 1 3 1 0)))
    by (vm_compute; reflexivity).
  assert (Hk : forall u v d, edge_data three_stops u v = Some d -> is_pt_walk d = false ->
                             edge_data three_stops_walked u v = Some d).
  { intros u v d Hd _. apply edge_data_In_edges in Hd.
    destruct Hd as [E|[]]. inversion E; subst. reflexivity. }
  split; [exact Hwf|]. split; [exact H|]. split; [exact Hk|].
  exact (second_run_reproduces grid_geometry MAX_WALKING_DISTANCE_M _ _ _ Hwf H Hk).
Defined.
